(** * Multiaddr: composable, self-describing network addresses

    A shallow embedding of [src/index.js] (the [Multiaddr] wrapper type) on
    top of a model of the two modules it requires, [./codec] and
    [./protocols], and of the [varint] package.

    Buffers are lists of bytes, JavaScript strings are lists of characters,
    thrown exceptions are the [Err] results of an error monad, and the
    objects handed out by [protos()] live in an explicit heap. *)

From Stdlib Require Import NArith ZArith List Ascii String Lia.
From Stdlib Require Import Strings.Byte.
From Stdlib Require Import DecimalString HexadecimalString DecimalN HexadecimalN.
From stdpp Require Import base option list gmap.

Import ListNotations.

(** ** Basic data *)

(** A [Buffer] is a sequence of octets. *)
Definition bytes := list Byte.byte.

#[global] Instance byte_eq_dec : EqDecision Byte.byte := Byte.byte_eq_dec.

(** A JavaScript string, as its sequence of characters. *)
Definition jsstring := list ascii.

(** String literals of the source are written [str "..."]. *)
Definition str (s : string) : jsstring := list_ascii_of_string s.

(** Reading a number as an octet: the low eight bits. *)
Definition byte_of_N (n : N) : Byte.byte :=
  match Byte.of_N (n mod 256) with
  | Some b => b
  | None => Byte.x00
  end.

(** Byte literals are written [hex [0x04; 0x7f]]. *)
Definition hex (l : list N) : bytes := map byte_of_N l.

Definition slash : ascii := "/"%char.

(** ** Errors

    The first five are the error kinds of the address core; [RangeError]
    is what [varint.decode] raises on a truncated number; the others are
    the [Error]s thrown by [index.js] itself: by the constructor's
    argument check, by [nodeAddress], by [fromNodeAddress] and by
    [fromStupidString]. *)
Inductive Error : Type :=
| UnknownProtocol
| InvalidFormat
| InvalidValue
| InvalidAddress
| NotContained
| RangeError
| BadArgument
| NotThinWaist
| MissingArgument
| NotImplemented.

Inductive Result (A : Type) : Type :=
| Ok (a : A)
| Err (e : Error).
Arguments Ok {A} a.
Arguments Err {A} e.

Definition bind {A B} (r : Result A) (k : A -> Result B) : Result B :=
  match r with
  | Ok a => k a
  | Err e => Err e
  end.

Notation "'let*' x := r 'in' k" := (bind r (fun x => k))
  (at level 10, x pattern, r at level 100, k at level 200).

(** A missing value becomes the given exception. *)
Definition orThrow {A} (e : Error) (o : option A) : Result A :=
  match o with
  | Some a => Ok a
  | None => Err e
  end.

(** [lodash.map] over an array, with a callback that may throw. *)
Fixpoint mapM {A B} (f : A -> Result B) (l : list A) : Result (list B) :=
  match l with
  | [] => Ok []
  | a :: l' =>
      let* b := f a in
      let* bs := mapM f l' in
      Ok (b :: bs)
  end.

(** ** [String.prototype] helpers used by [index.js] *)

Module JsString.

(** [s.split(sep)] for a one-character separator: never the empty array;
    [''.split('/')] is [['']]. *)
Fixpoint split (sep : ascii) (s : jsstring) : list jsstring :=
  match s with
  | [] => [[]]
  | c :: s' =>
      if Ascii.eqb c sep then [] :: split sep s'
      else match split sep s' with
           | seg :: segs => (c :: seg) :: segs
           | [] => [[c]]
           end
  end.

(** [parts.join(sep)]. *)
Fixpoint join (sep : ascii) (parts : list jsstring) : jsstring :=
  match parts with
  | [] => []
  | [p] => p
  | p :: ps => p ++ sep :: join sep ps
  end.

(** Does [t] start at the head of [s]? *)
Fixpoint startsWith (t s : jsstring) : bool :=
  match t, s with
  | [], _ => true
  | _ :: _, [] => false
  | a :: t', b :: s' => Ascii.eqb a b && startsWith t' s'
  end.

(** The largest index at which [t] occurs in [s], scanning the suffixes
    of [s] from position [k] on; [None] when there is none. *)
Fixpoint lastOccurrence (t s : jsstring) (k : nat) : option nat :=
  match s with
  | [] => if startsWith t [] then Some k else None
  | _ :: s' =>
      match lastOccurrence t s' (S k) with
      | Some i => Some i
      | None => if startsWith t s then Some k else None
      end
  end.

(** [s.lastIndexOf(t)]: the index of the last occurrence, or [-1]. *)
Definition lastIndexOf (s t : jsstring) : Z :=
  match lastOccurrence t s 0 with
  | Some i => Z.of_nat i
  | None => (-1)%Z
  end.

(** [s.slice(0, i)] for an index [i >= 0]. *)
Definition slice0 (s : jsstring) (i : Z) : jsstring := take (Z.to_nat i) s.

(** [t] occurs in [s] at index [i]. *)
Definition occursAt (t s : jsstring) (i : nat) : Prop :=
  (i <= length s)%nat /\ t `prefix_of` drop i s.

(** [t] is a substring of [s]. *)
Definition substring (t s : jsstring) : Prop :=
  exists pre post, s = pre ++ t ++ post.

End JsString.

(** ** The [varint] package: base-128 unsigned integers

    [index.js] requires the [varint] package of npm, which is no part of
    the repository. Each byte carries seven payload bits, least
    significant group first, and its top bit says whether another byte
    follows. *)

Module varint.

(** [encode(num)]: emit [(num & 0xFF) | 0x80] and shift right by seven
    while more than seven bits remain, then the last group. *)
Fixpoint encode_loop (fuel : nat) (num : N) : bytes :=
  match fuel with
  | O => [byte_of_N num]
  | S fuel' =>
      if (num <? 128)%N then [byte_of_N num]
      else byte_of_N (N.lor (N.land num 255) 128)
             :: encode_loop fuel' (N.shiftr num 7)
  end.

Definition encode (num : N) : bytes := encode_loop (N.to_nat (N.size num)) num.

(** The [do ... while (b >= 0x80)] loop of [decode]: [res] accumulates
    [(b & 0x7F) * 2^shift]; running off the end of the buffer raises. *)
Fixpoint decode_loop (buf : bytes) (res shift : N) (counter : nat)
  : option (N * nat) :=
  match buf with
  | [] => None
  | b :: buf' =>
      let res' := (res + N.land (Byte.to_N b) 127 * 2 ^ shift)%N in
      if (128 <=? Byte.to_N b)%N
      then decode_loop buf' res' (shift + 7)%N (S counter)
      else Some (res', S counter)
  end.

(** [decode(buf, offset)] with [decode.bytes] as second component. *)
Definition decode (buf : bytes) (offset : nat) : option (N * nat) :=
  decode_loop (drop offset buf) 0%N 0%N 0.

End varint.

(** ** The protocol registry ([./protocols]) *)

Module protocols.

(** Modelled from the spec: the value size policy of a descriptor of
    [./protocols], which is not part of the sources at hand: a fixed
    width in bits, a value preceded by its own varint length, or no
    value at all. *)
Inductive SizePolicy : Type :=
| Fixed (bits : N)
| VariableLengthPrefixed
| NoValue.

(** Modelled from the spec: the protocol descriptor of [./protocols],
    a record of code, name, size policy and the two transforms between
    the string and the byte form of a value; [path] tells the path-like
    protocols, whose value is the whole remainder of the string, from
    the scalar ones, whose value is one segment. *)
Record Protocol : Type := {
  code : N;
  size : SizePolicy;
  name : jsstring;
  path : bool;
  toBytes : jsstring -> option bytes;
  toDisplay : bytes -> option jsstring
}.

(** Modelled from the spec: whether the descriptors of [./protocols] give
    a protocol a value segment at all. *)
Definition hasValue (p : Protocol) : bool :=
  match size p with
  | NoValue => false
  | _ => true
  end.

(** [a === b] on strings. *)
Definition jsstring_eqb (a b : jsstring) : bool :=
  bool_decide (a = b).

Section Lookup.
Variable table : list Protocol.

(** Modelled from the spec: [byCode] of [./protocols], the call
    [protocols(code)] of [index.js] with a number. *)
Definition byCode (c : N) : Result Protocol :=
  orThrow UnknownProtocol (find (fun p => (code p =? c)%N) table).

(** Modelled from the spec: [byName] of [./protocols]. *)
Definition byName (n : jsstring) : Result Protocol :=
  orThrow UnknownProtocol (find (fun p => jsstring_eqb (name p) n) table).
End Lookup.

End protocols.
Import protocols.

(** ** The binary codec ([./codec]) *)

Module codec.

(** Modelled from the spec: [sizeForAddr] of [./codec]: the byte width of
    a fixed value, or, for a length-prefixed value, the width of the
    prefix plus the length it announces; it raises when the prefix is
    malformed or announces more than the remaining bytes. *)
Definition sizeForAddr (p : Protocol) (rest : bytes) : Result nat :=
  match size p with
  | Fixed bits => Ok (N.to_nat (bits / 8))
  | NoValue => Ok 0
  | VariableLengthPrefixed =>
      match varint.decode rest 0 with
      | None => Err InvalidAddress
      | Some (len, n) =>
          if (n + N.to_nat len <=? length rest)%nat
          then Ok (n + N.to_nat len)%nat
          else Err InvalidAddress
      end
  end.

(** Modelled from the spec: the bytes that [./codec] emits for one
    value, [[varint(len)] value]. *)
Definition encodeValue (p : Protocol) (v : bytes) : bytes :=
  match size p with
  | Fixed _ => v
  | VariableLengthPrefixed => varint.encode (N.of_nat (length v)) ++ v
  | NoValue => []
  end.

(** Modelled from the spec: the bytes that [./codec] emits for one
    component, [varint(code) [varint(len)] value]. *)
Definition encodeTuple (p : Protocol) (v : bytes) : bytes :=
  varint.encode (code p) ++ encodeValue p v.

(** Modelled from the spec: the slice that [./codec] takes as the value
    out of the bytes that [sizeForAddr] measured: a length-prefixed value
    without its prefix. *)
Definition valueOf (p : Protocol) (raw : bytes) : bytes :=
  match size p with
  | VariableLengthPrefixed =>
      match varint.decode raw 0 with
      | Some (_, n) => drop n raw
      | None => raw
      end
  | _ => raw
  end.

(** Modelled from the spec: one component as [bufferToString] of
    [./codec] renders it: ["/name/value"], or ["/name"] alone for a
    protocol without value. *)
Definition renderTuple (p : Protocol) (v : bytes) : Result jsstring :=
  if hasValue p then
    let* d := orThrow InvalidValue (toDisplay p v) in
    Ok (slash :: name p ++ slash :: d)
  else Ok (slash :: name p).

Section WithRegistry.
Variable table : list Protocol.

(** Modelled from the spec: the segment loop of [fromString] of
    [./codec]. A name segment is resolved in the registry; a protocol
    without value takes no further segment, a scalar one the next
    segment, a path-like one all the remaining segments. *)
Fixpoint parseSegments (segs : list jsstring) : Result bytes :=
  match segs with
  | [] => Ok []
  | nm :: rest =>
      let* p := byName table nm in
      if hasValue p then
        if path p then
          match rest with
          | [] => Err InvalidFormat
          | _ :: _ =>
              let* v := orThrow InvalidValue (toBytes p (JsString.join slash rest)) in
              Ok (encodeTuple p v)
          end
        else
          match rest with
          | [] => Err InvalidFormat
          | d :: rest' =>
              let* v := orThrow InvalidValue (toBytes p d) in
              let* tl := parseSegments rest' in
              Ok (encodeTuple p v ++ tl)
          end
      else
        let* tl := parseSegments rest in
        Ok (encodeTuple p [] ++ tl)
  end.

(** Modelled from the spec: [fromString] of [./codec]. The empty string
    is the empty address; any other string must start with the
    separator, and what follows is split into segments. *)
Definition fromString (s : jsstring) : Result bytes :=
  match s with
  | [] => Ok []
  | c :: s' =>
      if Ascii.eqb c slash then parseSegments (JsString.split slash s')
      else Err InvalidFormat
  end.

(** Modelled from the spec: one step of the structural walk of
    [./codec]: decode the code, resolve it, measure the value with
    [sizeForAddr], check that it fits, and slice it. The result is the
    descriptor, the value and the bytes that follow. *)
Definition readTuple (buf : bytes) : Result (Protocol * bytes * bytes) :=
  let* (c, n) := orThrow InvalidAddress (varint.decode buf 0) in
  let* p := orThrow InvalidAddress (find (fun p => (code p =? c)%N) table) in
  let rest := drop n buf in
  let* sz := sizeForAddr p rest in
  if (sz <=? length rest)%nat
  then Ok (p, valueOf p (take sz rest), drop sz rest)
  else Err InvalidAddress.

(** Modelled from the spec: the structural walk of [./codec], applying
    [f] to every component in order. Every step consumes at least one
    byte, so [length buf] steps suffice. *)
Fixpoint walk {A} (f : Protocol -> bytes -> Result A) (fuel : nat) (buf : bytes)
  : Result (list A) :=
  match buf with
  | [] => Ok []
  | _ :: _ =>
      match fuel with
      | O => Err InvalidAddress
      | S fuel' =>
          let* (pv, rest) := readTuple buf in
          let* a := f (fst pv) (snd pv) in
          let* tl := walk f fuel' rest in
          Ok (a :: tl)
      end
  end.

(** Modelled from the spec: [bufferToTuples] ([toTuples]) of [./codec]. *)
Definition bufferToTuples (buf : bytes) : Result (list (N * bytes)) :=
  walk (fun p v => Ok (code p, v)) (length buf) buf.

(** Modelled from the spec: [bufferToString] of [./codec]. *)
Definition bufferToString (buf : bytes) : Result jsstring :=
  let* parts := walk renderTuple (length buf) buf in
  Ok (concat parts).

(** Modelled from the spec: [fromBuffer] of [./codec]: a copy of the
    input once the walk has accepted it; every structural failure is
    [InvalidAddress]. *)
Definition fromBuffer (buf : bytes) : Result bytes :=
  match walk (fun _ _ => Ok tt) (length buf) buf with
  | Ok _ => Ok buf
  | Err _ => Err InvalidAddress
  end.

(** Modelled from the spec: [tuplesToBuffer] ([fromTuples]) of [./codec]. *)
Fixpoint tuplesToBuffer (ts : list (N * bytes)) : Result bytes :=
  match ts with
  | [] => Ok []
  | (c, v) :: ts' =>
      let* p := orThrow InvalidAddress (find (fun p => (code p =? c)%N) table) in
      let* tl := tuplesToBuffer ts' in
      Ok (encodeTuple p v ++ tl)
  end.

End WithRegistry.

End codec.

(** ** [index.js]: the [Multiaddr] type *)

(** An instance holds one field, [this.buffer]. *)
Record Multiaddr : Type := { buffer : bytes }.

(** What a caller may hand to the constructor. [JObject] stands for any
    object that is neither a Buffer nor shaped like a Multiaddr. *)
Inductive JsValue : Type :=
| JUndefined
| JNull
| JBoolean (b : bool)
| JNumber (z : Z)
| JNaN
| JString (s : jsstring)
| JBuffer (b : bytes)
| JMultiaddr (m : Multiaddr)
| JObject.

(** [!addr]. *)
Definition falsy (v : JsValue) : bool :=
  match v with
  | JUndefined | JNull | JNaN => true
  | JBoolean b => negb b
  | JNumber z => (z =? 0)%Z
  | JString s => match s with [] => true | _ => false end
  | JBuffer _ | JMultiaddr _ | JObject => false
  end.

(** [family], [host], [transport], [port] of [toOptions]; an index past the
    end of the split string reads [undefined], here [None]. *)
Record Options : Type := {
  opt_family : jsstring;
  opt_host : option jsstring;
  opt_transport : option jsstring;
  opt_port : option jsstring
}.

(** The object returned by [nodeAddress]. *)
Record NodeAddress : Type := {
  na_family : jsstring;
  na_address : option jsstring;
  na_port : option jsstring
}.

Module multiaddr.

(** The [while (i < buf.length)] loop of [protoCodes], over the function
    [protocols] it calls; [fuel] bounds the number of iterations, each of
    which advances [i] by at least one. *)
Fixpoint protoCodes_loop (protocols : N -> Result Protocol)
    (fuel : nat) (buf : bytes) (i : nat) : Result (list N) :=
  if (i <? length buf)%nat then
    match fuel with
    | O => Ok []
    | S fuel' =>
        let* (code, n) := orThrow RangeError (varint.decode buf i) in
        let* p := protocols code in
        let* size := codec.sizeForAddr p (drop (i + n) buf) in
        let* codes := protoCodes_loop protocols fuel' buf (i + (size + n)) in
        Ok (code :: codes)
    end
  else Ok [].

Definition protoCodes_with (protocols : N -> Result Protocol) (this : Multiaddr)
  : Result (list N) :=
  protoCodes_loop protocols (length (buffer this)) (buffer this) 0.

(** What [isMultiaddr] reads of its argument. [addr.constructor.name]
    is missing or falsy, a string, or another truthy value. *)
Inductive ConstructorName : Type :=
| NoName
| Name (n : jsstring)
| OtherName.

(** The argument of [isMultiaddr], when it is neither [undefined] nor
    [null]: any object, or a primitive seen through its wrapper, as far
    as [isMultiaddr] looks at it. *)
Record Shape : Type := {
  constructorName : ConstructorName;
  hasFromStupidString : bool;
  hasProtos : bool
}.

(** [Multiaddr.isMultiaddr]; the argument [None] is [undefined] or
    [null], and the result [None] the [TypeError] of reading
    [addr.constructor] on it. The empty string is falsy, as a missing
    name is. *)
Definition isMultiaddr (addr : option Shape) : option bool :=
  match addr with
  | None => None
  | Some o =>
      match constructorName o with
      | Name (c :: n) => Some (jsstring_eqb (c :: n) (str "Multiaddr"))
      | OtherName => Some false
      | Name [] | NoName => Some (hasFromStupidString o && hasProtos o)
      end
  end.

(** A Multiaddr as [isMultiaddr] sees it: built by the function
    [Multiaddr], whose prototype has [fromStupidString] and [protos]. *)
Definition shapeOfMultiaddr : Shape :=
  {| constructorName := Name (str "Multiaddr");
     hasFromStupidString := true; hasProtos := true |}.

(** A string as [isMultiaddr] sees it: its wrapper is built by [String],
    which has neither method. *)
Definition shapeOfString : Shape :=
  {| constructorName := Name (str "String");
     hasFromStupidString := false; hasProtos := false |}.

Section WithRegistry.
Variable table : list Protocol.

(** [function Multiaddr (addr)]. *)
Definition new (addr : JsValue) : Result Multiaddr :=
  let addr := if falsy addr then JString [] else addr in
  match addr with
  | JBuffer b =>
      let* buf := codec.fromBuffer table b in Ok {| buffer := buf |}
  | JString s =>
      let* buf := codec.fromString table s in Ok {| buffer := buf |}
  | JMultiaddr m =>
      let* buf := codec.fromBuffer table (buffer m) in Ok {| buffer := buf |}
  | _ => Err BadArgument
  end.

(** [Multiaddr.prototype.toString]. *)
Definition toString (this : Multiaddr) : Result jsstring :=
  codec.bufferToString table (buffer this).

(** [Multiaddr.prototype.toOptions]. *)
Definition toOptions (this : Multiaddr) : Result Options :=
  let* s := toString this in
  let parsed := JsString.split slash s in
  Ok {| opt_family :=
          if bool_decide (parsed !! 1%nat = Some (str "ip4"))
          then str "ipv4" else str "ipv6";
        opt_host := parsed !! 2%nat;
        opt_transport := parsed !! 3%nat;
        opt_port := parsed !! 4%nat |}.

(** [Multiaddr.prototype.protoCodes]. *)
Definition protoCodes (this : Multiaddr) : Result (list N) :=
  protoCodes_with (byCode table) this.

(** [Multiaddr.prototype.protos], as the contents of the records it
    returns (their identity is the subject of the heap model below). *)
Definition protos (this : Multiaddr) : Result (list Protocol) :=
  let* codes := protoCodes this in
  mapM (byCode table) codes.

(** [Multiaddr.prototype.protoNames]. *)
Definition protoNames (this : Multiaddr) : Result (list jsstring) :=
  let* ps := protos this in
  Ok (map name ps).

(** [Multiaddr.prototype.tuples]. *)
Definition tuples (this : Multiaddr) : Result (list (N * bytes)) :=
  codec.bufferToTuples table (buffer this).

(** [Multiaddr.prototype.encapsulate]. *)
Definition encapsulate (this addr : Multiaddr) : Result Multiaddr :=
  let* addr := new (JMultiaddr addr) in
  let* s1 := toString this in
  let* s2 := toString addr in
  new (JString (s1 ++ s2)).

(** [Multiaddr.prototype.decapsulate]. *)
Definition decapsulate (this addr : Multiaddr) : Result Multiaddr :=
  let* addr := toString addr in
  let* s := toString this in
  let i := JsString.lastIndexOf s addr in
  if (i <? 0)%Z then Err NotContained
  else new (JString (JsString.slice0 s i)).

(** [Multiaddr.prototype.equals]: [Buffer.prototype.equals] on the two
    buffers. *)
Definition equals (this addr : Multiaddr) : bool :=
  bool_decide (buffer this = buffer addr).

(** [Multiaddr.prototype.isThinWaistAddress]; its argument is optional,
    and [(addr || this)] is the address that is looked at. *)
Definition isThinWaistAddress (this : Multiaddr) (addr : option Multiaddr)
  : Result bool :=
  let* protos := protos (default this addr) in
  if negb (length protos =? 2)%nat then Ok false
  else
    let code0 := code <$> protos !! 0%nat in
    let code1 := code <$> protos !! 1%nat in
    if bool_decide (code0 ≠ Some 4%N) && bool_decide (code0 ≠ Some 41%N)
    then Ok false
    else if bool_decide (code1 ≠ Some 6%N) && bool_decide (code1 ≠ Some 17%N)
    then Ok false
    else Ok true.

(** [Multiaddr.prototype.nodeAddress]. *)
Definition nodeAddress (this : Multiaddr) : Result NodeAddress :=
  let* thin := isThinWaistAddress this None in
  if negb thin then Err NotThinWaist
  else
    let* codes := protoCodes this in
    let* s := toString this in
    let parts := drop 1 (JsString.split slash s) in
    Ok {| na_family :=
            if bool_decide (codes !! 0%nat = Some 41%N)
            then str "IPv6" else str "IPv4";
          na_address := parts !! 1%nat;
          na_port := parts !! 3%nat |}.

(** [Multiaddr.fromNodeAddress]; a missing object is [None], and
    [join] writes a missing field as the empty string. *)
Definition fromNodeAddress (addr : option NodeAddress) (transport : jsstring)
  : Result Multiaddr :=
  match addr with
  | None => Err MissingArgument
  | Some addr =>
      match transport with
      | [] => Err MissingArgument
      | _ :: _ =>
          let ip := if bool_decide (na_family addr = str "IPv6")
                    then str "ip6" else str "ip4" in
          new (JString (slash :: JsString.join slash
                                   [ip; default [] (na_address addr);
                                    transport; default [] (na_port addr)]))
      end
  end.

(** [Multiaddr.prototype.fromStupidString]. *)
Definition fromStupidString (this : Multiaddr) (s : jsstring) : Result Multiaddr :=
  Err NotImplemented.

(** [buffer.toString('hex')]: two lower-case digits for every byte. *)
Definition toHex (buf : bytes) : jsstring :=
  let digit (n : N) : ascii :=
    ascii_of_N (if (n <? 10)%N then 48 + n else 87 + n) in
  flat_map (fun b => [digit (Byte.to_N b / 16)%N; digit (Byte.to_N b mod 16)%N]) buf.

(** [Multiaddr.prototype.inspect]. *)
Definition inspect (this : Multiaddr) : Result jsstring :=
  let* s := codec.bufferToString table (buffer this) in
  Ok (str "<Multiaddr " ++ toHex (buffer this) ++ str " - " ++ s ++ str ">").

End WithRegistry.
End multiaddr.

(** ** Value transforms and a registry table *)

Module transforms.

(** The transforms [toBytes] and [toDisplay] of the descriptors are part
    of [./protocols], which is not among the sources at hand; they follow
    the value syntax of the canonical string grammar: decimal ports,
    dotted-quad IPv4, colon-hex IPv6, literal text. *)

(** Modelled from the spec: a decimal digit, for the ports and octets of
    the transforms of [./protocols]. *)
Definition isDigit (c : ascii) : bool :=
  let n := N_of_ascii c in (48 <=? n)%N && (n <=? 57)%N.

(** Modelled from the spec: the decimal integers of the transforms of
    [./protocols]: a non-empty run of decimal digits, read as a number. *)
Definition parseDecimal (s : jsstring) : option N :=
  match s with
  | [] => None
  | _ :: _ =>
      if forallb isDigit s
      then Some (fold_left (fun acc c => acc * 10 + (N_of_ascii c - 48))%N s 0%N)
      else None
  end.

(** Modelled from the spec: a number in decimal, as the transforms of
    [./protocols] display ports and octets. *)
Definition printDecimal (n : N) : jsstring :=
  list_ascii_of_string (DecimalString.NilEmpty.string_of_uint (N.to_uint n)).

(** Modelled from the spec: a hexadecimal digit of either case, for the
    colon-hex transform of [./protocols]. *)
Definition hexDigit (c : ascii) : option N :=
  let n := N_of_ascii c in
  if (48 <=? n)%N && (n <=? 57)%N then Some (n - 48)%N
  else if (97 <=? n)%N && (n <=? 102)%N then Some (n - 87)%N
  else if (65 <=? n)%N && (n <=? 70)%N then Some (n - 55)%N
  else None.

(** Modelled from the spec: a group of the colon-hex transform of
    [./protocols]: one to four hexadecimal digits, read as a number. *)
Definition parseHex (s : jsstring) : option N :=
  if bool_decide (1 <= length s <= 4)%nat
  then fold_left (fun acc c =>
                    match acc, hexDigit c with
                    | Some a, Some d => Some (a * 16 + d)%N
                    | _, _ => None
                    end) s (Some 0%N)
  else None.

(** Modelled from the spec: a number in hexadecimal, as the colon-hex
    transform of [./protocols] displays a group. *)
Definition printHex (n : N) : jsstring :=
  list_ascii_of_string (HexadecimalString.NilEmpty.string_of_uint (N.to_hex_uint n)).

(** All the results, when none is missing. *)
Fixpoint sequence {A} (l : list (option A)) : option (list A) :=
  match l with
  | [] => Some []
  | o :: l' =>
      match o, sequence l' with
      | Some a, Some l'' => Some (a :: l'')
      | _, _ => None
      end
  end.

(** Modelled from the spec: an octet of the IPv4 transform of
    [./protocols]; a number above [255] is out of range. *)
Definition octet (s : jsstring) : option Byte.byte :=
  match parseDecimal s with
  | Some n => if (n <=? 255)%N then Some (byte_of_N n) else None
  | None => None
  end.

(** Modelled from the spec: [toBytes] of the IPv4 descriptor of
    [./protocols]: a dotted quad of decimal octets from [0] to [255]. *)
Definition ip4ToBytes (s : jsstring) : option bytes :=
  match JsString.split "."%char s with
  | [a; b; c; d] => sequence [octet a; octet b; octet c; octet d]
  | _ => None
  end.

(** Modelled from the spec: [toDisplay] of the IPv4 descriptor of
    [./protocols]: four bytes as a dotted quad. *)
Definition ip4ToDisplay (v : bytes) : option jsstring :=
  match v with
  | [a; b; c; d] =>
      Some (JsString.join "."%char
              (map (fun x => printDecimal (Byte.to_N x)) [a; b; c; d]))
  | _ => None
  end.

(** Modelled from the spec: [toBytes] of the port descriptors (tcp, udp)
    of [./protocols]: a decimal integer from [0] to [65535], stored
    big-endian on two bytes. *)
Definition portToBytes (s : jsstring) : option bytes :=
  match parseDecimal s with
  | Some n =>
      if (n <=? 65535)%N then Some [byte_of_N (n / 256); byte_of_N (n mod 256)]
      else None
  | None => None
  end.

(** Modelled from the spec: [toDisplay] of the port descriptors of
    [./protocols]: two bytes, high byte first, as a decimal integer. *)
Definition portToDisplay (v : bytes) : option jsstring :=
  match v with
  | [hi; lo] => Some (printDecimal (Byte.to_N hi * 256 + Byte.to_N lo))
  | _ => None
  end.

(** Modelled from the spec: the two bytes of a group of the colon-hex
    transform of [./protocols]. *)
Definition group (s : jsstring) : option bytes :=
  match parseHex s with
  | Some n => Some [byte_of_N (n / 256); byte_of_N (n mod 256)]
  | None => None
  end.

(** Modelled from the spec: the groups that the colon-hex transform of
    [./protocols] displays, one for every two bytes. *)
Fixpoint groups (v : bytes) : list jsstring :=
  match v with
  | hi :: lo :: v' => printHex (Byte.to_N hi * 256 + Byte.to_N lo) :: groups v'
  | _ => []
  end.

(** Modelled from the spec: [toBytes] of the IPv6 descriptor of
    [./protocols]: colon-hex, here the full form of eight groups. *)
Definition ip6ToBytes (s : jsstring) : option bytes :=
  let gs := JsString.split ":"%char s in
  if (length gs =? 8)%nat
  then option_map (@concat _) (sequence (map group gs))
  else None.

(** Modelled from the spec: [toDisplay] of the IPv6 descriptor of
    [./protocols]: sixteen bytes as eight groups. *)
Definition ip6ToDisplay (v : bytes) : option jsstring :=
  if (length v =? 16)%nat then Some (JsString.join ":"%char (groups v)) else None.

(** Modelled from the spec: [toBytes] of the textual descriptors (domain
    names, paths) of [./protocols]: the characters of the string, one
    byte each, without escaping. *)
Definition textToBytes (s : jsstring) : option bytes :=
  Some (map byte_of_ascii s).

(** Modelled from the spec: [toDisplay] of the textual descriptors of
    [./protocols]: the bytes as characters. *)
Definition textToDisplay (v : bytes) : option jsstring :=
  Some (map ascii_of_byte v).

(** Modelled from the spec: the transforms of a descriptor of
    [./protocols] without value, which are never called. *)
Definition noValue {A B} (_ : A) : option B := None.

End transforms.

Module registry.
Import transforms.

(** Modelled from the spec: the row of [./protocols] for IPv4, code 4 and
    32 bits as [index.js] documents them. *)
Definition ip4 : Protocol :=
  {| code := 4; size := Fixed 32; name := str "ip4"; path := false;
     toBytes := ip4ToBytes; toDisplay := ip4ToDisplay |}.

(** Modelled from the spec: the row of [./protocols] for tcp, code 6 and
    16 bits as [index.js] documents them. *)
Definition tcp : Protocol :=
  {| code := 6; size := Fixed 16; name := str "tcp"; path := false;
     toBytes := portToBytes; toDisplay := portToDisplay |}.

(** Modelled from the spec: the row of [./protocols] for udp, the code 17
    that [isThinWaistAddress] tests for. *)
Definition udp : Protocol :=
  {| code := 17; size := Fixed 16; name := str "udp"; path := false;
     toBytes := portToBytes; toDisplay := portToDisplay |}.

(** Modelled from the spec: the row of [./protocols] for IPv6, the code 41
    that [nodeAddress] tests for. *)
Definition ip6 : Protocol :=
  {| code := 41; size := Fixed 128; name := str "ip6"; path := false;
     toBytes := ip6ToBytes; toDisplay := ip6ToDisplay |}.

(** Modelled from the spec: a row of [./protocols] with a length-prefixed
    textual value, a domain name. *)
Definition dns4 : Protocol :=
  {| code := 54; size := VariableLengthPrefixed; name := str "dns4"; path := false;
     toBytes := textToBytes; toDisplay := textToDisplay |}.

(** Modelled from the spec: a row of [./protocols] with a path-like
    value. *)
Definition unix : Protocol :=
  {| code := 400; size := VariableLengthPrefixed; name := str "unix"; path := true;
     toBytes := textToBytes; toDisplay := textToDisplay |}.

(** Modelled from the spec: a row of [./protocols] without value. *)
Definition http : Protocol :=
  {| code := 480; size := NoValue; name := str "http"; path := false;
     toBytes := noValue; toDisplay := noValue |}.

(** Modelled from the spec: the fixed table of [./protocols], which is
    not part of the sources at hand. Codes 4, 6, 17 and 41 are the ones
    [index.js] tests for (IPv4, tcp, udp, IPv6), with the sizes 32 and 16
    that its documentation of [protos()] shows for [ip4] and [tcp]. The
    last three rows stand for the other classes that the registry must
    cover: a length-prefixed textual value (a domain name), a path-like
    value, which takes the whole remainder of a string, and a protocol
    without value. *)
Definition table : list Protocol := [ip4; tcp; udp; ip6; dns4; unix; http].

(** Modelled from the spec: the records of the table of [./protocols] as
    objects in a heap, one per row. *)
Definition records : gmap nat Protocol :=
  list_to_map (imap (fun i p => (i, p)) table).

(** Modelled from the spec: the index of [./protocols] from a code to the
    address of its record. *)
Definition codes : gmap N nat :=
  list_to_map (imap (fun i p => (code p, i)) table).

End registry.

(** ** The records behind [protos()]

    [protocols(code)] hands out the registry's own record; [protos()]
    passes each one through [extend] (the [xtend] package), which builds a
    new object with the same properties. Records live in a heap, so that
    a record and its copy can be told apart and either can be written to. *)

Module objects.
Section WithRegistry.
(** [codes] is the registry's index from a code to the address of its
    record. *)
Variable codes : gmap N nat.

(** [protocols(code)], as a reference. *)
Definition protocols (c : N) : Result nat :=
  orThrow UnknownProtocol (codes !! c).

(** Reading the record at an address. *)
Definition read (h : gmap nat Protocol) (l : nat) : Result Protocol :=
  orThrow BadArgument (h !! l).

(** [extend(o)]: a new object with the properties of [o]. *)
Definition extend (h : gmap nat Protocol) (l : nat)
  : Result (nat * gmap nat Protocol) :=
  let* o := read h l in
  let l' := fresh (dom h) in
  Ok (l', <[l' := o]> h).

(** [map(codes, code => extend(protocols(code)))]. *)
Fixpoint mapExtend (h : gmap nat Protocol) (cs : list N)
  : Result (list nat * gmap nat Protocol) :=
  match cs with
  | [] => Ok ([], h)
  | c :: cs' =>
      let* l := protocols c in
      let* (l', h') := extend h l in
      let* (ls, h'') := mapExtend h' cs' in
      Ok (l' :: ls, h'')
  end.

(** [Multiaddr.prototype.protos] on the heap: the addresses of the
    records it returns, and the heap after the call. *)
Definition protos (h : gmap nat Protocol) (this : Multiaddr)
  : Result (list nat * gmap nat Protocol) :=
  let* cs := multiaddr.protoCodes_with
               (fun c => let* l := protocols c in read h l) this in
  mapExtend h cs.

(** A user writing to one of the records [ls] they were given. *)
Inductive mutates (ls : list nat) : gmap nat Protocol -> gmap nat Protocol -> Prop :=
| mutates_refl h : mutates ls h h
| mutates_step h h' l o :
    l ∈ ls -> mutates ls (<[l := o]> h) h' -> mutates ls h h'.

(** The registry's records are in the heap. *)
Definition registered (h : gmap nat Protocol) : Prop :=
  forall c l, codes !! c = Some l -> is_Some (h !! l).

End WithRegistry.
End objects.

(** ** Registries, canonical strings and valid addresses *)

Definition slashFree (s : jsstring) : bool :=
  forallb (fun c => negb (Ascii.eqb c slash)) s.

(** A value has the length its descriptor asks for. *)
Definition fits (p : Protocol) (v : bytes) : Prop :=
  match size p with
  | Fixed bits => length v = N.to_nat (bits / 8)
  | VariableLengthPrefixed => True
  | NoValue => v = []
  end.

(** What the data model asks of a registry: codes and names are unique,
    a name is one segment of a string, and the byte form of a value has
    the width its descriptor fixes. *)
Record registry_wf (table : list Protocol) : Prop := {
  wf_codes : NoDup (map code table);
  wf_names : NoDup (map name table);
  wf_name_segment : forall p, In p table -> slashFree (name p) = true;
  wf_fixed : forall p d v, In p table -> toBytes p d = Some v -> hasValue p = true -> fits p v;
}.

(** [d] is the canonical text of a value of [p]: it converts to bytes that
    display as [d] again. *)
Definition canonicalValue (p : Protocol) (d : jsstring) : Prop :=
  exists v, toBytes p d = Some v /\ toDisplay p v = Some d.

(** The canonical string grammar, [('/' name ['/' value])*]: a protocol
    without value contributes its name, a scalar protocol its name and one
    segment, a path-like protocol its name and all that remains. With
    [paths = false] no path-like component is admitted. *)
Inductive canonical (paths : bool) (table : list Protocol) : jsstring -> Prop :=
| canonical_empty : canonical paths table []
| canonical_flag p s :
    In p table -> hasValue p = false ->
    canonical paths table s ->
    canonical paths table (slash :: name p ++ s)
| canonical_scalar p d s :
    In p table -> hasValue p = true -> path p = false ->
    slashFree d = true -> canonicalValue p d ->
    canonical paths table s ->
    canonical paths table (slash :: name p ++ slash :: d ++ s)
| canonical_path p d :
    paths = true ->
    In p table -> hasValue p = true -> path p = true ->
    canonicalValue p d ->
    canonical paths table (slash :: name p ++ slash :: d).

(** An address is valid when [fromBuffer] accepts its bytes, as it does
    for every address the constructor has built. *)
Definition valid (table : list Protocol) (a : Multiaddr) : Prop :=
  codec.fromBuffer table (buffer a) = Ok (buffer a).

(** The bytes of a sequence of components. *)
Definition encodeAll (cs : list (Protocol * bytes)) : bytes :=
  concat (map (fun c => codec.encodeTuple (fst c) (snd c)) cs).

(** A string that is empty or starts with the separator, and the segments
    [fromString] makes of it. *)
Definition headed (s : jsstring) : Prop :=
  match s with
  | [] => True
  | c :: _ => c = slash
  end.

Definition segments (s : jsstring) : list jsstring :=
  match s with
  | [] => []
  | _ :: s' => JsString.split slash s'
  end.

(** A component the registry knows, with a value of the right length. *)
Definition component (table : list Protocol) (c : Protocol * bytes) : Prop :=
  In (fst c) table /\ fits (fst c) (snd c).

(** The components of an address: the descriptors and values that the
    walk finds in its bytes. *)
Definition components (table : list Protocol) (buf : bytes)
  : Result (list (Protocol * bytes)) :=
  codec.walk table (fun p v => Ok (p, v)) (length buf) buf.

(** [p] is the descriptor that the registry returns for its code. *)
Definition resolved (table : list Protocol) (p : Protocol) : Prop :=
  find (fun q => (code q =? code p)%N) table = Some p.

(** The shape that [isThinWaistAddress] accepts: two descriptors, the
    first with code 4 or 41, the second with code 6 or 17. *)
Definition thinShape (ps : list Protocol) : bool :=
  match ps with
  | [p1; p2] =>
      ((code p1 =? 4)%N || (code p1 =? 41)%N)
      && ((code p2 =? 6)%N || (code p2 =? 17)%N)
  | _ => false
  end.

(** The record that the registry holds for a code. *)
Definition recordOf (codes : gmap N nat) (h : gmap nat Protocol) (c : N)
  : option Protocol :=
  match codes !! c with
  | Some l => h !! l
  | None => None
  end.

(** The components that the string form carries faithfully: a value
    prints as a text that [toBytes] reads back as the same bytes, a text
    without separator for a scalar protocol. With [paths = false] no
    component is path-like; otherwise the last one may be. *)
Inductive readable (paths : bool) : list (Protocol * bytes) -> Prop :=
| readable_nil : readable paths []
| readable_flag p v cs :
    hasValue p = false ->
    readable paths cs ->
    readable paths ((p, v) :: cs)
| readable_scalar p v d cs :
    hasValue p = true -> path p = false ->
    toDisplay p v = Some d -> toBytes p d = Some v ->
    slashFree d = true ->
    readable paths cs ->
    readable paths ((p, v) :: cs)
| readable_path p v d :
    paths = true ->
    hasValue p = true -> path p = true ->
    toDisplay p v = Some d -> toBytes p d = Some v ->
    readable paths [(p, v)].

(** The texts of the values of the sample registry as [toString] writes
    them: an IPv4 address as four decimal numerals of octets, a port as
    the decimal numeral of a number up to 65535, an IPv6 address as eight
    hexadecimal numerals of groups, numerals without leading zeros; a
    domain name as any text without separator, a path as any text. *)
Inductive valueText : Protocol -> jsstring -> Prop :=
| text_ip4 a b c d :
    (a <= 255)%N -> (b <= 255)%N -> (c <= 255)%N -> (d <= 255)%N ->
    valueText registry.ip4
      (JsString.join "."%char (map transforms.printDecimal [a; b; c; d]))
| text_tcp n :
    (n <= 65535)%N -> valueText registry.tcp (transforms.printDecimal n)
| text_udp n :
    (n <= 65535)%N -> valueText registry.udp (transforms.printDecimal n)
| text_ip6 gs :
    length gs = 8%nat -> Forall (fun g => (g <= 65535)%N) gs ->
    valueText registry.ip6
      (JsString.join ":"%char (map transforms.printHex gs))
| text_dns4 d :
    slashFree d = true -> valueText registry.dns4 d
| text_unix d :
    valueText registry.unix d.

(** The strings of the grammar [('/' name ['/' value])*] over the sample
    registry, with the values written as above: [http] has no value, a
    path takes all that remains. *)
Inductive grammar : jsstring -> Prop :=
| grammar_empty : grammar []
| grammar_flag s :
    grammar s ->
    grammar (slash :: name registry.http ++ s)
| grammar_scalar p d s :
    path p = false -> valueText p d ->
    grammar s ->
    grammar (slash :: name p ++ slash :: d ++ s)
| grammar_path p d :
    path p = true -> valueText p d ->
    grammar (slash :: name p ++ slash :: d).

(** * Properties *)

(** ** Octets and varints *)

Lemma byte_of_N_to_N (n : N) : (n < 256)%N -> Byte.to_N (byte_of_N n) = n.
Proof.
  intros Hn. unfold byte_of_N. rewrite N.mod_small by exact Hn.
  destruct (Byte.of_N n) as [b|] eqn:E.
  - now apply Byte.to_of_N.
  - apply Byte.of_N_None_iff in E. lia.
Qed.

Lemma to_N_lt_256 (b : Byte.byte) : (Byte.to_N b < 256)%N.
Proof. pose proof (Byte.to_N_bounded b). lia. Qed.

Lemma byte_of_N_of_to_N (b : Byte.byte) : byte_of_N (Byte.to_N b) = b.
Proof.
  unfold byte_of_N. rewrite N.mod_small by apply to_N_lt_256.
  now rewrite Byte.of_to_N.
Qed.

Module varint_facts.
Import varint.

(** The continuation byte [(num & 0xFF) | 0x80] keeps the low seven bits
    of [num] and has its top bit set. *)
Lemma continuation_byte (num : N) :
  let b := N.lor (N.land num 255) 128 in
  (b < 256 /\ 128 <= b /\ N.land b 127 = num mod 128)%N.
Proof.
  assert (forall m, (m < 256)%N ->
            (N.lor m 128 < 256 /\ 128 <= N.lor m 128
             /\ N.land (N.lor m 128) 127 = m mod 128)%N) as Hall.
  { intros m Hm.
    assert (((N.lor m 128 <? 256) && (128 <=? N.lor m 128)
             && (N.land (N.lor m 128) 127 =? m mod 128))%N = true) as Hb.
    { rewrite <- (byte_of_N_to_N m Hm).
      destruct (byte_of_N m); reflexivity. }
    apply andb_prop in Hb as [Hb H3]. apply andb_prop in Hb as [H1 H2].
    apply N.ltb_lt in H1. apply N.leb_le in H2. apply N.eqb_eq in H3.
    auto. }
  intros b. subst b.
  assert (N.land num 255 = num mod 256)%N as Hl.
  { change 255%N with (N.ones 8). now rewrite N.land_ones. }
  rewrite Hl.
  pose proof (N.mod_lt num 256%N ltac:(discriminate)) as Hlt.
  destruct (Hall _ Hlt) as (H1 & H2 & H3).
  repeat split; trivial.
  rewrite H3.
  change 256%N with (128 * 2)%N.
  rewrite N.Div0.mod_mul_r.
  rewrite N.mul_comm, N.Div0.mod_add. now rewrite N.Div0.mod_mod.
Qed.

Lemma decode_encode_loop (fuel : nat) :
  forall (num : N) (rest : bytes) (r s : N) (c : nat),
    (num < 2 ^ N.of_nat fuel)%N ->
    decode_loop (encode_loop fuel num ++ rest) r s c
    = Some ((r + num * 2 ^ s)%N, (c + length (encode_loop fuel num))%nat).
Proof.
  assert (forall num r s c rest, (num < 128)%N ->
            decode_loop (byte_of_N num :: rest) r s c
            = Some ((r + num * 2 ^ s)%N, (c + 1)%nat)) as Hlast.
  { intros num r s c rest Hn. simpl.
    rewrite byte_of_N_to_N by lia.
    replace (128 <=? num)%N with false by (symmetry; apply N.leb_gt; lia).
    change 127%N with (N.ones 7). rewrite N.land_ones.
    rewrite N.mod_small by (simpl; lia).
    do 2 f_equal. lia. }
  induction fuel as [|fuel IH]; intros num rest r s c Hnum.
  - simpl in Hnum. assert (num = 0%N) as -> by lia.
    simpl encode_loop. cbn [app length]. apply Hlast. lia.
  - cbn [encode_loop].
    destruct (num <? 128)%N eqn:Hsmall.
    + apply N.ltb_lt in Hsmall. cbn [app length]. now apply Hlast.
    + apply N.ltb_ge in Hsmall.
      destruct (continuation_byte num) as (Hb1 & Hb2 & Hb3).
      cbn [app length decode_loop].
      rewrite byte_of_N_to_N by exact Hb1.
      replace (128 <=? _)%N with true by (symmetry; now apply N.leb_le).
      rewrite Hb3, N.shiftr_div_pow2.
      change (2 ^ 7)%N with 128%N.
      rewrite IH.
      * f_equal. f_equal; [|lia].
        rewrite N.pow_add_r. change (2 ^ 7)%N with 128%N.
        pose proof (N.Div0.div_mod num 128) as Hdm.
        set (q := (num / 128)%N) in *. set (m := (num mod 128)%N) in *.
        set (e := (2 ^ s)%N). transitivity (r + (128 * q + m) * e)%N; [lia |].
        now rewrite <- Hdm.
      * rewrite Nat2N.inj_succ, N.pow_succ_r' in Hnum.
        apply N.Div0.div_lt_upper_bound.
        assert (0 < 2 ^ N.of_nat fuel)%N by (apply N.neq_0_lt_0, N.pow_nonzero; discriminate).
        lia.
Qed.

(** Decoding reads back what [encode] wrote, and nothing of what follows. *)
Lemma decode_encode (num : N) (rest : bytes) :
  decode (encode num ++ rest) 0 = Some (num, length (encode num)).
Proof.
  unfold decode, encode. rewrite drop_0.
  rewrite decode_encode_loop.
  - f_equal. f_equal. rewrite N.pow_0_r. lia.
  - rewrite N2Nat.id. apply N.size_gt.
Qed.

Lemma encode_loop_nonempty (fuel : nat) (num : N) :
  (0 < length (encode_loop fuel num))%nat.
Proof.
  destruct fuel; simpl; [lia |]. destruct (num <? 128)%N; simpl; lia.
Qed.

Lemma encode_nonempty (num : N) : encode num <> [].
Proof.
  unfold encode. pose proof (encode_loop_nonempty (N.to_nat (N.size num)) num).
  destruct (encode_loop _ _); simpl in *; [lia | discriminate].
Qed.

(** [decode] consumes at least one byte and never more than the buffer holds. *)
Lemma decode_loop_bytes (buf : bytes) :
  forall r s c v k,
    decode_loop buf r s c = Some (v, k) -> (c < k <= c + length buf)%nat.
Proof.
  induction buf as [|b buf IH]; intros r s c v k H; simpl in H; [discriminate |].
  destruct (128 <=? Byte.to_N b)%N.
  - apply IH in H. simpl. lia.
  - injection H as <- <-. simpl. lia.
Qed.

Lemma decode_bytes (buf : bytes) (v : N) (k : nat) :
  decode buf 0 = Some (v, k) -> (0 < k <= length buf)%nat.
Proof.
  unfold decode. rewrite drop_0. intros H.
  apply decode_loop_bytes in H. lia.
Qed.

(** The result of [decode] depends on the bytes it reads only. *)
Lemma decode_loop_app (buf rest : bytes) :
  forall r s c v k,
    decode_loop buf r s c = Some (v, k) ->
    decode_loop (buf ++ rest) r s c = Some (v, k).
Proof.
  induction buf as [|b buf IH]; intros r s c v k H; simpl in *; [discriminate |].
  destruct (128 <=? Byte.to_N b)%N; auto.
Qed.

End varint_facts.

(** ** Strings *)

Module JsString_facts.
Import JsString.

Lemma split_nonempty (sep : ascii) (s : jsstring) : split sep s <> [].
Proof.
  destruct s as [|c s]; simpl; [discriminate |].
  destruct (Ascii.eqb c sep); [discriminate |].
  destruct (split sep s); discriminate.
Qed.

(** A string without separator is a single segment. *)
Lemma split_single (sep : ascii) (x : jsstring) :
  ~ In sep x -> split sep x = [x].
Proof.
  induction x as [|c x IH]; intros Hx; simpl; [reflexivity |].
  destruct (Ascii.eqb c sep) eqn:E.
  - apply Ascii.eqb_eq in E. subst c. exfalso. apply Hx. now left.
  - rewrite IH; [reflexivity |]. intros Hin. apply Hx. now right.
Qed.

(** Splitting stops a segment at the first separator. *)
Lemma split_app (sep : ascii) (x r : jsstring) :
  ~ In sep x -> split sep (x ++ sep :: r) = x :: split sep r.
Proof.
  induction x as [|c x IH]; intros Hx; simpl.
  - now rewrite Ascii.eqb_refl.
  - destruct (Ascii.eqb c sep) eqn:E.
    + apply Ascii.eqb_eq in E. subst c. exfalso. apply Hx. now left.
    + rewrite IH; [reflexivity |]. intros Hin. apply Hx. now right.
Qed.

Lemma join_cons (sep : ascii) (p : jsstring) (ps : list jsstring) :
  ps <> [] -> join sep (p :: ps) = p ++ sep :: join sep ps.
Proof. destruct ps; [congruence | reflexivity]. Qed.

(** Joining the segments of a string gives the string back. *)
Lemma join_split (sep : ascii) (s : jsstring) : join sep (split sep s) = s.
Proof.
  induction s as [|c s IH]; [reflexivity |].
  cbn [split]. destruct (Ascii.eqb c sep) eqn:E.
  - apply Ascii.eqb_eq in E. subst c.
    rewrite join_cons by apply split_nonempty. now rewrite IH.
  - pose proof (split_nonempty sep s) as Hne.
    destruct (split sep s) as [|seg segs]; [congruence |].
    destruct segs as [|seg' segs].
    + simpl in *. now rewrite IH.
    + change (join sep ((c :: seg) :: seg' :: segs))
        with (c :: join sep (seg :: seg' :: segs)).
      now rewrite IH.
Qed.

(** Segments hold no separator. *)
Lemma split_segments (sep : ascii) (s : jsstring) :
  Forall (fun seg => ~ In sep seg) (split sep s).
Proof.
  induction s as [|c s IH]; simpl.
  - constructor; [intros [] | constructor].
  - destruct (Ascii.eqb c sep) eqn:E.
    + constructor; [intros [] | exact IH].
    + destruct (split sep s) as [|seg segs]; inversion IH; subst.
      * constructor; [|constructor]. intros [->|[]].
        now rewrite Ascii.eqb_refl in E.
      * constructor; [|assumption]. intros [->|Hin]; [|tauto].
        now rewrite Ascii.eqb_refl in E.
Qed.

Lemma startsWith_prefix (t s : jsstring) :
  startsWith t s = true <-> t `prefix_of` s.
Proof.
  revert s. induction t as [|a t IH]; intros s; simpl.
  - split; [intros _; apply prefix_nil | reflexivity].
  - destruct s as [|b s].
    + split; [discriminate |]. intros [k Hk]. discriminate.
    + rewrite andb_true_iff, Ascii.eqb_eq, IH. split.
      * intros [-> Hp]. now apply prefix_cons.
      * intros [k Hk]. injection Hk as -> ->. split; [reflexivity |].
        now exists k.
Qed.

Lemma occursAt_substring (t s : jsstring) :
  substring t s <-> exists i, occursAt t s i.
Proof.
  split.
  - intros (pre & post & ->). exists (length pre). split.
    + rewrite length_app. lia.
    + rewrite drop_app_length. now exists post.
  - intros (i & Hi & post & Hp). exists (take i s), post.
    now rewrite <- Hp, take_drop.
Qed.

Lemma lastOccurrence_spec (t s : jsstring) :
  forall k,
    match lastOccurrence t s k with
    | Some i =>
        exists j, i = (k + j)%nat /\ occursAt t s j
                  /\ forall j', (j < j')%nat -> ~ occursAt t s j'
    | None => forall j, ~ occursAt t s j
    end.
Proof.
  induction s as [|c s IH]; intros k.
  - cbn [lastOccurrence].
    destruct (startsWith t []) eqn:E.
    + exists 0%nat. split; [lia |]. split.
      * split; [simpl; lia |]. now apply startsWith_prefix.
      * intros j' Hj' [Hle _]. simpl in Hle. lia.
    + intros j [Hle Hp]. rewrite drop_nil in Hp.
      apply startsWith_prefix in Hp. rewrite Hp in E. discriminate.
  - cbn [lastOccurrence]. specialize (IH (S k)).
    destruct (lastOccurrence t s (S k)) as [i|].
    + destruct IH as (j & -> & [Hle Hp] & Hlast).
      exists (S j). split; [lia |]. split.
      * split; [simpl; lia | exact Hp].
      * intros j' Hj' [Hle' Hp']. destruct j' as [|j']; [lia |].
        apply (Hlast j'); [lia |]. split; [simpl in Hle'; lia | exact Hp'].
    + destruct (startsWith t (c :: s)) eqn:E.
      * exists 0%nat. split; [lia |]. split.
        -- split; [lia |]. now apply startsWith_prefix.
        -- intros j' Hj' [Hle' Hp']. destruct j' as [|j']; [lia |].
           apply (IH j'). split; [simpl in Hle'; lia | exact Hp'].
      * intros [|j] [Hle Hp].
        -- apply startsWith_prefix in Hp. simpl in E, Hp. rewrite Hp in E. discriminate.
        -- apply (IH j). split; [simpl in Hle; lia | exact Hp].
Qed.

(** [lastIndexOf] answers [-1] exactly when there is no occurrence, and
    otherwise the index of an occurrence that no other one follows. *)
Lemma lastIndexOf_spec (s t : jsstring) :
  (lastIndexOf s t = (-1)%Z /\ ~ substring t s)
  \/ (exists i, lastIndexOf s t = Z.of_nat i /\ occursAt t s i
                /\ forall j, (i < j)%nat -> ~ occursAt t s j).
Proof.
  unfold lastIndexOf. pose proof (lastOccurrence_spec t s 0) as H.
  destruct (lastOccurrence t s 0) as [i|].
  - right. destruct H as (j & -> & Hocc & Hlast). exists j. auto.
  - left. split; [reflexivity |]. rewrite occursAt_substring.
    intros [i Hi]. now apply (H i).
Qed.

(** In [a ++ b] the last occurrence of [b] is the final one. *)
Lemma lastIndexOf_app (a b : jsstring) :
  lastIndexOf (a ++ b) b = Z.of_nat (length a).
Proof.
  destruct (lastIndexOf_spec (a ++ b) b) as [[_ Hno] | (i & -> & [Hle Hp] & Hlast)].
  - exfalso. apply Hno. exists a, []. now rewrite app_nil_r.
  - f_equal. destruct (Nat.lt_trichotomy i (length a)) as [Hlt | [-> | Hgt]].
    + exfalso. apply (Hlast (length a) Hlt). split.
      * rewrite length_app. lia.
      * now rewrite drop_app_length.
    + reflexivity.
    + exfalso. apply prefix_length in Hp.
      rewrite length_drop, length_app in Hp.
      rewrite length_app in Hle. lia.
Qed.

End JsString_facts.

(** ** The codec *)

Lemma slashFree_In (s : jsstring) : slashFree s = true <-> ~ In slash s.
Proof.
  unfold slashFree. rewrite forallb_forall. split.
  - intros H Hin. apply H in Hin. now rewrite Ascii.eqb_refl in Hin.
  - intros H c Hc. destruct (Ascii.eqb c slash) eqn:E; [|reflexivity].
    apply Ascii.eqb_eq in E. now subst c.
Qed.

Lemma bind_Ok {A B} (r : Result A) (k : A -> Result B) (b : B) :
  bind r k = Ok b -> exists a, r = Ok a /\ k a = Ok b.
Proof. destruct r as [a|e]; simpl; [eauto | discriminate]. Qed.

Lemma find_unique {A} (f : A -> N) (l : list A) (x : A) :
  NoDup (map f l) -> In x l -> find (fun y => (f y =? f x)%N) l = Some x.
Proof.
  induction l as [|y l IH]; intros Hnd Hin; [destruct Hin |].
  simpl in Hnd. apply NoDup_cons in Hnd as [Hy Hnd]. simpl.
  destruct Hin as [-> | Hin].
  - now rewrite N.eqb_refl.
  - destruct (f y =? f x)%N eqn:E; [|auto].
    apply N.eqb_eq in E. exfalso. apply Hy. rewrite E.
    apply list_elem_of_In, in_map, Hin.
Qed.

Lemma find_unique_name (l : list Protocol) (x : Protocol) :
  NoDup (map name l) -> In x l ->
  find (fun y => jsstring_eqb (name y) (name x)) l = Some x.
Proof.
  induction l as [|y l IH]; intros Hnd Hin; [destruct Hin |].
  simpl in Hnd. apply NoDup_cons in Hnd as [Hy Hnd]. simpl.
  unfold jsstring_eqb at 1.
  destruct Hin as [-> | Hin].
  - now rewrite bool_decide_eq_true_2.
  - case_bool_decide as E; [|auto].
    exfalso. apply Hy. rewrite E. apply list_elem_of_In, in_map, Hin.
Qed.

Module codec_facts.
Import codec varint_facts.

Section WithRegistry.
Variable table : list Protocol.

(** A step of the walk leaves fewer bytes than it found. *)
Lemma readTuple_shrinks (buf : bytes) p v rest :
  readTuple table buf = Ok (p, v, rest) -> (length rest < length buf)%nat.
Proof.
  unfold readTuple. intros H.
  apply bind_Ok in H as ([c n] & Hdec & H).
  apply bind_Ok in H as (q & _ & H).
  apply bind_Ok in H as (sz & _ & H).
  destruct (varint.decode buf 0) as [[c' n']|] eqn:E; [|discriminate].
  injection Hdec as -> ->.
  apply decode_bytes in E.
  destruct (sz <=? length (drop n buf))%nat; [|discriminate].
  injection H as _ _ <-. rewrite !length_drop. lia.
Qed.

(** More fuel than bytes changes nothing. *)
Lemma walk_fuel {A} (f : Protocol -> bytes -> Result A) (n : nat) :
  forall m buf, (length buf <= n)%nat -> (length buf <= m)%nat ->
                walk table f n buf = walk table f m buf.
Proof.
  induction n as [|n IH]; intros m buf Hn Hm.
  - destruct buf; [|simpl in Hn; lia]. now destruct m.
  - destruct buf as [|b buf]; [now destruct m |].
    destruct m as [|m]; [simpl in Hm; lia |].
    cbn [walk].
    destruct (readTuple table (b :: buf)) as [[[p v] rest]|e] eqn:E; [|reflexivity].
    apply readTuple_shrinks in E. simpl in *.
    destruct (f p v); [|reflexivity]. simpl.
    rewrite (IH m rest) by lia. reflexivity.
Qed.

Hypothesis Hwf : registry_wf table.

Lemma byCode_code (p : Protocol) :
  In p table -> byCode table (code p) = Ok p.
Proof.
  intros Hin. unfold byCode.
  now rewrite (find_unique code table p (wf_codes _ Hwf) Hin).
Qed.

Lemma byName_name (p : Protocol) :
  In p table -> byName table (name p) = Ok p.
Proof.
  intros Hin. unfold byName.
  now rewrite (find_unique_name table p (wf_names _ Hwf) Hin).
Qed.

(** Measuring and slicing a value that was just written. *)
Lemma sizeForAddr_encodeValue (p : Protocol) (v rest : bytes) :
  fits p v ->
  sizeForAddr p (encodeValue p v ++ rest) = Ok (length (encodeValue p v)).
Proof.
  unfold sizeForAddr, encodeValue, fits. intros Hfit.
  destruct (size p) as [bits | |].
  - now rewrite Hfit.
  - rewrite <- app_assoc, decode_encode, Nat2N.id, !length_app.
    replace (_ <=? _)%nat with true by (symmetry; apply Nat.leb_le; lia).
    reflexivity.
  - reflexivity.
Qed.

Lemma valueOf_encodeValue (p : Protocol) (v : bytes) :
  fits p v -> valueOf p (encodeValue p v) = v.
Proof.
  unfold valueOf, encodeValue, fits. intros Hfit.
  destruct (size p) as [bits | |]; [reflexivity | | now subst v].
  rewrite decode_encode. apply drop_app_length.
Qed.

(** Reading a component back from its bytes. *)
Lemma readTuple_encodeTuple (p : Protocol) (v rest : bytes) :
  In p table -> fits p v ->
  readTuple table (encodeTuple p v ++ rest) = Ok (p, v, rest).
Proof.
  intros Hin Hfit. unfold readTuple, encodeTuple.
  rewrite <- app_assoc, decode_encode. cbn [orThrow bind].
  rewrite (find_unique code table p (wf_codes _ Hwf) Hin). cbn [orThrow bind].
  rewrite drop_app_length, sizeForAddr_encodeValue by exact Hfit.
  cbn [bind]. rewrite length_app.
  replace (_ <=? _)%nat with true by (symmetry; apply Nat.leb_le; lia).
  rewrite take_app_length, drop_app_length.
  now rewrite valueOf_encodeValue.
Qed.

Lemma encodeTuple_nonempty (p : Protocol) (v : bytes) : encodeTuple p v <> [].
Proof.
  unfold encodeTuple. pose proof (encode_nonempty (code p)).
  destruct (varint.encode (code p)); [congruence | discriminate].
Qed.

(** The walk over a component followed by more bytes. *)
Lemma walk_encodeTuple {A} (f : Protocol -> bytes -> Result A)
    (p : Protocol) (v rest : bytes) :
  In p table -> fits p v ->
  walk table f (length (encodeTuple p v ++ rest)) (encodeTuple p v ++ rest)
  = (let* a := f p v in
     let* tl := walk table f (length rest) rest in
     Ok (a :: tl)).
Proof.
  intros Hin Hfit.
  pose proof (encodeTuple_nonempty p v) as Hne.
  pose proof (readTuple_encodeTuple p v rest Hin Hfit) as Hread.
  destruct (encodeTuple p v ++ rest) as [|b buf] eqn:E.
  { apply app_eq_nil in E as [? _]. congruence. }
  cbn [length walk]. rewrite Hread. cbn [bind fst snd].
  destruct (f p v); [|reflexivity]. cbn [bind].
  apply readTuple_shrinks in Hread. simpl in Hread.
  rewrite (walk_fuel f (length buf) (length rest) rest) by lia.
  reflexivity.
Qed.

(** The walk over the bytes of a sequence of components visits them in
    order. *)
Lemma walk_encodeAll {A} (f : Protocol -> bytes -> Result A)
    (cs : list (Protocol * bytes)) :
  Forall (component table) cs ->
  walk table f (length (encodeAll cs)) (encodeAll cs)
  = mapM (fun c => f (fst c) (snd c)) cs.
Proof.
  induction 1 as [|[p v] cs [Hin Hfit] _ IH]; [reflexivity |].
  unfold encodeAll in *. cbn [map concat fst snd mapM] in *.
  rewrite walk_encodeTuple by assumption. now rewrite IH.
Qed.

End WithRegistry.
End codec_facts.

(** ** Parsing canonical strings *)

Module parse_facts.
Import codec codec_facts JsString_facts.

Section WithRegistry.
Variable table : list Protocol.
Hypothesis Hwf : registry_wf table.

Lemma fromString_segments (s : jsstring) :
  headed s -> fromString table s = parseSegments table (segments s).
Proof.
  destruct s as [|c s]; [reflexivity |]. simpl. intros ->.
  now rewrite Ascii.eqb_refl.
Qed.

Lemma split_headed (x s : jsstring) :
  slashFree x = true -> headed s ->
  JsString.split slash (x ++ s) = x :: segments s.
Proof.
  intros Hx Hs. apply slashFree_In in Hx.
  destruct s as [|c s].
  - rewrite app_nil_r. now apply split_single.
  - simpl in Hs. subst c. now apply split_app.
Qed.

Lemma headed_app (s t : jsstring) : headed s -> headed t -> headed (s ++ t).
Proof. destruct s; simpl; auto. Qed.

Lemma canonical_headed paths (s : jsstring) : canonical paths table s -> headed s.
Proof. destruct 1; simpl; auto. Qed.

(** The parser on a component without value. *)
Lemma fromString_flag (p : Protocol) (s : jsstring) :
  In p table -> hasValue p = false -> headed s ->
  fromString table (slash :: name p ++ s)
  = (let* tl := fromString table s in Ok (encodeTuple p [] ++ tl)).
Proof.
  intros Hin Hv Hs.
  rewrite (fromString_segments s Hs).
  cbn [fromString]. rewrite Ascii.eqb_refl.
  rewrite split_headed by (trivial; exact (wf_name_segment _ Hwf p Hin)).
  cbn [parseSegments]. rewrite (byName_name table Hwf p Hin). cbn [bind].
  now rewrite Hv.
Qed.

(** The parser on a scalar component. *)
Lemma fromString_scalar (p : Protocol) (d s : jsstring) :
  In p table -> hasValue p = true -> path p = false ->
  slashFree d = true -> headed s ->
  fromString table (slash :: name p ++ slash :: d ++ s)
  = (let* v := orThrow InvalidValue (toBytes p d) in
     let* tl := fromString table s in
     Ok (encodeTuple p v ++ tl)).
Proof.
  intros Hin Hv Hp Hd Hs.
  rewrite (fromString_segments s Hs).
  cbn [fromString]. rewrite Ascii.eqb_refl.
  rewrite (split_headed (name p) (slash :: d ++ s))
    by (simpl; trivial; exact (wf_name_segment _ Hwf p Hin)).
  cbn [segments]. rewrite split_headed by assumption.
  cbn [parseSegments]. rewrite (byName_name table Hwf p Hin). cbn [bind].
  now rewrite Hv, Hp.
Qed.

(** The parser on a final path-like component. *)
Lemma fromString_path (p : Protocol) (d : jsstring) :
  In p table -> hasValue p = true -> path p = true ->
  fromString table (slash :: name p ++ slash :: d)
  = (let* v := orThrow InvalidValue (toBytes p d) in Ok (encodeTuple p v)).
Proof.
  intros Hin Hv Hp.
  cbn [fromString]. rewrite Ascii.eqb_refl.
  rewrite (split_headed (name p) (slash :: d))
    by (simpl; trivial; exact (wf_name_segment _ Hwf p Hin)).
  cbn [segments parseSegments].
  rewrite (byName_name table Hwf p Hin). cbn [bind].
  rewrite Hv, Hp.
  pose proof (split_nonempty slash d) as Hne.
  pose proof (join_split slash d) as Hjoin.
  destruct (JsString.split slash d) as [|seg segs]; [congruence |].
  now rewrite Hjoin.
Qed.

(** A canonical string is the text of a sequence of components, and
    parses to their bytes. *)
Lemma canonical_components paths (s : jsstring) :
  canonical paths table s ->
  exists cs parts,
    Forall (component table) cs
    /\ fromString table s = Ok (encodeAll cs)
    /\ mapM (fun c => renderTuple (fst c) (snd c)) cs = Ok parts
    /\ concat parts = s.
Proof.
  induction 1 as [| p s Hin Hv Hs IH | p d s Hin Hv Hp Hd [v [Hb Hdisp]] Hs IH
                 | p d Hpaths Hin Hv Hp [v [Hb Hdisp]]].
  - exists [], []. repeat split; constructor.
  - destruct IH as (cs & parts & Hcs & Hparse & Hrender & Hconcat).
    exists ((p, []) :: cs), ((slash :: name p) :: parts). repeat split.
    + constructor; [|exact Hcs]. split; [exact Hin |].
      unfold fits, hasValue in *. simpl. now destruct (size p).
    + rewrite fromString_flag by eauto using canonical_headed.
      now rewrite Hparse.
    + cbn [mapM fst snd]. unfold renderTuple at 1. rewrite Hv. cbn [bind].
      now rewrite Hrender.
    + cbn [concat]. now rewrite Hconcat.
  - destruct IH as (cs & parts & Hcs & Hparse & Hrender & Hconcat).
    exists ((p, v) :: cs), ((slash :: name p ++ slash :: d) :: parts).
    repeat split.
    + constructor; [|exact Hcs]. split; [exact Hin |].
      now apply (wf_fixed _ Hwf p d v).
    + rewrite fromString_scalar by eauto using canonical_headed.
      now rewrite Hb, Hparse.
    + cbn [mapM fst snd]. unfold renderTuple at 1. rewrite Hv, Hdisp. cbn [bind orThrow].
      now rewrite Hrender.
    + cbn [concat]. rewrite Hconcat. cbn [app]. now rewrite <- app_assoc.
  - exists [(p, v)], [slash :: name p ++ slash :: d]. repeat split.
    + constructor; [|constructor]. split; [exact Hin |].
      now apply (wf_fixed _ Hwf p d v).
    + rewrite fromString_path by assumption. rewrite Hb.
      unfold encodeAll. cbn. now rewrite app_nil_r.
    + cbn [mapM fst snd]. unfold renderTuple. now rewrite Hv, Hdisp.
    + cbn [concat]. now rewrite app_nil_r.
Qed.

(** Parsing distributes over the concatenation of a canonical string
    without path-like component and any other string that parses. *)
Lemma fromString_app (sA sB : jsstring) (bA bB : bytes) :
  canonical false table sA -> headed sB ->
  fromString table sA = Ok bA -> fromString table sB = Ok bB ->
  fromString table (sA ++ sB) = Ok (bA ++ bB).
Proof.
  intros HA HB. revert bA.
  induction HA as [| p s Hin Hv Hs IH | p d s Hin Hv Hp Hd _ Hs IH
                  | p d Hpaths Hin Hv Hp _]; intros bA HpA HpB.
  - injection HpA as <-. exact HpB.
  - rewrite fromString_flag in HpA by eauto using canonical_headed.
    apply bind_Ok in HpA as (tl & Htl & HpA). injection HpA as <-.
    cbn [app]. rewrite <- app_assoc.
    rewrite fromString_flag by eauto using canonical_headed, headed_app.
    rewrite (IH tl Htl HpB). cbn [bind]. now rewrite app_assoc.
  - rewrite fromString_scalar in HpA by eauto using canonical_headed.
    apply bind_Ok in HpA as (v & Hv' & HpA).
    apply bind_Ok in HpA as (tl & Htl & HpA). injection HpA as <-.
    cbn [app]. rewrite <- !app_assoc. cbn [app]. rewrite <- app_assoc.
    rewrite fromString_scalar by eauto using canonical_headed, headed_app.
    rewrite Hv'. cbn [bind].
    rewrite (IH tl Htl HpB). cbn [bind]. now rewrite app_assoc.
  - discriminate.
Qed.

End WithRegistry.
End parse_facts.

(** ** The sample registry is well formed *)

Module registry_facts.
Import registry transforms.

Lemma sequence_length {A} (l : list (option A)) (r : list A) :
  sequence l = Some r -> length r = length l.
Proof.
  revert r. induction l as [|o l IH]; intros r H; simpl in H.
  - now injection H as <-.
  - destruct o as [a|]; [|discriminate].
    destruct (sequence l) as [l'|]; [|discriminate].
    injection H as <-. simpl. f_equal. now apply IH.
Qed.

Lemma ip4ToBytes_length (d : jsstring) (v : bytes) :
  ip4ToBytes d = Some v -> length v = 4%nat.
Proof.
  unfold ip4ToBytes.
  destruct (JsString.split "." d) as [|a [|b [|c [|e [|? ?]]]]]; try discriminate.
  intros H. now apply sequence_length in H.
Qed.

Lemma portToBytes_length (d : jsstring) (v : bytes) :
  portToBytes d = Some v -> length v = 2%nat.
Proof.
  unfold portToBytes. destruct (parseDecimal d); [|discriminate].
  destruct (_ <=? _)%N; [|discriminate]. now intros [= <-].
Qed.

Lemma groups_length (gs : list jsstring) (l : list bytes) :
  sequence (map group gs) = Some l -> length (concat l) = (2 * length gs)%nat.
Proof.
  revert l. induction gs as [|g gs IH]; intros l H; simpl in H.
  - now injection H as <-.
  - unfold group at 1 in H. destruct (parseHex g); [|discriminate].
    destruct (sequence (map group gs)) as [l'|]; [|discriminate].
    injection H as <-. cbn [concat]. rewrite length_app, (IH l' eq_refl).
    simpl. lia.
Qed.

Lemma ip6ToBytes_length (d : jsstring) (v : bytes) :
  ip6ToBytes d = Some v -> length v = 16%nat.
Proof.
  unfold ip6ToBytes.
  destruct (length (JsString.split ":" d) =? 8)%nat eqn:E; [|discriminate].
  apply Nat.eqb_eq in E.
  destruct (sequence (map group (JsString.split ":" d))) as [l|] eqn:Hs;
    [|discriminate].
  intros [= <-]. rewrite (groups_length _ _ Hs), E. reflexivity.
Qed.

Lemma table_wf : registry_wf table.
Proof.
  split.
  - vm_compute. repeat (constructor; [rewrite list_elem_of_In; simpl; intuition discriminate |]).
    constructor.
  - vm_compute. repeat (constructor; [rewrite list_elem_of_In; simpl; intuition discriminate |]).
    constructor.
  - intros p Hin. simpl in Hin.
    repeat (destruct Hin as [<- | Hin]; [reflexivity |]). destruct Hin.
  - intros p d v Hin Hb _. simpl in Hin. unfold fits.
    repeat (destruct Hin as [<- | Hin]; [cbn [size toBytes ip4 tcp udp ip6 dns4 unix http] in *|]);
      try destruct Hin; trivial.
    + now apply ip4ToBytes_length in Hb.
    + now apply portToBytes_length in Hb.
    + now apply portToBytes_length in Hb.
    + now apply ip6ToBytes_length in Hb.
    + discriminate.
Qed.

(** In the sample registry every value of the right length has a text. *)
Lemma renderTuple_total (p : Protocol) (v : bytes) :
  component table (p, v) -> exists x, codec.renderTuple p v = Ok x.
Proof.
  intros [Hin Hfit]. cbn [fst snd] in *. unfold codec.renderTuple, fits in *.
  simpl in Hin.
  repeat (destruct Hin as [<- | Hin];
          [cbn [hasValue size toDisplay name ip4 tcp udp ip6 dns4 unix http] in * |]);
    try destruct Hin; try (now eexists).
  - destruct v as [|a [|b [|c [|d [|? ?]]]]]; try discriminate. now eexists.
  - destruct v as [|a [|b [|? ?]]]; try discriminate. now eexists.
  - destruct v as [|a [|b [|? ?]]]; try discriminate. now eexists.
  - unfold ip6ToDisplay. rewrite Hfit. now eexists.
Qed.

Lemma mapM_total_list {A B} (f : A -> Result B) (l : list A) :
  Forall (fun a => exists b, f a = Ok b) l -> exists bs, mapM f l = Ok bs.
Proof.
  induction 1 as [|a l [b Hb] _ [bs IH]]; [now eexists |].
  cbn [mapM]. rewrite Hb, IH. now eexists.
Qed.

End registry_facts.

(** ** What the parser and the walk produce *)

Module address_facts.
Import codec codec_facts.

(** Induction over a list of segments, two at a time. *)
Lemma segments_ind (P : list jsstring -> Prop) :
  P [] ->
  (forall nm rest, P rest -> P (tail rest) -> P (nm :: rest)) ->
  forall segs, P segs.
Proof.
  intros Hnil Hcons segs.
  enough (P segs /\ P (tail segs)) by tauto.
  induction segs as [|nm rest [IH1 IH2]]; simpl; auto.
Qed.

Lemma mapM_total {A B} (g : A -> B) (l : list A) :
  mapM (fun a => Ok (g a)) l = Ok (map g l).
Proof. induction l as [|a l IH]; simpl; [reflexivity | now rewrite IH]. Qed.

Section WithRegistry.
Variable table : list Protocol.

Lemma byName_In (nm : jsstring) (p : Protocol) :
  byName table nm = Ok p -> In p table.
Proof.
  unfold byName. destruct (find _ table) as [q|] eqn:E; [|discriminate].
  intros [= <-]. now apply find_some in E.
Qed.

(** The parser never reports [NotContained]: its failures are unknown
    names, missing segments and bad values. *)
Lemma parseSegments_error (segs : list jsstring) (e : Error) :
  parseSegments table segs = Err e ->
  e = UnknownProtocol \/ e = InvalidFormat \/ e = InvalidValue.
Proof.
  revert e. induction segs as [|nm rest IH1 IH2] using segments_ind;
    intros e H; [discriminate |].
  cbn [parseSegments] in H. unfold byName in H.
  destruct (find _ table) as [p|]; cbn [orThrow bind] in H;
    [|injection H as <-; auto].
  destruct (hasValue p).
  - destruct (path p).
    + destruct rest as [|d rest']; [injection H as <-; auto |].
      destruct (toBytes p _); cbn [orThrow bind] in H;
        [discriminate | injection H as <-; auto].
    + destruct rest as [|d rest']; [injection H as <-; auto |].
      destruct (toBytes p d); cbn [orThrow bind] in H;
        [|injection H as <-; auto].
      simpl in IH2.
      destruct (parseSegments table rest'); [discriminate |].
      injection H as <-. now apply IH2.
  - destruct (parseSegments table rest); [discriminate |].
    injection H as <-. now apply IH1.
Qed.

Lemma fromString_error (s : jsstring) (e : Error) :
  fromString table s = Err e ->
  e = UnknownProtocol \/ e = InvalidFormat \/ e = InvalidValue.
Proof.
  destruct s as [|c s]; [discriminate |]. cbn [fromString].
  destruct (Ascii.eqb c slash); [apply parseSegments_error |].
  intros [= <-]. auto.
Qed.

Lemma readTuple_resolved (buf : bytes) p v rest :
  readTuple table buf = Ok (p, v, rest) ->
  resolved table p
  /\ exists n sz,
       varint.decode buf 0 = Some (code p, n)
       /\ sizeForAddr p (drop n buf) = Ok sz
       /\ rest = drop (n + sz) buf.
Proof.
  unfold readTuple, resolved. intros H.
  destruct (varint.decode buf 0) as [[c n]|]; [|discriminate].
  cbn [orThrow bind] in H.
  destruct (find _ table) as [q|] eqn:Hfind; [|discriminate].
  cbn [orThrow bind] in H.
  destruct (sizeForAddr q (drop n buf)) as [sz|] eqn:Hsz; [|discriminate].
  cbn [bind] in H.
  destruct (sz <=? _)%nat; [|discriminate].
  injection H as -> <- <-.
  pose proof (find_some _ _ Hfind) as [_ Hc]. apply N.eqb_eq in Hc. subst c.
  split; [exact Hfind |]. exists n, sz. rewrite drop_drop. auto.
Qed.

(** The value that a step slices has the length its descriptor asks for. *)
Lemma readTuple_fits (buf : bytes) p v rest :
  readTuple table buf = Ok (p, v, rest) -> In p table /\ fits p v.
Proof.
  unfold readTuple. intros H.
  destruct (varint.decode buf 0) as [[c n]|]; [|discriminate].
  cbn [orThrow bind] in H.
  destruct (find _ table) as [q|] eqn:Hfind; [|discriminate].
  cbn [orThrow bind] in H.
  destruct (sizeForAddr q (drop n buf)) as [sz|] eqn:Hsz; [|discriminate].
  cbn [bind] in H.
  destruct (sz <=? _)%nat eqn:Hle; [|discriminate].
  injection H as -> <- _. apply Nat.leb_le in Hle.
  split; [now apply find_some in Hfind |].
  unfold fits, valueOf, sizeForAddr in *.
  destruct (size p) as [bits | |]; [| exact I |].
  - injection Hsz as <-. rewrite length_take. lia.
  - injection Hsz as <-. apply take_0.
Qed.

Lemma components_fit (n : nat) :
  forall buf cs,
    walk table (fun p v => Ok (p, v)) n buf = Ok cs ->
    Forall (component table) cs.
Proof.
  induction n as [|n IH]; intros buf cs H.
  - destruct buf; [|discriminate]. injection H as <-. constructor.
  - destruct buf as [|b buf]; [injection H as <-; constructor |].
    cbn [walk] in H.
    destruct (readTuple table (b :: buf)) as [[[p v] rest]|] eqn:Hr; [|discriminate].
    cbn [bind fst snd] in H.
    destruct (walk table _ n rest) as [tl|] eqn:E; [|discriminate].
    injection H as <-. constructor; [|now apply (IH rest)].
    now apply readTuple_fits in Hr.
Qed.

(** Every walk is the walk for the components followed by a map. *)
Lemma walk_components {A} (f : Protocol -> bytes -> Result A) (n : nat) :
  forall buf cs,
    walk table (fun p v => Ok (p, v)) n buf = Ok cs ->
    walk table f n buf = mapM (fun c => f (fst c) (snd c)) cs.
Proof.
  induction n as [|n IH]; intros buf cs H.
  - destruct buf; [|discriminate]. now injection H as <-.
  - destruct buf as [|b buf]; [now injection H as <- |].
    cbn [walk] in *.
    destruct (readTuple table (b :: buf)) as [[[p v] rest]|]; [|discriminate].
    cbn [bind fst snd] in *.
    destruct (walk table (fun p v => Ok (p, v)) n rest) as [tl|] eqn:E;
      [|discriminate].
    injection H as <-. cbn [mapM fst snd].
    now rewrite (IH rest tl E).
Qed.

(** Conversely, a walk that succeeds has components. *)
Lemma walk_has_components {A} (f : Protocol -> bytes -> Result A) (n : nat) :
  forall buf l,
    walk table f n buf = Ok l ->
    exists cs, walk table (fun p v => Ok (p, v)) n buf = Ok cs.
Proof.
  induction n as [|n IH]; intros buf l H.
  - destruct buf; [|discriminate]. now exists [].
  - destruct buf as [|b buf]; [now exists [] |].
    cbn [walk] in *.
    destruct (readTuple table (b :: buf)) as [[[p v] rest]|]; [|discriminate].
    cbn [bind fst snd] in *.
    destruct (f p v); [|discriminate]. cbn [bind] in H.
    destruct (walk table f n rest) as [tl|] eqn:E; [|discriminate].
    destruct (IH rest tl E) as [cs ->]. now eexists.
Qed.

Lemma valid_components (a : Multiaddr) :
  valid table a -> exists cs, components table (buffer a) = Ok cs.
Proof.
  unfold valid, fromBuffer, components. intros H.
  destruct (walk table (fun _ _ => Ok tt) _ _) as [l|] eqn:E; [|discriminate].
  now apply walk_has_components in E.
Qed.

Lemma components_resolved (n : nat) :
  forall buf cs,
    walk table (fun p v => Ok (p, v)) n buf = Ok cs ->
    Forall (fun c => resolved table (fst c)) cs.
Proof.
  induction n as [|n IH]; intros buf cs H.
  - destruct buf; [|discriminate]. injection H as <-. constructor.
  - destruct buf as [|b buf]; [injection H as <-; constructor |].
    cbn [walk] in H.
    destruct (readTuple table (b :: buf)) as [[[p v] rest]|] eqn:Hr; [|discriminate].
    cbn [bind fst snd] in H.
    destruct (walk table _ n rest) as [tl|] eqn:E; [|discriminate].
    injection H as <-. constructor; [|now apply (IH rest)].
    now apply readTuple_resolved in Hr as [Hres _].
Qed.

(** The loop of [protoCodes] ends by itself: more fuel than bytes left
    changes nothing. *)
Lemma protoCodes_loop_fuel (protocols : N -> Result Protocol) (n : nat) :
  forall m buf i,
    (length buf - i <= n)%nat -> (length buf - i <= m)%nat ->
    multiaddr.protoCodes_loop protocols n buf i
    = multiaddr.protoCodes_loop protocols m buf i.
Proof.
  induction n as [|n IH]; intros m buf i Hn Hm.
  - destruct m; cbn [multiaddr.protoCodes_loop];
      destruct (i <? length buf)%nat eqn:E; try reflexivity.
    apply Nat.ltb_lt in E. lia.
  - destruct m as [|m]; cbn [multiaddr.protoCodes_loop];
      destruct (i <? length buf)%nat eqn:E; try reflexivity.
    + apply Nat.ltb_lt in E. lia.
    + destruct (varint.decode buf i) as [[c k]|] eqn:Hdec; [|reflexivity].
      cbn [orThrow bind].
      destruct (protocols c) as [p|]; [|reflexivity]. cbn [bind].
      destruct (sizeForAddr p _) as [sz|]; [|reflexivity]. cbn [bind].
      unfold varint.decode in Hdec.
      apply varint_facts.decode_loop_bytes in Hdec.
      rewrite (IH m buf (i + (sz + k))%nat) by lia. reflexivity.
Qed.

(** The loop of [protoCodes] visits the same components as the walk. *)
Lemma protoCodes_loop_components (n : nat) :
  forall buf0 i cs,
    walk table (fun p v => Ok (p, v)) n (drop i buf0) = Ok cs ->
    multiaddr.protoCodes_loop (byCode table) n buf0 i
    = Ok (map (fun c => code (fst c)) cs).
Proof.
  induction n as [|n IH]; intros buf0 i cs H.
  - destruct (drop i buf0) eqn:E; [|discriminate]. injection H as <-.
    cbn [multiaddr.protoCodes_loop]. now destruct (i <? length buf0)%nat.
  - cbn [multiaddr.protoCodes_loop].
    destruct (drop i buf0) as [|b buf] eqn:E.
    + injection H as <-.
      apply (f_equal length) in E. rewrite length_drop in E. simpl in E.
      replace (i <? length buf0)%nat with false
        by (symmetry; apply Nat.ltb_ge; lia).
      reflexivity.
    + assert (i < length buf0)%nat as Hi.
      { apply (f_equal length) in E. rewrite length_drop in E. simpl in E. lia. }
      replace (i <? length buf0)%nat with true by (symmetry; now apply Nat.ltb_lt).
      cbn [walk] in H.
      destruct (readTuple table (b :: buf)) as [[[p v] rest]|] eqn:Hr; [|discriminate].
      cbn [bind fst snd] in H.
      destruct (walk table _ n rest) as [tl|] eqn:Hw; [|discriminate].
      injection H as <-.
      apply readTuple_resolved in Hr as (Hres & k & sz & Hdec & Hsz & ->).
      rewrite <- E in Hdec, Hsz, Hw.
      assert (varint.decode buf0 i = Some (code p, k)) as ->.
      { unfold varint.decode in *. now rewrite drop_0 in Hdec. }
      cbn [orThrow bind].
      assert (byCode table (code p) = Ok p) as ->
        by (unfold byCode; now rewrite Hres).
      cbn [bind].
      rewrite drop_drop in Hsz, Hw. rewrite Hsz. cbn [bind].
      replace (i + (sz + k))%nat with (i + (k + sz))%nat by lia.
      rewrite (IH buf0 (i + (k + sz))%nat tl Hw). reflexivity.
Qed.

Lemma mapM_byCode (ps : list Protocol) :
  Forall (resolved table) ps ->
  mapM (byCode table) (map code ps) = Ok ps.
Proof.
  induction 1 as [|p ps Hp _ IH]; [reflexivity |].
  cbn [map mapM]. unfold byCode at 1. rewrite Hp. cbn [orThrow bind].
  now rewrite IH.
Qed.

(** The views of [index.js] on an address with components [cs]. *)
Lemma views_of_components (a : Multiaddr) (cs : list (Protocol * bytes)) :
  components table (buffer a) = Ok cs ->
  multiaddr.protoCodes table a = Ok (map (fun c => code (fst c)) cs)
  /\ multiaddr.protos table a = Ok (map fst cs)
  /\ multiaddr.tuples table a = Ok (map (fun c => (code (fst c), snd c)) cs)
  /\ multiaddr.toString table a
     = (let* parts := mapM (fun c => renderTuple (fst c) (snd c)) cs in
        Ok (concat parts)).
Proof.
  intros Hcs. unfold components in Hcs.
  assert (multiaddr.protoCodes table a = Ok (map (fun c => code (fst c)) cs)) as Hcodes.
  { unfold multiaddr.protoCodes, multiaddr.protoCodes_with.
    apply protoCodes_loop_components. now rewrite drop_0. }
  split; [exact Hcodes |]. split; [|split].
  - unfold multiaddr.protos. rewrite Hcodes. cbn [bind].
    rewrite <- (map_map fst code). apply mapM_byCode.
    apply components_resolved in Hcs. now apply List.Forall_map.
  - unfold multiaddr.tuples, bufferToTuples.
    rewrite (walk_components _ _ _ _ Hcs). apply mapM_total.
  - unfold multiaddr.toString, bufferToString.
    now rewrite (walk_components _ _ _ _ Hcs).
Qed.

Hypothesis Hwf : registry_wf table.

(** Whatever the parser accepts, it turns into the bytes of a sequence
    of well-sized components. *)
Lemma parseSegments_components (segs : list jsstring) (b : bytes) :
  parseSegments table segs = Ok b ->
  exists cs, Forall (component table) cs /\ b = encodeAll cs.
Proof.
  revert b. induction segs as [|nm rest IH1 IH2] using segments_ind; intros b H.
  - injection H as <-. now exists [].
  - cbn [parseSegments] in H.
    apply bind_Ok in H as (p & Hp & H). apply byName_In in Hp.
    destruct (hasValue p) eqn:Hv.
    + destruct (path p).
      * destruct rest as [|d rest']; [discriminate |].
        apply bind_Ok in H as (v & Hb & H). injection H as <-.
        destruct (toBytes p _) as [v'|] eqn:Hb'; [|discriminate].
        injection Hb as ->.
        exists [(p, v)]. split.
        -- constructor; [|constructor]. split; [exact Hp |].
           now apply (wf_fixed _ Hwf p _ v Hp Hb').
        -- unfold encodeAll. cbn. now rewrite app_nil_r.
      * destruct rest as [|d rest']; [discriminate |].
        apply bind_Ok in H as (v & Hb & H).
        apply bind_Ok in H as (tl & Htl & H). injection H as <-.
        destruct (toBytes p d) as [v'|] eqn:Hb'; [|discriminate].
        injection Hb as ->.
        destruct (IH2 tl Htl) as (cs & Hcs & ->).
        exists ((p, v) :: cs). split; [|reflexivity].
        constructor; [|exact Hcs]. split; [exact Hp |].
        now apply (wf_fixed _ Hwf p d v Hp Hb').
    + apply bind_Ok in H as (tl & Htl & H). injection H as <-.
      destruct (IH1 tl Htl) as (cs & Hcs & ->).
      exists ((p, []) :: cs). split; [|reflexivity].
      constructor; [|exact Hcs]. split; [exact Hp |].
      unfold fits, hasValue in *. simpl. now destruct (size p).
Qed.

Lemma fromString_components (s : jsstring) (b : bytes) :
  fromString table s = Ok b ->
  exists cs, Forall (component table) cs /\ b = encodeAll cs.
Proof.
  destruct s as [|c s]; cbn [fromString].
  - intros [= <-]. now exists [].
  - destruct (Ascii.eqb c slash); [apply parseSegments_components | discriminate].
Qed.

(** The bytes of well-sized components pass [fromBuffer]. *)
Lemma fromBuffer_encodeAll (cs : list (Protocol * bytes)) :
  Forall (component table) cs ->
  fromBuffer table (encodeAll cs) = Ok (encodeAll cs).
Proof.
  intros Hcs. unfold fromBuffer.
  rewrite (walk_encodeAll table Hwf) by exact Hcs.
  now rewrite (mapM_total (fun _ => tt)).
Qed.

(** The string path only builds valid addresses. *)
Lemma fromString_valid (s : jsstring) (b : bytes) :
  fromString table s = Ok b -> fromBuffer table b = Ok b.
Proof.
  intros H. apply fromString_components in H as (cs & Hcs & ->).
  now apply fromBuffer_encodeAll.
Qed.

Lemma fromBuffer_valid (b buf : bytes) :
  fromBuffer table b = Ok buf -> fromBuffer table buf = Ok buf.
Proof.
  unfold fromBuffer. intros H.
  destruct (walk table (fun _ _ => Ok tt) (length b) b) eqn:E; [|discriminate].
  injection H as <-. now rewrite E.
Qed.

(** Every address that the constructor builds is valid. *)
Lemma new_valid (v : JsValue) (a : Multiaddr) :
  multiaddr.new table v = Ok a -> valid table a.
Proof.
  unfold multiaddr.new, valid. intros H.
  destruct (if falsy v then JString [] else v) as [| | | | | s | b | m |];
    try discriminate;
    apply bind_Ok in H as (buf & Hbuf & [= <-]); cbn [buffer].
  - now apply (fromString_valid s).
  - now apply (fromBuffer_valid b).
  - now apply (fromBuffer_valid (buffer m)).
Qed.

End WithRegistry.
End address_facts.

(** ** Rendering in the sample registry *)

Module sample_facts.

(** Every valid address of the sample registry has a canonical string. *)
Lemma toString_total (a : Multiaddr) :
  valid registry.table a -> exists s, multiaddr.toString registry.table a = Ok s.
Proof.
  intros Hvalid.
  destruct (address_facts.valid_components _ a Hvalid) as [cs Hcs].
  destruct (address_facts.views_of_components _ a cs Hcs) as (_ & _ & _ & ->).
  apply address_facts.components_fit in Hcs.
  destruct (registry_facts.mapM_total_list
              (fun c => codec.renderTuple (fst c) (snd c)) cs) as [parts ->].
  - eapply Forall_impl; [exact Hcs |]. intros [p v] Hc.
    now apply registry_facts.renderTuple_total.
  - now eexists.
Qed.

End sample_facts.

(** ** Composition of canonical addresses *)

Module composition_facts.
Import codec codec_facts parse_facts address_facts.

Section WithRegistry.
Variable table : list Protocol.
Hypothesis Hwf : registry_wf table.

Lemma canonical_weaken (s : jsstring) :
  canonical false table s -> canonical true table s.
Proof.
  induction 1; try discriminate.
  - constructor.
  - now apply canonical_flag.
  - now apply canonical_scalar.
Qed.

(** Canonical strings are closed under concatenation after a string
    without path-like component. *)
Lemma canonical_app (sA sB : jsstring) :
  canonical false table sA -> canonical true table sB ->
  canonical true table (sA ++ sB).
Proof.
  induction 1 as [| p s Hin Hv Hs IH | p d s Hin Hv Hp Hd Hc Hs IH
                 | p d Hpaths Hin Hv Hp Hc]; intros HB.
  - exact HB.
  - cbn [app]. rewrite <- app_assoc. apply canonical_flag; auto.
  - cbn [app]. rewrite <- !app_assoc. cbn [app]. rewrite <- app_assoc.
    apply canonical_scalar; auto.
  - discriminate.
Qed.

Lemma encodeAll_app (cs1 cs2 : list (Protocol * bytes)) :
  encodeAll (cs1 ++ cs2) = encodeAll cs1 ++ encodeAll cs2.
Proof. unfold encodeAll. now rewrite map_app, concat_app. Qed.

(** The components of the bytes of well-sized components. *)
Lemma bufferToTuples_encodeAll (cs : list (Protocol * bytes)) :
  Forall (component table) cs ->
  bufferToTuples table (encodeAll cs)
  = Ok (map (fun c => (code (fst c), snd c)) cs).
Proof.
  intros Hcs. unfold bufferToTuples.
  rewrite (walk_encodeAll table Hwf) by exact Hcs. apply mapM_total.
Qed.

(** Tuples are written back to the bytes they were read from. *)
Lemma tuplesToBuffer_encodeAll (cs : list (Protocol * bytes)) :
  Forall (component table) cs ->
  (let* ts := bufferToTuples table (encodeAll cs) in tuplesToBuffer table ts)
  = Ok (encodeAll cs).
Proof.
  intros Hcs. rewrite bufferToTuples_encodeAll by exact Hcs. cbn [bind].
  induction Hcs as [|[p v] cs [Hin Hfit] _ IH]; [reflexivity |].
  cbn [map tuplesToBuffer fst snd].
  rewrite (find_unique code table p (wf_codes _ Hwf) Hin). cbn [orThrow bind].
  now rewrite IH.
Qed.

(** A canonical string and the bytes it parses to render and validate
    each other. *)
Lemma canonical_address (s : jsstring) (b : bytes) :
  canonical true table s -> fromString table s = Ok b ->
  bufferToString table b = Ok s
  /\ fromBuffer table b = Ok b
  /\ exists cs, Forall (component table) cs /\ b = encodeAll cs.
Proof.
  intros Hs Hb.
  destruct (canonical_components table Hwf true s Hs)
    as (cs & parts & Hcs & Hparse & Hrender & Hconcat).
  rewrite Hparse in Hb. injection Hb as <-. split; [|split].
  - unfold bufferToString.
    rewrite (walk_encodeAll table Hwf) by exact Hcs.
    rewrite Hrender. cbn [bind]. now rewrite Hconcat.
  - now apply fromBuffer_encodeAll.
  - now exists cs.
Qed.

Lemma new_string (s : jsstring) :
  multiaddr.new table (JString s)
  = (let* buf := fromString table s in Ok {| buffer := buf |}).
Proof. unfold multiaddr.new. now destruct s. Qed.

Lemma new_string_buffer (s : jsstring) (a : Multiaddr) :
  multiaddr.new table (JString s) = Ok a -> fromString table s = Ok (buffer a).
Proof.
  rewrite new_string. intros H. apply bind_Ok in H as (buf & Hbuf & [= <-]).
  exact Hbuf.
Qed.

(** Encapsulation of two addresses of canonical strings, the outer one
    without path-like component. *)
Lemma encapsulate_canonical (outer inner : Multiaddr) (sO sI : jsstring) :
  canonical false table sO -> fromString table sO = Ok (buffer outer) ->
  canonical true table sI -> fromString table sI = Ok (buffer inner) ->
  multiaddr.toString table outer = Ok sO
  /\ multiaddr.toString table inner = Ok sI
  /\ multiaddr.encapsulate table outer inner
     = Ok {| buffer := buffer outer ++ buffer inner |}
  /\ multiaddr.toString table {| buffer := buffer outer ++ buffer inner |}
     = Ok (sO ++ sI)
  /\ exists csO csI,
       multiaddr.tuples table outer = Ok csO
       /\ multiaddr.tuples table inner = Ok csI
       /\ multiaddr.tuples table {| buffer := buffer outer ++ buffer inner |}
          = Ok (csO ++ csI).
Proof.
  intros HsO HbO HsI HbI.
  destruct (canonical_address sO _ (canonical_weaken _ HsO) HbO)
    as (HstrO & HvalO & csO & HcsO & HencO).
  destruct (canonical_address sI _ HsI HbI) as (HstrI & HvalI & csI & HcsI & HencI).
  pose proof (fromString_app table Hwf sO sI _ _ HsO
                (canonical_headed table true sI HsI) HbO HbI) as Happ.
  destruct (canonical_address (sO ++ sI) _ (canonical_app _ _ HsO HsI) Happ)
    as (Hstr & _ & _).
  unfold multiaddr.toString, multiaddr.tuples. cbn [buffer].
  split; [exact HstrO |]. split; [exact HstrI |]. split; [|split; [exact Hstr |]].
  - unfold multiaddr.encapsulate, multiaddr.new at 1. cbn [falsy].
    rewrite HvalI. cbn [bind]. unfold multiaddr.toString. cbn [buffer].
    rewrite HstrO, HstrI. cbn [bind]. rewrite new_string. now rewrite Happ.
  - exists (map (fun c => (code (fst c), snd c)) csO),
           (map (fun c => (code (fst c), snd c)) csI).
    rewrite HencO, HencI, <- encodeAll_app, <- map_app.
    rewrite !bufferToTuples_encodeAll; auto using Forall_app_2.
Qed.

End WithRegistry.
End composition_facts.

(** ** Thin-waist addresses *)

Module thin_waist_facts.
Import JsString_facts address_facts.

Lemma isThinWaistAddress_protos (table : list Protocol) (a : Multiaddr) ps :
  multiaddr.protos table a = Ok ps ->
  multiaddr.isThinWaistAddress table a None = Ok (thinShape ps).
Proof.
  intros H. unfold multiaddr.isThinWaistAddress. cbn [default].
  rewrite H. cbn [bind].
  destruct ps as [|p1 [|p2 [|p3 ps]]]; try reflexivity.
  cbn [length Nat.eqb negb lookup list_lookup fmap option_fmap option_map thinShape].
  destruct (code p1 =? 4)%N eqn:E4; destruct (code p1 =? 41)%N eqn:E41;
    destruct (code p2 =? 6)%N eqn:E6; destruct (code p2 =? 17)%N eqn:E17;
    repeat match goal with
           | H : (_ =? _)%N = true |- _ => apply N.eqb_eq in H; rewrite H
           | H : (_ =? _)%N = false |- _ => apply N.eqb_neq in H
           end;
    repeat (case_bool_decide; try congruence); try reflexivity.
Qed.

Lemma split_two_components (n1 d1 n2 d2 : jsstring) :
  slashFree n1 = true -> slashFree d1 = true ->
  slashFree n2 = true -> slashFree d2 = true ->
  JsString.split slash
    (concat [slash :: n1 ++ slash :: d1; slash :: n2 ++ slash :: d2])
  = [[]; n1; d1; n2; d2].
Proof.
  rewrite !slashFree_In. intros H1 H2 H3 H4.
  cbn [concat]. rewrite app_nil_r.
  replace ((slash :: n1 ++ slash :: d1) ++ slash :: n2 ++ slash :: d2)
    with (slash :: (n1 ++ slash :: (d1 ++ slash :: (n2 ++ slash :: d2))))
    by (cbn [app]; now rewrite <- app_assoc).
  cbn [JsString.split]. rewrite Ascii.eqb_refl.
  rewrite !split_app by assumption. now rewrite split_single.
Qed.

End thin_waist_facts.

(** ** The records returned by [protos()] are copies *)

Module objects_facts.
Import objects.

Section WithRegistry.
Variable codes : gmap N nat.

Lemma protoCodes_loop_ext (f g : N -> Result Protocol) (fuel : nat) :
  (forall c, f c = g c) ->
  forall buf i,
    multiaddr.protoCodes_loop f fuel buf i = multiaddr.protoCodes_loop g fuel buf i.
Proof.
  intros Hfg. induction fuel as [|fuel IH]; intros buf i; [reflexivity |].
  cbn [multiaddr.protoCodes_loop].
  destruct (i <? length buf)%nat; [|reflexivity].
  destruct (varint.decode buf i) as [[c n]|]; [|reflexivity].
  cbn [orThrow bind]. rewrite Hfg.
  destruct (g c) as [p|]; [|reflexivity]. cbn [bind].
  destruct (codec.sizeForAddr p _); [|reflexivity]. cbn [bind].
  now rewrite IH.
Qed.

(** Writing to records outside the registry leaves the registry's
    records as they were. *)
Lemma mutates_frame (ls : list nat) (h h' : gmap nat Protocol) :
  mutates ls h h' -> forall l, l ∉ ls -> h' !! l = h !! l.
Proof.
  induction 1 as [h | h h' l o Hl _ IH]; intros l0 Hl0; [reflexivity |].
  rewrite IH by exact Hl0.
  apply lookup_insert_ne. intros ->. contradiction.
Qed.

(** Writing does not remove records. *)
Lemma mutates_dom (ls : list nat) (h h' : gmap nat Protocol) :
  mutates ls h h' -> forall l, is_Some (h !! l) -> is_Some (h' !! l).
Proof.
  induction 1 as [h | h h' l o Hl _ IH]; intros l0 Hl0; [exact Hl0 |].
  apply IH. destruct (decide (l = l0)) as [<- | Hne].
  - rewrite lookup_insert_eq. eauto.
  - now rewrite lookup_insert_ne.
Qed.

(** What one round of copies does to the heap. *)
Lemma mapExtend_spec (cs : list N) :
  forall h ls h1,
    registered codes h ->
    mapExtend codes h cs = Ok (ls, h1) ->
    (forall l, l ∈ ls -> h !! l = None /\ is_Some (h1 !! l))
    /\ (forall l, is_Some (h !! l) -> h1 !! l = h !! l)
    /\ map (fun l => h1 !! l) ls = map (recordOf codes h) cs
    /\ Forall (fun c => is_Some (codes !! c)) cs.
Proof.
  induction cs as [|c cs IH]; intros h ls h1 Hreg H.
  - injection H as <- <-. split; [|split; [|split]].
    + intros l Hl. inversion Hl.
    + reflexivity.
    + reflexivity.
    + constructor.
  - cbn [mapExtend] in H. unfold protocols, extend, read in H.
    destruct (codes !! c) as [r|] eqn:Hc; [|discriminate].
    cbn [orThrow bind] in H.
    destruct (h !! r) as [o|] eqn:Hr; [|discriminate].
    cbn [orThrow bind] in H.
    set (l' := fresh (dom h)) in *.
    assert (h !! l' = None) as Hfresh
      by (apply not_elem_of_dom, is_fresh).
    destruct (mapExtend codes (<[l' := o]> h) cs) as [[ls0 h0]|] eqn:E; [|discriminate].
    cbn [bind] in H. injection H as <- <-.
    assert (registered codes (<[l' := o]> h)) as Hreg'.
    { intros c0 l0 Hc0. destruct (decide (l' = l0)) as [<- | Hne].
      - rewrite lookup_insert_eq. eauto.
      - rewrite lookup_insert_ne by exact Hne. now apply (Hreg c0). }
    destruct (IH _ _ _ Hreg' E) as (Hnew & Hkeep & Hcontents & Hknown).
    split; [|split; [|split]].
    + intros l Hl. apply elem_of_cons in Hl as [-> | Hl].
      * split; [exact Hfresh |].
        rewrite Hkeep by (rewrite lookup_insert_eq; eauto).
        rewrite lookup_insert_eq. eauto.
      * destruct (Hnew l Hl) as [Hnone Hsome]. split; [|exact Hsome].
        destruct (decide (l' = l)) as [<- | Hne]; [exact Hfresh |].
        now rewrite lookup_insert_ne in Hnone.
    + intros l Hl. rewrite Hkeep.
      * apply lookup_insert_ne. intros <-. rewrite Hfresh in Hl.
        now destruct Hl.
      * destruct (decide (l' = l)) as [<- | Hne].
        -- rewrite lookup_insert_eq. eauto.
        -- now rewrite lookup_insert_ne.
    + cbn [map]. f_equal.
      * rewrite Hkeep by (rewrite lookup_insert_eq; eauto).
        rewrite lookup_insert_eq. unfold recordOf. now rewrite Hc, Hr.
      * rewrite Hcontents. apply map_ext_in. intros c0 _. unfold recordOf.
        destruct (codes !! c0) as [r0|] eqn:Hc0; [|reflexivity].
        apply lookup_insert_ne. intros <-.
        destruct (Hreg c0 l' Hc0) as [x Hx]. congruence.
    + constructor; [eauto | exact Hknown].
Qed.

(** With the registry in place, the copies can always be made. *)
Lemma mapExtend_total (cs : list N) :
  forall h,
    registered codes h ->
    Forall (fun c => is_Some (codes !! c)) cs ->
    exists ls h1, mapExtend codes h cs = Ok (ls, h1).
Proof.
  induction cs as [|c cs IH]; intros h Hreg Hcs; [now eexists _, _ |].
  apply Forall_cons in Hcs as [[r Hc] Hcs].
  destruct (Hreg c r Hc) as [o Hr].
  cbn [mapExtend]. unfold protocols, extend, read.
  rewrite Hc. cbn [orThrow bind]. rewrite Hr. cbn [orThrow bind].
  set (l' := fresh (dom h)).
  assert (registered codes (<[l' := o]> h)) as Hreg'.
  { intros c0 l0 Hc0. destruct (decide (l' = l0)) as [<- | Hne].
    - rewrite lookup_insert_eq. eauto.
    - rewrite lookup_insert_ne by exact Hne. now apply (Hreg c0). }
  destruct (IH _ Hreg' Hcs) as (ls & h1 & ->). cbn [bind]. now eexists _, _.
Qed.

End WithRegistry.
End objects_facts.

(** ** The examples of the documentation *)

Module examples.

(** [mh1.encapsulate(mh2).toString()] and the buffer of [mh3], as in the
    documentation of [encapsulate]. *)
Example encapsulate_doc :
  (let* mh1 := multiaddr.new registry.table (JString (str "/ip4/8.8.8.8/tcp/1080")) in
   let* mh2 := multiaddr.new registry.table (JString (str "/ip4/127.0.0.1/tcp/4001")) in
   let* mh3 := multiaddr.encapsulate registry.table mh1 mh2 in
   let* s := multiaddr.toString registry.table mh3 in
   Ok (mh1, mh3, s))
  = Ok ({| buffer := hex [0x04; 0x08; 0x08; 0x08; 0x08; 0x06; 0x04; 0x38]%N |},
        {| buffer := hex [0x04; 0x08; 0x08; 0x08; 0x08; 0x06; 0x04; 0x38;
                          0x04; 0x7f; 0x00; 0x00; 0x01; 0x06; 0x0f; 0xa1]%N |},
        str "/ip4/8.8.8.8/tcp/1080/ip4/127.0.0.1/tcp/4001").
Proof. vm_compute. reflexivity. Qed.

(** [mh3.decapsulate(mh2).toString()], as in the documentation of
    [decapsulate]. *)
Example decapsulate_doc :
  (let* mh1 := multiaddr.new registry.table (JString (str "/ip4/8.8.8.8/tcp/1080")) in
   let* mh2 := multiaddr.new registry.table (JString (str "/ip4/127.0.0.1/tcp/4001")) in
   let* mh3 := multiaddr.encapsulate registry.table mh1 mh2 in
   let* r := multiaddr.decapsulate registry.table mh3 mh2 in
   multiaddr.toString registry.table r)
  = Ok (str "/ip4/8.8.8.8/tcp/1080").
Proof. vm_compute. reflexivity. Qed.

(** [protos()] of the documentation: [{code: 4, size: 32, name: 'ip4'}] and
    [{code: 6, size: 16, name: 'tcp'}]. *)
Example protos_doc :
  (let* a := multiaddr.new registry.table (JString (str "/ip4/127.0.0.1/tcp/4001")) in
   let* ps := multiaddr.protos registry.table a in
   Ok (map (fun p => (code p, size p, name p)) ps))
  = Ok [(4%N, Fixed 32, str "ip4"); (6%N, Fixed 16, str "tcp")].
Proof. vm_compute. reflexivity. Qed.

(** [inspect()] of the documentation. *)
Example inspect_doc :
  (let* a := multiaddr.new registry.table (JString (str "/ip4/127.0.0.1/tcp/4001")) in
   multiaddr.inspect registry.table a)
  = Ok (str "<Multiaddr 047f000001060fa1 - /ip4/127.0.0.1/tcp/4001>").
Proof. vm_compute. reflexivity. Qed.

(** From a node address and back. *)
Example fromNodeAddress_nodeAddress :
  (let* a := multiaddr.fromNodeAddress registry.table
               (Some {| na_family := str "IPv4";
                        na_address := Some (str "127.0.0.1");
                        na_port := Some (str "4001") |})
               (str "tcp") in
   let* s := multiaddr.toString registry.table a in
   let* na := multiaddr.nodeAddress registry.table a in
   Ok (s, na))
  = Ok (str "/ip4/127.0.0.1/tcp/4001",
        {| na_family := str "IPv4";
           na_address := Some (str "127.0.0.1");
           na_port := Some (str "4001") |}).
Proof. vm_compute. reflexivity. Qed.

(** An octet out of range is a bad value. *)
Example bad_octet :
  multiaddr.new registry.table (JString (str "/ip4/999.1.1.1/tcp/80"))
  = Err InvalidValue.
Proof. vm_compute. reflexivity. Qed.

(** A string without leading separator, an unknown name and a missing
    value. *)
Example bad_strings :
  multiaddr.new registry.table (JString (str "ip4/1.2.3.4")) = Err InvalidFormat
  /\ multiaddr.new registry.table (JString (str "/ip5/1.2.3.4")) = Err UnknownProtocol
  /\ multiaddr.new registry.table (JString (str "/ip4/1.2.3.4/tcp")) = Err InvalidFormat.
Proof. repeat split; vm_compute; reflexivity. Qed.

(** A truncated value, an unknown code and a length prefix that runs past
    the end are bad addresses. *)
Example bad_buffers :
  multiaddr.new registry.table (JBuffer (hex [0x04; 0x7f; 0x00]%N)) = Err InvalidAddress
  /\ multiaddr.new registry.table (JBuffer (hex [0x05; 0x7f]%N)) = Err InvalidAddress
  /\ multiaddr.new registry.table (JBuffer (hex [0x36; 0x05; 0x61]%N)) = Err InvalidAddress.
Proof. repeat split; vm_compute; reflexivity. Qed.

(** A textual value that holds the separator renders to a string that
    does not parse back: encapsulation of such an address fails, even
    with the empty address. *)
Example encapsulate_unparseable :
  let outer := {| buffer := hex [0x36; 0x03; 0x61; 0x2f; 0x62]%N |} in
  multiaddr.new registry.table (JBuffer (buffer outer)) = Ok outer
  /\ multiaddr.toString registry.table outer = Ok (str "/dns4/a/b")
  /\ multiaddr.encapsulate registry.table outer {| buffer := [] |}
     = Err UnknownProtocol.
Proof. repeat split; vm_compute; reflexivity. Qed.

(** After a path-like component the inner string becomes part of the
    path; decapsulation, which works on the strings, still finds the
    outer address. *)
Example decapsulate_after_path :
  (let* A := multiaddr.new registry.table (JString (str "/unix/a")) in
   let* B := multiaddr.new registry.table (JString (str "/ip4/1.2.3.4")) in
   let* e := multiaddr.encapsulate registry.table A B in
   let* s := multiaddr.toString registry.table e in
   let* r := multiaddr.decapsulate registry.table e B in
   Ok (s, multiaddr.equals r A))
  = Ok (str "/unix/a/ip4/1.2.3.4", true).
Proof. vm_compute. reflexivity. Qed.

End examples.

(** ** The value texts of the sample registry *)

Module transform_facts.
Import transforms JsString_facts.

(** A check that holds of every number below a bound. *)
Lemma below (P : N -> bool) (k : N) :
  N.recursion true (fun n acc => acc && P n) k = true ->
  forall n, (n < k)%N -> P n = true.
Proof.
  induction k as [|k IH] using N.peano_ind; intros H n Hn; [lia |].
  rewrite (N.recursion_succ eq) in H;
    [| reflexivity | intros ? ? -> ? ? ->; reflexivity].
  apply andb_prop in H as [H1 H2].
  destruct (N.eq_dec n k) as [-> | Hne]; [exact H2 |].
  apply IH; [exact H1 | lia].
Qed.

(** The decimal numeral of an octet reads back as the octet, and holds
    neither a dot nor the separator. *)
Lemma octet_texts (n : N) :
  (n <= 255)%N ->
  octet (printDecimal n) = Some (byte_of_N n)
  /\ ~ In "."%char (printDecimal n)
  /\ slashFree (printDecimal n) = true.
Proof.
  intros Hn.
  assert (N.recursion true
            (fun n acc =>
               acc && (bool_decide (octet (printDecimal n) = Some (byte_of_N n))
                       && forallb (fun c => negb (Ascii.eqb c "."%char)) (printDecimal n)
                       && slashFree (printDecimal n))) 256 = true) as H
    by (vm_compute; reflexivity).
  pose proof (below _ _ H n ltac:(lia)) as Hn'. cbv beta in Hn'.
  apply andb_prop in Hn' as [Hn' H3]. apply andb_prop in Hn' as [H1 H2].
  apply bool_decide_eq_true in H1. split; [exact H1 |]. split; [|exact H3].
  intros Hin. rewrite List.forallb_forall in H2. specialize (H2 _ Hin).
  now rewrite Ascii.eqb_refl in H2.
Qed.

(** The decimal numeral of a port reads back as its two bytes, which
    print as the numeral. *)
Lemma port_texts (n : N) :
  (n <= 65535)%N ->
  portToBytes (printDecimal n) = Some [byte_of_N (n / 256); byte_of_N (n mod 256)]
  /\ portToDisplay [byte_of_N (n / 256); byte_of_N (n mod 256)]
     = Some (printDecimal n)
  /\ slashFree (printDecimal n) = true.
Proof.
  intros Hn.
  assert (N.recursion true
            (fun n acc =>
               acc && (bool_decide
                         (portToBytes (printDecimal n)
                          = Some [byte_of_N (n / 256); byte_of_N (n mod 256)])
                       && bool_decide
                            (portToDisplay [byte_of_N (n / 256); byte_of_N (n mod 256)]
                             = Some (printDecimal n))
                       && slashFree (printDecimal n))) 65536 = true) as H
    by (vm_compute; reflexivity).
  pose proof (below _ _ H n ltac:(lia)) as Hn'. cbv beta in Hn'.
  apply andb_prop in Hn' as [Hn' H3]. apply andb_prop in Hn' as [H1 H2].
  apply bool_decide_eq_true in H1, H2. auto.
Qed.

(** The hexadecimal numeral of a group reads back as its two bytes,
    which print as the numeral; it holds neither a colon nor the
    separator. *)
Lemma group_texts (g : N) :
  (g <= 65535)%N ->
  group (printHex g) = Some [byte_of_N (g / 256); byte_of_N (g mod 256)]
  /\ printHex (Byte.to_N (byte_of_N (g / 256)) * 256
               + Byte.to_N (byte_of_N (g mod 256))) = printHex g
  /\ ~ In ":"%char (printHex g)
  /\ slashFree (printHex g) = true.
Proof.
  intros Hg.
  assert (N.recursion true
            (fun g acc =>
               acc && (bool_decide
                         (group (printHex g)
                          = Some [byte_of_N (g / 256); byte_of_N (g mod 256)])
                       && bool_decide
                            (printHex (Byte.to_N (byte_of_N (g / 256)) * 256
                                       + Byte.to_N (byte_of_N (g mod 256)))
                             = printHex g)
                       && forallb (fun c => negb (Ascii.eqb c ":"%char)) (printHex g)
                       && slashFree (printHex g))) 65536 = true) as H
    by (vm_compute; reflexivity).
  pose proof (below _ _ H g ltac:(lia)) as Hg'. cbv beta in Hg'.
  apply andb_prop in Hg' as [Hg' H4]. apply andb_prop in Hg' as [Hg' H3].
  apply andb_prop in Hg' as [H1 H2].
  apply bool_decide_eq_true in H1, H2.
  split; [exact H1 |]. split; [exact H2 |]. split; [|exact H4].
  intros Hin. rewrite List.forallb_forall in H3. specialize (H3 _ Hin).
  now rewrite Ascii.eqb_refl in H3.
Qed.

(** Splitting undoes joining, for parts without the separator. *)
Lemma split_join (sep : ascii) (l : list jsstring) :
  l <> [] -> Forall (fun x => ~ In sep x) l ->
  JsString.split sep (JsString.join sep l) = l.
Proof.
  induction l as [|x l IH]; intros Hne Hl; [congruence |].
  apply Forall_cons in Hl as [Hx Hl].
  destruct l as [|y l].
  - cbn [JsString.join]. now apply split_single.
  - rewrite join_cons by discriminate. rewrite split_app by exact Hx.
    rewrite IH; [reflexivity | discriminate | exact Hl].
Qed.

(** A join of parts without the separator [/] holds none. *)
Lemma slashFree_join (sep : ascii) (l : list jsstring) :
  sep <> slash -> Forall (fun x => slashFree x = true) l ->
  slashFree (JsString.join sep l) = true.
Proof.
  intros Hsep. induction 1 as [|x l Hx Hl IH]; [reflexivity |].
  destruct l as [|y l]; [exact Hx |].
  rewrite join_cons by discriminate.
  unfold slashFree in *. rewrite forallb_app. cbn [forallb].
  rewrite Hx, IH. cbn [andb].
  destruct (Ascii.eqb sep slash) eqn:E; [|reflexivity].
  now apply Ascii.eqb_eq in E.
Qed.

(** A dotted quad reads back as its four bytes, which print as the
    quad. *)
Lemma ip4_texts (a b c d : N) :
  (a <= 255)%N -> (b <= 255)%N -> (c <= 255)%N -> (d <= 255)%N ->
  let text := JsString.join "."%char (map printDecimal [a; b; c; d]) in
  ip4ToBytes text = Some (map byte_of_N [a; b; c; d])
  /\ ip4ToDisplay (map byte_of_N [a; b; c; d]) = Some text
  /\ slashFree text = true.
Proof.
  intros Ha Hb Hc Hd text.
  destruct (octet_texts a Ha) as (Ea & Da & Sa).
  destruct (octet_texts b Hb) as (Eb & Db & Sb).
  destruct (octet_texts c Hc) as (Ec & Dc & Sc).
  destruct (octet_texts d Hd) as (Ed & Dd & Sd).
  split; [|split].
  - unfold ip4ToBytes, text. rewrite split_join.
    + cbn [map sequence]. now rewrite Ea, Eb, Ec, Ed.
    + discriminate.
    + repeat constructor; assumption.
  - unfold ip4ToDisplay, text. cbn [map].
    rewrite !byte_of_N_to_N by lia. reflexivity.
  - apply slashFree_join; [discriminate |]. repeat constructor; assumption.
Qed.

(** Eight groups read back as their sixteen bytes, which print as the
    groups. *)
Lemma ip6_texts (gs : list N) :
  length gs = 8%nat -> Forall (fun g => (g <= 65535)%N) gs ->
  let text := JsString.join ":"%char (map printHex gs) in
  let v := concat (map (fun g => [byte_of_N (g / 256); byte_of_N (g mod 256)]) gs) in
  ip6ToBytes text = Some v
  /\ ip6ToDisplay v = Some text
  /\ slashFree text = true.
Proof.
  intros Hlen Hgs text v.
  assert (sequence (map group (map printHex gs))
          = Some (map (fun g => [byte_of_N (g / 256); byte_of_N (g mod 256)]) gs))
    as Hseq.
  { clear Hlen text v. induction Hgs as [|g gs Hg _ IH]; [reflexivity |].
    cbn [map sequence]. destruct (group_texts g Hg) as (-> & _). now rewrite IH. }
  assert (groups v = map printHex gs) as Hgroups.
  { unfold v. clear Hlen text v Hseq. induction Hgs as [|g gs Hg _ IH]; [reflexivity |].
    cbn [map concat app groups]. destruct (group_texts g Hg) as (_ & -> & _).
    now rewrite IH. }
  assert (length v = 16%nat) as Hv.
  { unfold v. clear text v Hseq Hgroups Hgs.
    do 9 (destruct gs as [|? gs]; try discriminate). reflexivity. }
  split; [|split].
  - unfold ip6ToBytes, text. rewrite split_join.
    + rewrite length_map, Hlen. cbn [Nat.eqb]. now rewrite Hseq.
    + destruct gs; [discriminate | discriminate].
    + apply List.Forall_map. eapply Forall_impl; [exact Hgs |].
      intros g Hg. cbv beta. now destruct (group_texts g Hg) as (_ & _ & H & _).
  - unfold ip6ToDisplay. rewrite Hv. cbn [Nat.eqb]. now rewrite Hgroups.
  - apply slashFree_join; [discriminate |].
    apply List.Forall_map. eapply Forall_impl; [exact Hgs |].
    intros g Hg. cbv beta. now destruct (group_texts g Hg) as (_ & _ & _ & H).
Qed.

(** A text reads back as its characters. *)
Lemma text_texts (d : jsstring) :
  exists v, textToBytes d = Some v /\ textToDisplay v = Some d.
Proof.
  exists (map byte_of_ascii d). split; [reflexivity |].
  unfold textToDisplay. f_equal. rewrite map_map.
  rewrite <- (map_id d) at 2. apply map_ext. apply ascii_of_byte_of_ascii.
Qed.

(** The value texts are canonical: they read back as bytes that print as
    the text; those of a scalar protocol hold no separator. *)
Lemma valueText_canonical (p : Protocol) (d : jsstring) :
  valueText p d ->
  In p registry.table /\ hasValue p = true /\ canonicalValue p d
  /\ (path p = false -> slashFree d = true).
Proof.
  destruct 1 as [a b c d Ha Hb Hc Hd | n Hn | n Hn | gs Hlen Hgs | d Hd | d].
  - destruct (ip4_texts a b c d Ha Hb Hc Hd) as (H1 & H2 & H3).
    split; [left; reflexivity |]. split; [reflexivity |].
    split; [eexists; split; [exact H1 | exact H2] | intros _; exact H3].
  - destruct (port_texts n Hn) as (H1 & H2 & H3).
    split; [right; left; reflexivity |]. split; [reflexivity |].
    split; [eexists; split; [exact H1 | exact H2] | intros _; exact H3].
  - destruct (port_texts n Hn) as (H1 & H2 & H3).
    split; [do 2 right; left; reflexivity |]. split; [reflexivity |].
    split; [eexists; split; [exact H1 | exact H2] | intros _; exact H3].
  - destruct (ip6_texts gs Hlen Hgs) as (H1 & H2 & H3).
    split; [do 3 right; left; reflexivity |]. split; [reflexivity |].
    split; [eexists; split; [exact H1 | exact H2] | intros _; exact H3].
  - split; [do 4 right; left; reflexivity |]. split; [reflexivity |].
    split; [exact (text_texts d) | intros _; exact Hd].
  - split; [do 5 right; left; reflexivity |]. split; [reflexivity |].
    split; [exact (text_texts d) | discriminate].
Qed.

(** The strings of the grammar are canonical strings of the sample
    registry. *)
Lemma grammar_canonical (s : jsstring) :
  grammar s -> canonical true registry.table s.
Proof.
  induction 1 as [| s _ IH | p d s Hp Hd _ IH | p d Hp Hd].
  - constructor.
  - apply canonical_flag; [do 6 right; left; reflexivity | reflexivity | exact IH].
  - destruct (valueText_canonical p d Hd) as (Hin & Hv & Hc & Hs).
    apply canonical_scalar; auto.
  - destruct (valueText_canonical p d Hd) as (Hin & Hv & Hc & _).
    apply canonical_path; auto.
Qed.

(** The address built from a canonical string prints as the string. *)
Lemma canonical_round_trip (table : list Protocol) (s : jsstring) :
  registry_wf table ->
  canonical true table s ->
  exists a, multiaddr.new table (JString s) = Ok a
            /\ multiaddr.toString table a = Ok s.
Proof.
  intros Hwf Hs.
  destruct (parse_facts.canonical_components table Hwf true s Hs)
    as (cs & parts & Hcs & Hparse & Hrender & Hconcat).
  exists {| buffer := encodeAll cs |}. split.
  - rewrite (composition_facts.new_string table). now rewrite Hparse.
  - unfold multiaddr.toString, codec.bufferToString. cbn [buffer].
    rewrite (codec_facts.walk_encodeAll table Hwf) by exact Hcs.
    rewrite Hrender. cbn [bind]. now rewrite Hconcat.
Qed.

(** The two bytes of a group, read off the number they stand for. *)
Lemma pair_bytes (hi lo : Byte.byte) :
  byte_of_N ((Byte.to_N hi * 256 + Byte.to_N lo) / 256) = hi
  /\ byte_of_N ((Byte.to_N hi * 256 + Byte.to_N lo) mod 256) = lo
  /\ (Byte.to_N hi * 256 + Byte.to_N lo <= 65535)%N.
Proof.
  pose proof (to_N_lt_256 hi) as Hhi. pose proof (to_N_lt_256 lo) as Hlo.
  assert ((Byte.to_N hi * 256 + Byte.to_N lo) / 256 = Byte.to_N hi)%N as ->.
  { rewrite N.div_add_l by lia. rewrite N.div_small by lia. lia. }
  assert ((Byte.to_N hi * 256 + Byte.to_N lo) mod 256 = Byte.to_N lo)%N as ->.
  { rewrite N.add_comm, N.Div0.mod_add. now apply N.mod_small. }
  rewrite !byte_of_N_of_to_N. repeat split. lia.
Qed.

(** In the sample registry every value of the right length that prints
    reads back: the text that [toDisplay] writes for it is converted by
    [toBytes] to the same bytes. *)
Lemma read_back (p : Protocol) (v : bytes) (d : jsstring) :
  In p registry.table -> fits p v ->
  toDisplay p v = Some d -> toBytes p d = Some v.
Proof.
  intros Hin Hfit Hd.
  assert (forall v d, textToDisplay v = Some d -> textToBytes d = Some v) as Htext.
  { intros v0 d0 [= <-]. unfold textToBytes. f_equal. rewrite map_map.
    rewrite <- (map_id v0) at 2. apply map_ext. apply byte_of_ascii_of_byte. }
  assert (forall v d, length v = 2%nat -> portToDisplay v = Some d ->
                      portToBytes d = Some v) as Hport.
  { intros v0 d0 Hlen H. destruct v0 as [|hi [|lo [|? ?]]]; try discriminate.
    injection H as <-. destruct (pair_bytes hi lo) as (E1 & E2 & Hle).
    destruct (port_texts _ Hle) as (-> & _). now rewrite E1, E2. }
  cbn [In registry.table] in Hin.
  destruct Hin as [<- | [<- | [<- | [<- | [<- | [<- | [<- | []]]]]]]];
    cbn [toBytes toDisplay registry.ip4 registry.tcp registry.udp registry.ip6
           registry.dns4 registry.unix registry.http] in *;
    unfold fits in Hfit;
    cbn [size registry.ip4 registry.tcp registry.udp registry.ip6] in Hfit;
    try (now apply Htext); try (now apply Hport); try discriminate.
  - destruct v as [|a [|b [|c [|e [|? ?]]]]]; try discriminate.
    injection Hd as <-.
    destruct (ip4_texts (Byte.to_N a) (Byte.to_N b) (Byte.to_N c) (Byte.to_N e))
      as (H & _); try (pose proof (to_N_lt_256 a); pose proof (to_N_lt_256 b);
                       pose proof (to_N_lt_256 c); pose proof (to_N_lt_256 e); lia).
    cbn [map] in H. rewrite !byte_of_N_of_to_N in H. exact H.
  - unfold ip6ToDisplay in Hd.
    destruct v as [|b1 [|b2 [|b3 [|b4 [|b5 [|b6 [|b7 [|b8 [|b9 [|b10 [|b11 [|b12 [|b13 [|b14 [|b15 [|b16 [|? ?]]]]]]]]]]]]]]]]];
      try discriminate.
    cbn [length Nat.eqb groups] in Hd. injection Hd as <-.
    destruct (ip6_texts [(Byte.to_N b1 * 256 + Byte.to_N b2)%N; (Byte.to_N b3 * 256 + Byte.to_N b4)%N; (Byte.to_N b5 * 256 + Byte.to_N b6)%N; (Byte.to_N b7 * 256 + Byte.to_N b8)%N; (Byte.to_N b9 * 256 + Byte.to_N b10)%N; (Byte.to_N b11 * 256 + Byte.to_N b12)%N; (Byte.to_N b13 * 256 + Byte.to_N b14)%N; (Byte.to_N b15 * 256 + Byte.to_N b16)%N]) as (H & _);
      [reflexivity | repeat constructor; apply pair_bytes |].
    cbn [map concat app] in H.
    destruct (pair_bytes b1 b2) as (E1 & E2 & _); rewrite E1, E2 in H; clear E1 E2.
    destruct (pair_bytes b3 b4) as (E1 & E2 & _); rewrite E1, E2 in H; clear E1 E2.
    destruct (pair_bytes b5 b6) as (E1 & E2 & _); rewrite E1, E2 in H; clear E1 E2.
    destruct (pair_bytes b7 b8) as (E1 & E2 & _); rewrite E1, E2 in H; clear E1 E2.
    destruct (pair_bytes b9 b10) as (E1 & E2 & _); rewrite E1, E2 in H; clear E1 E2.
    destruct (pair_bytes b11 b12) as (E1 & E2 & _); rewrite E1, E2 in H; clear E1 E2.
    destruct (pair_bytes b13 b14) as (E1 & E2 & _); rewrite E1, E2 in H; clear E1 E2.
    destruct (pair_bytes b15 b16) as (E1 & E2 & _); rewrite E1, E2 in H; clear E1 E2.
    exact H.
Qed.

End transform_facts.

(** ** Addresses that the string form carries faithfully *)

Module readable_facts.
Import codec codec_facts parse_facts address_facts composition_facts.

Section WithRegistry.
Variable table : list Protocol.
Hypothesis Hwf : registry_wf table.

(** Readable components print as a canonical string, which parses to
    their canonical bytes. *)
Lemma readable_canonical paths (cs : list (Protocol * bytes)) :
  Forall (component table) cs -> readable paths cs ->
  exists parts,
    mapM (fun c => renderTuple (fst c) (snd c)) cs = Ok parts
    /\ canonical paths table (concat parts)
    /\ fromString table (concat parts) = Ok (encodeAll cs).
Proof.
  intros Hcs Hr.
  induction Hr as [| p v cs Hv _ IH | p v d cs Hv Hp Hd Hb Hs _ IH
                  | p v d Hpaths Hv Hp Hd Hb].
  - exists []. repeat split. constructor.
  - apply Forall_cons in Hcs as [[Hin Hfit] Hcs]. cbn [fst snd] in Hin, Hfit.
    destruct (IH Hcs) as (parts & Hrender & Hcan & Hparse).
    assert (v = []) as ->.
    { unfold fits, hasValue in *. now destruct (size p). }
    exists ((slash :: name p) :: parts). split; [|split].
    + cbn [mapM fst snd]. unfold renderTuple at 1. rewrite Hv. cbn [bind].
      now rewrite Hrender.
    + cbn [concat]. cbn [app]. now apply canonical_flag.
    + cbn [concat]. cbn [app].
      rewrite (fromString_flag table Hwf) by eauto using canonical_headed.
      now rewrite Hparse.
  - apply Forall_cons in Hcs as [[Hin Hfit] Hcs]. cbn [fst snd] in Hin, Hfit.
    destruct (IH Hcs) as (parts & Hrender & Hcan & Hparse).
    exists ((slash :: name p ++ slash :: d) :: parts). split; [|split].
    + cbn [mapM fst snd]. unfold renderTuple at 1. rewrite Hv, Hd.
      cbn [orThrow bind]. now rewrite Hrender.
    + cbn [concat]. cbn [app]. rewrite <- app_assoc. cbn [app].
      apply canonical_scalar; trivial. now exists v.
    + cbn [concat]. cbn [app]. rewrite <- app_assoc. cbn [app].
      rewrite (fromString_scalar table Hwf) by eauto using canonical_headed.
      now rewrite Hb, Hparse.
  - apply Forall_cons in Hcs as [[Hin Hfit] _]. cbn [fst snd] in Hin, Hfit.
    exists [slash :: name p ++ slash :: d]. split; [|split].
    + cbn [mapM fst snd]. unfold renderTuple. now rewrite Hv, Hd.
    + cbn [concat]. rewrite app_nil_r. apply canonical_path; trivial.
      now exists v.
    + cbn [concat]. rewrite app_nil_r.
      rewrite (fromString_path table Hwf) by assumption. rewrite Hb.
      unfold encodeAll. cbn. now rewrite app_nil_r.
Qed.

(** An address with components passes [fromBuffer]. *)
Lemma components_valid (a : Multiaddr) (cs : list (Protocol * bytes)) :
  components table (buffer a) = Ok cs -> valid table a.
Proof.
  intros Hcs. unfold valid, fromBuffer. unfold components in Hcs.
  rewrite (walk_components table _ _ _ _ Hcs).
  now rewrite (mapM_total (fun _ => tt)).
Qed.

(** The canonical bytes of components have these components. *)
Lemma components_encodeAll (cs : list (Protocol * bytes)) :
  Forall (component table) cs ->
  components table (encodeAll cs) = Ok cs.
Proof.
  intros Hcs. unfold components.
  rewrite (walk_encodeAll table Hwf) by exact Hcs.
  clear Hcs. induction cs as [|[p v] cs IH]; [reflexivity |].
  cbn [mapM fst snd bind]. now rewrite IH.
Qed.

(** Encapsulation of two addresses with readable components, the outer
    one without path-like component: the result has the components of
    the outer address followed by those of the inner one, in their
    canonical bytes. *)
Lemma encapsulate_readable (outer inner : Multiaddr)
    (csO csI : list (Protocol * bytes)) :
  components table (buffer outer) = Ok csO -> readable false csO ->
  components table (buffer inner) = Ok csI -> readable true csI ->
  exists sO sI,
    multiaddr.toString table outer = Ok sO
    /\ multiaddr.toString table inner = Ok sI
    /\ multiaddr.encapsulate table outer inner
       = Ok {| buffer := encodeAll (csO ++ csI) |}
    /\ multiaddr.toString table {| buffer := encodeAll (csO ++ csI) |}
       = Ok (sO ++ sI)
    /\ components table (encodeAll (csO ++ csI)) = Ok (csO ++ csI).
Proof.
  intros HcsO HrO HcsI HrI.
  pose proof (components_fit table _ _ _ HcsO) as HfitO.
  pose proof (components_fit table _ _ _ HcsI) as HfitI.
  destruct (readable_canonical false csO HfitO HrO) as (pO & HrenO & HcanO & HparO).
  destruct (readable_canonical true csI HfitI HrI) as (pI & HrenI & HcanI & HparI).
  destruct (views_of_components table outer csO HcsO) as (_ & _ & _ & HstrO).
  destruct (views_of_components table inner csI HcsI) as (_ & _ & _ & HstrI).
  rewrite HrenO in HstrO. rewrite HrenI in HstrI. cbn [bind] in HstrO, HstrI.
  pose proof (fromString_app table Hwf _ _ _ _ HcanO
                (canonical_headed table true _ HcanI) HparO HparI) as Happ.
  rewrite <- encodeAll_app in Happ.
  assert (Forall (component table) (csO ++ csI)) as Hfit
    by now apply Forall_app_2.
  exists (concat pO), (concat pI).
  split; [exact HstrO |]. split; [exact HstrI |]. split; [|split].
  - unfold multiaddr.encapsulate, multiaddr.new at 1. cbn [falsy].
    pose proof (components_valid inner csI HcsI) as Hval. unfold valid in Hval.
    rewrite Hval. cbn [bind].
    replace {| buffer := buffer inner |} with inner by now destruct inner.
    rewrite HstrO, HstrI. cbn [bind]. rewrite new_string. now rewrite Happ.
  - unfold multiaddr.toString, bufferToString. cbn [buffer].
    rewrite (walk_encodeAll table Hwf) by exact Hfit.
    assert (mapM (fun c => renderTuple (fst c) (snd c)) (csO ++ csI)
            = Ok (pO ++ pI)) as ->.
    { clear -HrenO HrenI. revert pO HrenO.
      induction csO as [|c csO IH]; intros pO HrenO.
      - injection HrenO as <-. exact HrenI.
      - cbn [mapM app] in *.
        apply bind_Ok in HrenO as (x & Hx & HrenO).
        apply bind_Ok in HrenO as (tl & Htl & [= <-]).
        rewrite Hx. cbn [bind]. now rewrite (IH tl Htl). }
    cbn [bind]. now rewrite concat_app.
  - now apply components_encodeAll.
Qed.

End WithRegistry.
End readable_facts.

(** * The claims *)

(** C1, as the code has it: for every string [s] of the grammar whose
    values are written the way [toString] writes them (decimal numerals
    of ports and octets and hexadecimal numerals of groups without
    leading zeros, texts literally), the address built from [s] renders
    as [s] again: [toString(fromString(s)) == s]. *)
Theorem toString_fromString (s : jsstring) :
  grammar s ->
  exists a, multiaddr.new registry.table (JString s) = Ok a
            /\ multiaddr.toString registry.table a = Ok s.
Proof.
  intros Hs. apply transform_facts.canonical_round_trip.
  - exact registry_facts.table_wf.
  - now apply transform_facts.grammar_canonical.
Qed.

Lemma toString_fromString_witness :
  exists a, multiaddr.new registry.table (JString (str "/ip4/127.0.0.1/tcp/4001")) = Ok a
            /\ multiaddr.toString registry.table a = Ok (str "/ip4/127.0.0.1/tcp/4001").
Proof.
  apply (toString_fromString (str "/ip4/127.0.0.1/tcp/4001")).
  refine (grammar_scalar registry.ip4 _ _ eq_refl
            (text_ip4 127 0 0 1 _ _ _ _)
            (grammar_scalar registry.tcp _ _ eq_refl
               (text_tcp 4001 _) grammar_empty)); lia.
Defined.

(** C1 as stated fails: a port written with leading zeros is a decimal
    integer from 0 to 65535, the constructor accepts the string, and
    [toString] answers with the numeral without the zeros. *)
Lemma toString_fromString_counterexample :
  transforms.parseDecimal (str "0080") = Some 80%N
  /\ multiaddr.new registry.table (JString (str "/tcp/0080"))
     = Ok {| buffer := hex [0x06; 0x00; 0x50]%N |}
  /\ multiaddr.toString registry.table {| buffer := hex [0x06; 0x00; 0x50]%N |}
     = Ok (str "/tcp/80")
  /\ ~ (exists a, multiaddr.new registry.table (JString (str "/tcp/0080")) = Ok a
                  /\ multiaddr.toString registry.table a = Ok (str "/tcp/0080")).
Proof.
  repeat (split; [vm_compute; reflexivity |]).
  intros (a & Ha & Hs). vm_compute in Ha. injection Ha as <-.
  vm_compute in Hs. discriminate.
Qed.

(** C2, as the code has it: for an address [A] built by the constructor
    from a canonical string and every valid address [B] that has a
    string, the two strings in a row being a canonical string again,
    decapsulating [B] from [encapsulate(A, B)] gives [A] back. The
    concatenation is canonical whenever [A] has no path-like component
    and the string of [B] is canonical
    ([composition_facts.canonical_app]). *)
Theorem decapsulate_encapsulate (table : list Protocol) (A B : Multiaddr)
    (sA sB : jsstring) :
  registry_wf table ->
  canonical true table sA -> multiaddr.new table (JString sA) = Ok A ->
  valid table B -> multiaddr.toString table B = Ok sB ->
  canonical true table (sA ++ sB) ->
  (let* e := multiaddr.encapsulate table A B in multiaddr.decapsulate table e B)
  = Ok A.
Proof.
  intros Hwf HsA HbA HvalB HstrB HsAB.
  apply composition_facts.new_string_buffer in HbA.
  destruct (composition_facts.canonical_address table Hwf sA _ HsA HbA)
    as (HstrA & _ & _).
  destruct (parse_facts.canonical_components table Hwf true _ HsAB)
    as (cs & parts & _ & Hparse & _).
  destruct (composition_facts.canonical_address table Hwf _ _ HsAB Hparse)
    as (Hstr & _ & _).
  unfold valid in HvalB. unfold multiaddr.toString in HstrB.
  unfold multiaddr.encapsulate, multiaddr.new at 1. cbn [falsy].
  rewrite HvalB. cbn [bind]. unfold multiaddr.toString at 1 2. cbn [buffer].
  rewrite HstrA, HstrB. cbn [bind].
  rewrite composition_facts.new_string, Hparse. cbn [bind].
  unfold multiaddr.decapsulate, multiaddr.toString. cbn [buffer].
  rewrite HstrB, Hstr. cbn [bind].
  rewrite JsString_facts.lastIndexOf_app.
  replace (Z.of_nat (length sA) <? 0)%Z with false by (symmetry; apply Z.ltb_ge; lia).
  unfold JsString.slice0. rewrite Nat2Z.id, take_app_length.
  rewrite composition_facts.new_string, HbA. now destruct A.
Qed.

Lemma decapsulate_encapsulate_witness :
  (let* e := multiaddr.encapsulate registry.table
               {| buffer := hex [0x04; 0x08; 0x08; 0x08; 0x08; 0x06; 0x04; 0x38]%N |}
               {| buffer := hex [0x86; 0x00; 0x00; 0x50]%N |} in
   multiaddr.decapsulate registry.table e
     {| buffer := hex [0x86; 0x00; 0x00; 0x50]%N |})
  = Ok {| buffer := hex [0x04; 0x08; 0x08; 0x08; 0x08; 0x06; 0x04; 0x38]%N |}.
Proof.
  assert (canonical false registry.table (str "/ip4/8.8.8.8/tcp/1080")) as HA.
  { refine (canonical_scalar false registry.table registry.ip4 (str "8.8.8.8") _
              _ _ _ _ _
              (canonical_scalar false registry.table registry.tcp (str "1080") _
                 _ _ _ _ _ (canonical_empty _ _)));
      try reflexivity; try (simpl; tauto);
      eexists; split; vm_compute; reflexivity. }
  assert (canonical true registry.table (str "/tcp/80")) as HB.
  { refine (canonical_scalar true registry.table registry.tcp (str "80") _
              _ _ _ _ _ (canonical_empty _ _));
      try reflexivity; try (simpl; tauto);
      eexists; split; vm_compute; reflexivity. }
  apply (decapsulate_encapsulate registry.table
           {| buffer := hex [0x04; 0x08; 0x08; 0x08; 0x08; 0x06; 0x04; 0x38]%N |}
           {| buffer := hex [0x86; 0x00; 0x00; 0x50]%N |}
           (str "/ip4/8.8.8.8/tcp/1080") (str "/tcp/80")).
  - exact registry_facts.table_wf.
  - exact (composition_facts.canonical_weaken _ _ HA).
  - vm_compute. reflexivity.
  - vm_compute. reflexivity.
  - vm_compute. reflexivity.
  - exact (composition_facts.canonical_app _ _ _ HA HB).
Defined.

(** C2 as stated fails on valid addresses that the string path cannot
    build. First, an address with the path-like [unix] before an IPv4
    component: its string re-parses to a single [unix] component. Second,
    an IPv4 address whose code is written as the two-byte varint [84 00]:
    its string re-parses to the one-byte code. In both cases [B] is
    ["/tcp/80"]. *)
Lemma decapsulate_encapsulate_counterexample :
  let B := {| buffer := hex [0x06; 0x00; 0x50]%N |} in
  let A1 := {| buffer := hex [0x90; 0x03; 0x01; 0x61; 0x04; 0x01; 0x02; 0x03; 0x04]%N |} in
  let A2 := {| buffer := hex [0x84; 0x00; 0x01; 0x02; 0x03; 0x04]%N |} in
  (multiaddr.new registry.table (JString (str "/tcp/80")) = Ok B
   /\ valid registry.table B)
  /\ (multiaddr.new registry.table (JBuffer (buffer A1)) = Ok A1
      /\ valid registry.table A1
      /\ multiaddr.toString registry.table A1 = Ok (str "/unix/a/ip4/1.2.3.4")
      /\ (let* ts := multiaddr.tuples registry.table A1 in
          codec.tuplesToBuffer registry.table ts) = Ok (buffer A1)
      /\ (let* e := multiaddr.encapsulate registry.table A1 B in
          multiaddr.decapsulate registry.table e B)
         = Ok {| buffer := hex [0x90; 0x03; 0x0d]%N
                            ++ map byte_of_ascii (str "a/ip4/1.2.3.4") |}
      /\ (let* e := multiaddr.encapsulate registry.table A1 B in
          multiaddr.decapsulate registry.table e B) <> Ok A1)
  /\ (multiaddr.new registry.table (JBuffer (buffer A2)) = Ok A2
      /\ valid registry.table A2
      /\ multiaddr.toString registry.table A2 = Ok (str "/ip4/1.2.3.4")
      /\ (let* e := multiaddr.encapsulate registry.table A2 B in
          multiaddr.decapsulate registry.table e B)
         = Ok {| buffer := hex [0x04; 0x01; 0x02; 0x03; 0x04]%N |}
      /\ (let* e := multiaddr.encapsulate registry.table A2 B in
          multiaddr.decapsulate registry.table e B) <> Ok A2).
Proof.
  split; [|split].
  - split; vm_compute; reflexivity.
  - repeat (split; [vm_compute; reflexivity |]). vm_compute. discriminate.
  - repeat (split; [vm_compute; reflexivity |]). vm_compute. discriminate.
Qed.

(** C3: [decapsulate] renders both addresses, looks for the last
    occurrence of the suffix's string in the address's string, and answers
    with the re-parsed prefix that ends where this occurrence starts. It
    fails with [NotContained] exactly when the suffix's string is not a
    substring of the address's string. *)
Theorem decapsulate_spec (table : list Protocol) (a suffix : Multiaddr)
    (sA sT : jsstring) :
  multiaddr.toString table a = Ok sA ->
  multiaddr.toString table suffix = Ok sT ->
  (multiaddr.decapsulate table a suffix = Err NotContained
   <-> ~ JsString.substring sT sA)
  /\ (JsString.substring sT sA ->
      exists i,
        JsString.occursAt sT sA i
        /\ (forall j, (i < j)%nat -> ~ JsString.occursAt sT sA j)
        /\ multiaddr.decapsulate table a suffix
           = multiaddr.new table (JString (take i sA))).
Proof.
  intros HA HT. unfold multiaddr.decapsulate. rewrite HT, HA. cbn [bind].
  assert (forall s, multiaddr.new table (JString s) <> Err NotContained) as Hnew.
  { intros s. unfold multiaddr.new.
    destruct (falsy (JString s)); cbn [bind].
    - discriminate.
    - destruct (codec.fromString table s) as [b|e] eqn:E; [discriminate |].
      apply address_facts.fromString_error in E. cbn [bind].
      intros [= ->]. intuition discriminate. }
  destruct (JsString_facts.lastIndexOf_spec sA sT)
    as [[Hi Hno] | (i & Hi & Hocc & Hlast)]; rewrite Hi.
  - cbn. split; [tauto |]. intros Hsub. contradiction.
  - replace (Z.of_nat i <? 0)%Z with false by (symmetry; apply Z.ltb_ge; lia).
    unfold JsString.slice0. rewrite Nat2Z.id.
    assert (JsString.substring sT sA) as Hsub
      by (apply JsString_facts.occursAt_substring; eauto).
    split.
    + split; [intros H; now apply Hnew in H | tauto].
    + intros _. exists i. auto.
Qed.

Lemma decapsulate_spec_witness :
  exists i,
    JsString.occursAt (str "/tcp/4001") (str "/ip4/127.0.0.1/tcp/4001") i
    /\ (forall j, (i < j)%nat ->
          ~ JsString.occursAt (str "/tcp/4001") (str "/ip4/127.0.0.1/tcp/4001") j)
    /\ multiaddr.decapsulate registry.table
         {| buffer := hex [0x04; 0x7f; 0x00; 0x00; 0x01; 0x06; 0x0f; 0xa1]%N |}
         {| buffer := hex [0x06; 0x0f; 0xa1]%N |}
       = multiaddr.new registry.table
           (JString (take i (str "/ip4/127.0.0.1/tcp/4001"))).
Proof.
  apply (proj2 (decapsulate_spec registry.table
           {| buffer := hex [0x04; 0x7f; 0x00; 0x00; 0x01; 0x06; 0x0f; 0xa1]%N |}
           {| buffer := hex [0x06; 0x0f; 0xa1]%N |}
           (str "/ip4/127.0.0.1/tcp/4001") (str "/tcp/4001")
           ltac:(vm_compute; reflexivity) ltac:(vm_compute; reflexivity))).
  exists (str "/ip4/127.0.0.1"), []. vm_compute. reflexivity.
Defined.

(** C4, as the code has it: for two valid addresses whose values print
    as texts that read back as the same bytes, the texts of scalar values
    holding no separator, the outer address without path-like component
    and the inner one with none before its last, [encapsulate] succeeds;
    the canonical string of the result is the outer string followed by
    the inner one, and its tuples are the outer tuples followed by the
    inner ones. The addresses need not come from strings: their codes and
    lengths may be written as varints of any width. In the sample
    registry every value that prints reads back
    ([transform_facts.read_back]), and the condition is on separators and
    path-like components only. *)
Theorem encapsulate_appends (table : list Protocol) (outer inner : Multiaddr)
    (csO csI : list (Protocol * bytes)) :
  registry_wf table ->
  components table (buffer outer) = Ok csO -> readable false csO ->
  components table (buffer inner) = Ok csI -> readable true csI ->
  exists r sO sI tO tI,
    multiaddr.encapsulate table outer inner = Ok r
    /\ multiaddr.toString table outer = Ok sO
    /\ multiaddr.toString table inner = Ok sI
    /\ multiaddr.toString table r = Ok (sO ++ sI)
    /\ multiaddr.tuples table outer = Ok tO
    /\ multiaddr.tuples table inner = Ok tI
    /\ multiaddr.tuples table r = Ok (tO ++ tI).
Proof.
  intros Hwf HcsO HrO HcsI HrI.
  destruct (readable_facts.encapsulate_readable table Hwf outer inner csO csI
              HcsO HrO HcsI HrI)
    as (sO & sI & HstrO & HstrI & Henc & Hstr & Hcs).
  destruct (address_facts.views_of_components table outer csO HcsO)
    as (_ & _ & HtO & _).
  destruct (address_facts.views_of_components table
              {| buffer := encodeAll (csO ++ csI) |} (csO ++ csI) Hcs)
    as (_ & _ & Ht & _).
  destruct (address_facts.views_of_components table inner csI HcsI)
    as (_ & _ & HtI & _).
  exists {| buffer := encodeAll (csO ++ csI) |}, sO, sI,
         (map (fun c => (code (fst c), snd c)) csO),
         (map (fun c => (code (fst c), snd c)) csI).
  rewrite <- map_app. auto 10.
Qed.

Lemma encapsulate_appends_witness :
  exists r sO sI tO tI,
    multiaddr.encapsulate registry.table
      {| buffer := hex [0x84; 0x00; 0x01; 0x02; 0x03; 0x04]%N |}
      {| buffer := hex [0x86; 0x00; 0x00; 0x50]%N |} = Ok r
    /\ multiaddr.toString registry.table
         {| buffer := hex [0x84; 0x00; 0x01; 0x02; 0x03; 0x04]%N |} = Ok sO
    /\ multiaddr.toString registry.table
         {| buffer := hex [0x86; 0x00; 0x00; 0x50]%N |} = Ok sI
    /\ multiaddr.toString registry.table r = Ok (sO ++ sI)
    /\ multiaddr.tuples registry.table
         {| buffer := hex [0x84; 0x00; 0x01; 0x02; 0x03; 0x04]%N |} = Ok tO
    /\ multiaddr.tuples registry.table
         {| buffer := hex [0x86; 0x00; 0x00; 0x50]%N |} = Ok tI
    /\ multiaddr.tuples registry.table r = Ok (tO ++ tI).
Proof.
  apply (encapsulate_appends registry.table
           {| buffer := hex [0x84; 0x00; 0x01; 0x02; 0x03; 0x04]%N |}
           {| buffer := hex [0x86; 0x00; 0x00; 0x50]%N |}
           [(registry.ip4, hex [0x01; 0x02; 0x03; 0x04]%N)]
           [(registry.tcp, hex [0x00; 0x50]%N)]).
  - exact registry_facts.table_wf.
  - reflexivity.
  - apply (readable_scalar false registry.ip4 _ (str "1.2.3.4"));
      try reflexivity; constructor.
  - reflexivity.
  - apply (readable_scalar true registry.tcp _ (str "80"));
      try reflexivity; constructor.
Defined.

(** C4 as stated fails on valid addresses, in three ways. With the
    path-like protocol [unix] as last component of the outer address, the
    inner string is swallowed by the path, and the result has one tuple,
    of which the inner tuple is no suffix. With a domain name that holds
    the separator, the string of the outer address does not parse back,
    and [encapsulate] throws. With a path-like component before the last
    one of the inner address, the rest of the inner string is swallowed
    by the path. *)
Lemma encapsulate_appends_counterexample :
  (let outer := {| buffer := hex [0x90; 0x03; 0x01; 0x61]%N |} in
   let inner := {| buffer := hex [0x04; 0x01; 0x02; 0x03; 0x04]%N |} in
   multiaddr.new registry.table (JString (str "/unix/a")) = Ok outer
   /\ multiaddr.new registry.table (JString (str "/ip4/1.2.3.4")) = Ok inner
   /\ valid registry.table outer /\ valid registry.table inner
   /\ multiaddr.tuples registry.table outer = Ok [(400%N, hex [0x61]%N)]
   /\ multiaddr.tuples registry.table inner = Ok [(4%N, hex [0x01; 0x02; 0x03; 0x04]%N)]
   /\ (let* r := multiaddr.encapsulate registry.table outer inner in
       multiaddr.tuples registry.table r)
      = Ok [(400%N, map byte_of_ascii (str "a/ip4/1.2.3.4"))]
   /\ ~ (exists r tO tI,
           multiaddr.encapsulate registry.table outer inner = Ok r
           /\ multiaddr.tuples registry.table outer = Ok tO
           /\ multiaddr.tuples registry.table inner = Ok tI
           /\ multiaddr.tuples registry.table r = Ok (tO ++ tI)))
  /\ (let outer := {| buffer := hex [0x36; 0x03; 0x61; 0x2f; 0x62]%N |} in
      let inner := {| buffer := hex [0x06; 0x00; 0x50]%N |} in
      valid registry.table outer /\ valid registry.table inner
      /\ multiaddr.toString registry.table outer = Ok (str "/dns4/a/b")
      /\ multiaddr.toString registry.table inner = Ok (str "/tcp/80")
      /\ multiaddr.encapsulate registry.table outer inner = Err UnknownProtocol)
  /\ (let outer := {| buffer := hex [0x04; 0x01; 0x02; 0x03; 0x04]%N |} in
      let inner := {| buffer := hex [0x90; 0x03; 0x01; 0x61; 0x06; 0x00; 0x50]%N |} in
      valid registry.table outer /\ valid registry.table inner
      /\ multiaddr.toString registry.table inner = Ok (str "/unix/a/tcp/80")
      /\ multiaddr.tuples registry.table outer = Ok [(4%N, hex [0x01; 0x02; 0x03; 0x04]%N)]
      /\ multiaddr.tuples registry.table inner
         = Ok [(400%N, hex [0x61]%N); (6%N, hex [0x00; 0x50]%N)]
      /\ (let* r := multiaddr.encapsulate registry.table outer inner in
          multiaddr.tuples registry.table r)
         = Ok [(4%N, hex [0x01; 0x02; 0x03; 0x04]%N);
               (400%N, map byte_of_ascii (str "a/tcp/80"))]
      /\ ~ (exists r tO tI,
              multiaddr.encapsulate registry.table outer inner = Ok r
              /\ multiaddr.tuples registry.table outer = Ok tO
              /\ multiaddr.tuples registry.table inner = Ok tI
              /\ multiaddr.tuples registry.table r = Ok (tO ++ tI))).
Proof.
  split; [|split].
  - repeat (split; [vm_compute; reflexivity |]).
    intros (r & tO & tI & Hr & HO & HI & Ht).
    vm_compute in Hr. injection Hr as <-.
    vm_compute in HO. injection HO as <-.
    vm_compute in HI. injection HI as <-.
    vm_compute in Ht. discriminate.
  - repeat split; vm_compute; reflexivity.
  - repeat (split; [vm_compute; reflexivity |]).
    intros (r & tO & tI & Hr & HO & HI & Ht).
    vm_compute in Hr. injection Hr as <-.
    vm_compute in HO. injection HO as <-.
    vm_compute in HI. injection HI as <-.
    vm_compute in Ht. discriminate.
Qed.

(** C5, as the code has it: two addresses are equal exactly when their
    byte sequences are, and equality is reflexive and symmetric. An
    address built from a string and an address built from bytes are equal
    exactly when they have the same tuples and the bytes are the
    canonical bytes of these tuples, the ones that [fromTuples] writes. *)
Theorem equals_bytes (table : list Protocol) :
  registry_wf table ->
  (forall a b, multiaddr.equals a b = true <-> buffer a = buffer b)
  /\ (forall a, multiaddr.equals a a = true)
  /\ (forall a b, multiaddr.equals a b = multiaddr.equals b a)
  /\ (forall s b a a' ts,
        multiaddr.new table (JString s) = Ok a ->
        multiaddr.new table (JBuffer b) = Ok a' ->
        multiaddr.tuples table a = Ok ts ->
        (multiaddr.equals a a' = true
         <-> multiaddr.tuples table a' = Ok ts
             /\ codec.tuplesToBuffer table ts = Ok b)).
Proof.
  intros Hwf. unfold multiaddr.equals. split; [|split; [|split]].
  - intros a b. apply bool_decide_eq_true.
  - intros a. now apply bool_decide_eq_true_2.
  - intros a b. apply bool_decide_ext. split; congruence.
  - intros s b a a' ts Ha Ha' Hts.
    apply composition_facts.new_string_buffer in Ha.
    apply (address_facts.fromString_components table Hwf) in Ha
      as (cs & Hcs & Hbuf).
    pose proof (composition_facts.tuplesToBuffer_encodeAll table Hwf cs Hcs) as Hback.
    unfold multiaddr.tuples in *. rewrite Hbuf in Hts.
    rewrite Hts in Hback. cbn [bind] in Hback. rewrite <- Hbuf in Hback, Hts.
    assert (buffer a' = b) as Hb.
    { unfold multiaddr.new in Ha'. cbn [falsy] in Ha'. unfold codec.fromBuffer in Ha'.
      destruct (codec.walk table _ _ b); [|discriminate].
      cbn [bind] in Ha'. now injection Ha' as <-. }
    rewrite bool_decide_eq_true, Hback, Hb. split.
    + intros E. rewrite <- E. split; [exact Hts | reflexivity].
    + intros [_ E]. congruence.
Qed.

Lemma equals_bytes_witness :
  multiaddr.equals
    {| buffer := hex [0x04; 0x7f; 0x00; 0x00; 0x01; 0x06; 0x0f; 0xa1]%N |}
    {| buffer := hex [0x04; 0x7f; 0x00; 0x00; 0x01; 0x06; 0x0f; 0xa1]%N |} = true
  <-> multiaddr.tuples registry.table
        {| buffer := hex [0x04; 0x7f; 0x00; 0x00; 0x01; 0x06; 0x0f; 0xa1]%N |}
      = Ok [(4%N, hex [0x7f; 0x00; 0x00; 0x01]%N); (6%N, hex [0x0f; 0xa1]%N)]
      /\ codec.tuplesToBuffer registry.table
           [(4%N, hex [0x7f; 0x00; 0x00; 0x01]%N); (6%N, hex [0x0f; 0xa1]%N)]
         = Ok (hex [0x04; 0x7f; 0x00; 0x00; 0x01; 0x06; 0x0f; 0xa1]%N).
Proof.
  apply (proj2 (proj2 (proj2 (equals_bytes registry.table registry_facts.table_wf)))
           (str "/ip4/127.0.0.1/tcp/4001")
           (hex [0x04; 0x7f; 0x00; 0x00; 0x01; 0x06; 0x0f; 0xa1]%N)
           {| buffer := hex [0x04; 0x7f; 0x00; 0x00; 0x01; 0x06; 0x0f; 0xa1]%N |}
           {| buffer := hex [0x04; 0x7f; 0x00; 0x00; 0x01; 0x06; 0x0f; 0xa1]%N |}
           [(4%N, hex [0x7f; 0x00; 0x00; 0x01]%N); (6%N, hex [0x0f; 0xa1]%N)]);
    vm_compute; reflexivity.
Defined.

(** C5 as stated fails: the string ["/ip4/1.2.3.4"] and the bytes
    [84 00 01 02 03 04], which write the code 4 as a varint of two bytes,
    are the same logical address, with the same string and the same
    tuples; the constructor accepts both, and the two instances are not
    equal. *)
Lemma equals_bytes_counterexample :
  let a := {| buffer := hex [0x04; 0x01; 0x02; 0x03; 0x04]%N |} in
  let a' := {| buffer := hex [0x84; 0x00; 0x01; 0x02; 0x03; 0x04]%N |} in
  multiaddr.new registry.table (JString (str "/ip4/1.2.3.4")) = Ok a
  /\ multiaddr.new registry.table (JBuffer (hex [0x84; 0x00; 0x01; 0x02; 0x03; 0x04]%N))
     = Ok a'
  /\ multiaddr.toString registry.table a = Ok (str "/ip4/1.2.3.4")
  /\ multiaddr.toString registry.table a' = Ok (str "/ip4/1.2.3.4")
  /\ multiaddr.tuples registry.table a = Ok [(4%N, hex [0x01; 0x02; 0x03; 0x04]%N)]
  /\ multiaddr.tuples registry.table a' = Ok [(4%N, hex [0x01; 0x02; 0x03; 0x04]%N)]
  /\ multiaddr.equals a a' = false.
Proof. repeat split; vm_compute; reflexivity. Qed.

(** C6: an address is thin-waist exactly when it has two components, the
    first with the code of IPv4 (4) or IPv6 (41), the second with the code
    of tcp (6) or udp (17). [nodeAddress] fails on every other address, and
    on a thin-waist address it answers with the family of the first
    component, the text of its value as the host, and the text of the
    second value as the port. *)
Theorem thin_waist (table : list Protocol) (a : Multiaddr) :
  registry_wf table -> valid table a ->
  (multiaddr.isThinWaistAddress table a None = Ok true
   <-> exists c1 v1 c2 v2,
         multiaddr.tuples table a = Ok [(c1, v1); (c2, v2)]
         /\ (c1 = 4 \/ c1 = 41)%N /\ (c2 = 6 \/ c2 = 17)%N)
  /\ (multiaddr.isThinWaistAddress table a None <> Ok true ->
      multiaddr.nodeAddress table a = Err NotThinWaist)
  /\ (forall p1 v1 p2 v2 d1 d2,
        multiaddr.isThinWaistAddress table a None = Ok true ->
        multiaddr.protos table a = Ok [p1; p2] ->
        multiaddr.tuples table a = Ok [(code p1, v1); (code p2, v2)] ->
        hasValue p1 = true -> hasValue p2 = true ->
        toDisplay p1 v1 = Some d1 -> toDisplay p2 v2 = Some d2 ->
        slashFree d1 = true -> slashFree d2 = true ->
        multiaddr.nodeAddress table a
        = Ok {| na_family := if (code p1 =? 41)%N then str "IPv6" else str "IPv4";
                na_address := Some d1;
                na_port := Some d2 |}).
Proof.
  intros Hwf Hvalid.
  destruct (address_facts.valid_components table a Hvalid) as [cs Hcs].
  destruct (address_facts.views_of_components table a cs Hcs)
    as (Hcodes & Hprotos & Htuples & Hstring).
  pose proof (thin_waist_facts.isThinWaistAddress_protos table a _ Hprotos) as Hthin.
  split; [|split].
  - rewrite Hthin, Htuples. split.
    + intros [= H].
      destruct cs as [|[p1 v1] [|[p2 v2] [|c3 cs]]]; try discriminate.
      cbn [map fst snd thinShape] in *.
      apply andb_prop in H as [H1 H2].
      apply orb_prop in H1. apply orb_prop in H2.
      rewrite !N.eqb_eq in H1, H2.
      exists (code p1), v1, (code p2), v2. auto.
    + intros (c1 & v1 & c2 & v2 & [= H] & H1 & H2).
      destruct cs as [|[p1 w1] [|[p2 w2] [|c3 cs]]]; try discriminate.
      cbn [map fst snd thinShape] in *.
      injection H as <- _ <- _. f_equal.
      apply andb_true_intro. split; apply orb_true_intro;
        rewrite !N.eqb_eq; assumption.
  - intros Hnot. unfold multiaddr.nodeAddress. rewrite Hthin in *. cbn [bind].
    destruct (thinShape (map fst cs)); [congruence | reflexivity].
  - intros p1 v1 p2 v2 d1 d2 Hyes Hp Ht Hv1 Hv2 Hd1 Hd2 Hs1 Hs2.
    rewrite Hprotos in Hp. rewrite Htuples in Ht.
    destruct cs as [|[q1 w1] [|[q2 w2] [|c3 cs]]]; try discriminate.
    cbn [map fst snd] in *.
    injection Hp as -> ->. injection Ht as -> ->.
    unfold multiaddr.nodeAddress. rewrite Hyes, Hcodes, Hstring. cbn [bind negb map fst].
    cbn [mapM fst snd]. unfold codec.renderTuple.
    rewrite Hv1, Hv2, Hd1, Hd2. cbn [orThrow bind].
    apply address_facts.components_resolved in Hcs.
    inversion Hcs as [|? ? Hr1 Hcs']; subst. inversion Hcs' as [|? ? Hr2 _]; subst.
    cbn [fst] in Hr1, Hr2.
    apply find_some in Hr1 as [Hin1 _]. apply find_some in Hr2 as [Hin2 _].
    pose proof (wf_name_segment _ Hwf p1 Hin1) as Hn1.
    pose proof (wf_name_segment _ Hwf p2 Hin2) as Hn2.
    rewrite thin_waist_facts.split_two_components by assumption.
    cbn [drop lookup list_lookup].
    f_equal. f_equal.
    destruct (code p1 =? 41)%N eqn:E.
    + apply N.eqb_eq in E. rewrite E. now rewrite bool_decide_eq_true_2.
    + apply N.eqb_neq in E. rewrite bool_decide_eq_false_2; [reflexivity | congruence].
Qed.

Lemma thin_waist_witness :
  multiaddr.nodeAddress registry.table
    {| buffer := hex [0x04; 0x7f; 0x00; 0x00; 0x01; 0x06; 0x0f; 0xa1]%N |}
  = Ok {| na_family := str "IPv4";
          na_address := Some (str "127.0.0.1");
          na_port := Some (str "4001") |}.
Proof.
  apply (proj2 (proj2
           (thin_waist registry.table
              {| buffer := hex [0x04; 0x7f; 0x00; 0x00; 0x01; 0x06; 0x0f; 0xa1]%N |}
              registry_facts.table_wf ltac:(vm_compute; reflexivity)))
           registry.ip4 (hex [0x7f; 0x00; 0x00; 0x01]%N)
           registry.tcp (hex [0x0f; 0xa1]%N)
           (str "127.0.0.1") (str "4001"));
    vm_compute; reflexivity.
Defined.

(** C7: the address built from ["/ip4/127.0.0.1/tcp/4001"] has the bytes
    [04 7f 00 00 01 06 0f a1]: the one-byte varint of code 4 and the four
    bytes of the IPv4 value, then the one-byte varint of code 6 and the
    port [4001 = 0x0fa1] on two bytes, high byte first. Its protocol codes
    are [4, 6] and its protocol names ["ip4", "tcp"]. *)
Theorem ip4_tcp_example :
  let a := {| buffer := hex [0x04; 0x7f; 0x00; 0x00; 0x01; 0x06; 0x0f; 0xa1]%N |} in
  multiaddr.new registry.table (JString (str "/ip4/127.0.0.1/tcp/4001")) = Ok a
  /\ map Byte.to_N (buffer a) = [0x04; 0x7f; 0x00; 0x00; 0x01; 0x06; 0x0f; 0xa1]%N
  /\ varint.encode 4 = hex [0x04]%N
  /\ varint.encode 6 = hex [0x06]%N
  /\ multiaddr.tuples registry.table a
     = Ok [(4%N, hex [0x7f; 0x00; 0x00; 0x01]%N); (6%N, hex [0x0f; 0xa1]%N)]
  /\ (0x0f * 256 + 0xa1 = 4001)%N
  /\ multiaddr.protoCodes registry.table a = Ok [4%N; 6%N]
  /\ multiaddr.protoNames registry.table a = Ok [str "ip4"; str "tcp"].
Proof. repeat split; vm_compute; reflexivity. Qed.

(** C8: [toOptions] of ["/ip4/127.0.0.1/tcp/4001"] is the record with
    family ["ipv4"], host ["127.0.0.1"], transport ["tcp"] and port
    ["4001"]. *)
Theorem toOptions_example :
  (let* a := multiaddr.new registry.table (JString (str "/ip4/127.0.0.1/tcp/4001")) in
   multiaddr.toOptions registry.table a)
  = Ok {| opt_family := str "ipv4";
          opt_host := Some (str "127.0.0.1");
          opt_transport := Some (str "tcp");
          opt_port := Some (str "4001") |}.
Proof. vm_compute. reflexivity. Qed.

(** C9: the constructor applied to no argument or to any falsy input
    ([undefined], [null], the empty string, ...) succeeds and yields the
    empty address, the one built from the string [""]. *)
Theorem new_falsy (table : list Protocol) (v : JsValue) :
  falsy v = true ->
  multiaddr.new table v = Ok {| buffer := [] |}
  /\ multiaddr.new table v = multiaddr.new table (JString [])
  /\ (forall a, multiaddr.new table (JString []) = Ok a ->
                multiaddr.equals a {| buffer := [] |} = true).
Proof.
  intros Hv. unfold multiaddr.new. rewrite Hv. cbn. repeat split.
  intros a [= <-]. reflexivity.
Qed.

Lemma new_falsy_witness :
  (multiaddr.new registry.table JUndefined = Ok {| buffer := [] |}
   /\ multiaddr.new registry.table JNull = Ok {| buffer := [] |})
  /\ multiaddr.new registry.table (JString []) = Ok {| buffer := [] |}.
Proof.
  split; [split |].
  - apply (new_falsy registry.table JUndefined). reflexivity.
  - apply (new_falsy registry.table JNull). reflexivity.
  - apply (new_falsy registry.table (JString [])). reflexivity.
Defined.

(** C10: [protos()] returns fresh copies. The records it returns are new
    objects that hold, in order, the contents of the registry's records
    for the protocol codes of the address; whatever a caller writes to
    them, the registry's records are left as they were, and a later call
    of [protos()] on the same or on an equal address returns new records
    with the original contents. *)
Theorem protos_copies (codes : gmap N nat) (h h1 : gmap nat Protocol)
    (a : Multiaddr) (ls : list nat) :
  objects.registered codes h ->
  objects.protos codes h a = Ok (ls, h1) ->
  (forall l, l ∈ ls -> h !! l = None)
  /\ (forall c r, codes !! c = Some r -> r ∉ ls)
  /\ exists cs,
       multiaddr.protoCodes_with
         (fun c => let* l := objects.protocols codes c in objects.read h l) a = Ok cs
       /\ map (fun l => h1 !! l) ls = map (recordOf codes h) cs
       /\ Forall (fun c => is_Some (recordOf codes h c)) cs
       /\ forall h2,
            objects.mutates ls h1 h2 ->
            (forall c r, codes !! c = Some r -> h2 !! r = h !! r)
            /\ forall a',
                 multiaddr.equals a a' = true ->
                 exists ls' h3,
                   objects.protos codes h2 a' = Ok (ls', h3)
                   /\ map (fun l => h3 !! l) ls' = map (fun l => h1 !! l) ls
                   /\ map (fun l => h3 !! l) ls' = map (recordOf codes h) cs
                   /\ (forall l, l ∈ ls' -> l ∉ ls).
Proof.
  intros Hreg Hprotos. unfold objects.protos in Hprotos.
  apply bind_Ok in Hprotos as (cs & Hcs & Hext).
  destruct (objects_facts.mapExtend_spec codes cs h ls h1 Hreg Hext)
    as (Hnew & Hkeep & Hcontents & Hknown).
  assert (forall c r, codes !! c = Some r -> r ∉ ls) as Hdisj.
  { intros c r Hc Hin. destruct (Hreg c r Hc) as [o Ho].
    destruct (Hnew r Hin) as [Hnone _]. congruence. }
  split; [intros l Hl; now apply Hnew |]. split; [exact Hdisj |].
  exists cs. split; [exact Hcs |]. split; [exact Hcontents |]. split.
  { eapply Forall_impl; [exact Hknown |]. intros c [r Hc]. unfold recordOf.
    rewrite Hc. now apply (Hreg c). }
  intros h2 Hmut.
  assert (forall c r, codes !! c = Some r -> h2 !! r = h !! r) as Hsame.
  { intros c r Hc.
    rewrite (objects_facts.mutates_frame ls h1 h2 Hmut r (Hdisj c r Hc)).
    apply Hkeep. now apply (Hreg c). }
  split; [exact Hsame |].
  intros a' Heq. apply bool_decide_eq_true in Heq.
  assert (objects.registered codes h2) as Hreg2.
  { intros c r Hc. rewrite (Hsame c r Hc). now apply (Hreg c). }
  destruct (objects_facts.mapExtend_total codes cs h2 Hreg2 Hknown)
    as (ls' & h3 & Hext2).
  exists ls', h3.
  destruct (objects_facts.mapExtend_spec codes cs h2 ls' h3 Hreg2 Hext2)
    as (Hnew2 & _ & Hcontents2 & _).
  assert (map (fun l => h3 !! l) ls' = map (recordOf codes h) cs) as Horig.
  { rewrite Hcontents2. apply map_ext_in. intros c _. unfold recordOf.
    destruct (codes !! c) as [r|] eqn:Hc; [|reflexivity].
    now apply (Hsame c). }
  split; [|split; [|split]].
  - unfold objects.protos, multiaddr.protoCodes_with in *. rewrite <- Heq.
    rewrite (objects_facts.protoCodes_loop_ext
               (fun c => let* l := objects.protocols codes c in objects.read h2 l)
               (fun c => let* l := objects.protocols codes c in objects.read h l)).
    + rewrite Hcs. cbn [bind]. exact Hext2.
    + intros c. unfold objects.protocols, objects.read.
      destruct (codes !! c) as [r|] eqn:Hc; [|reflexivity].
      cbn [orThrow bind]. now rewrite (Hsame c r Hc).
  - now rewrite Horig, Hcontents.
  - exact Horig.
  - intros l Hl' Hl.
    destruct (Hnew2 l Hl') as [Hnone _].
    destruct (Hnew l Hl) as [_ Hsome].
    apply (objects_facts.mutates_dom ls h1 h2 Hmut) in Hsome as [o Ho].
    congruence.
Qed.

Lemma protos_copies_witness :
  let a := {| buffer := hex [0x04; 0x7f; 0x00; 0x00; 0x01; 0x06; 0x0f; 0xa1]%N |} in
  let ls := [7; 8]%nat in
  let h1 := <[8%nat := registry.tcp]> (<[7%nat := registry.ip4]> registry.records) in
  (forall l, l ∈ ls -> registry.records !! l = None)
  /\ (forall c r, registry.codes !! c = Some r -> r ∉ ls)
  /\ exists cs,
       multiaddr.protoCodes_with
         (fun c => let* l := objects.protocols registry.codes c in
                   objects.read registry.records l) a = Ok cs
       /\ map (fun l => h1 !! l) ls = map (recordOf registry.codes registry.records) cs
       /\ Forall (fun c => is_Some (recordOf registry.codes registry.records c)) cs
       /\ forall h2,
            objects.mutates ls h1 h2 ->
            (forall c r, registry.codes !! c = Some r -> h2 !! r = registry.records !! r)
            /\ forall a',
                 multiaddr.equals a a' = true ->
                 exists ls' h3,
                   objects.protos registry.codes h2 a' = Ok (ls', h3)
                   /\ map (fun l => h3 !! l) ls' = map (fun l => h1 !! l) ls
                   /\ map (fun l => h3 !! l) ls'
                      = map (recordOf registry.codes registry.records) cs
                   /\ (forall l, l ∈ ls' -> l ∉ ls).
Proof.
  apply (protos_copies registry.codes registry.records).
  - intros c r H. apply elem_of_list_to_map_2 in H.
    vm_compute imap in H.
    repeat (apply elem_of_cons in H as [[= -> ->] | H]; [eexists; reflexivity |]).
    inversion H.
  - reflexivity.
Defined.

(** * Further properties of [index.js] *)

(** ** Views of an address *)

Module view_facts.
Import JsString_facts address_facts.

Section WithRegistry.
Variable table : list Protocol.

(** Every iteration of the loop of [protoCodes] reads at least one byte,
    so there are no more codes than bytes left. *)
Lemma protoCodes_loop_length (protocols : N -> Result Protocol) (n : nat) :
  forall buf i codes,
    multiaddr.protoCodes_loop protocols n buf i = Ok codes ->
    (length codes <= length buf - i)%nat.
Proof.
  induction n as [|n IH]; intros buf i codes H; cbn [multiaddr.protoCodes_loop] in H.
  - destruct (i <? length buf)%nat; injection H as <-; simpl; lia.
  - destruct (i <? length buf)%nat eqn:E; [|injection H as <-; simpl; lia].
    apply Nat.ltb_lt in E.
    destruct (varint.decode buf i) as [[c k]|] eqn:Hdec; [|discriminate].
    cbn [orThrow bind] in H.
    destruct (protocols c) as [p|]; [|discriminate]. cbn [bind] in H.
    destruct (codec.sizeForAddr p _) as [sz|]; [|discriminate]. cbn [bind] in H.
    destruct (multiaddr.protoCodes_loop protocols n buf (i + (sz + k))) as [tl|] eqn:Htl;
      [|discriminate].
    injection H as <-. apply IH in Htl.
    unfold varint.decode in Hdec. apply varint_facts.decode_loop_bytes in Hdec.
    simpl. lia.
Qed.

(** The text of a sequence of components is empty or starts with the
    separator. *)
Lemma render_headed (cs : list (Protocol * bytes)) (parts : list jsstring) :
  mapM (fun c => codec.renderTuple (fst c) (snd c)) cs = Ok parts ->
  headed (concat parts).
Proof.
  destruct cs as [|[p v] cs]; cbn [mapM fst snd].
  - intros [= <-]. exact I.
  - intros H. apply bind_Ok in H as (x & Hx & H).
    apply bind_Ok in H as (tl & _ & [= <-]).
    unfold codec.renderTuple in Hx. destruct (hasValue p).
    + apply bind_Ok in Hx as (d & _ & [= <-]). reflexivity.
    + injection Hx as <-. reflexivity.
Qed.

(** The components behind the two views [protos()] and [tuples()]. *)
Lemma components_of_views (a : Multiaddr) ps ts :
  valid table a ->
  multiaddr.protos table a = Ok ps ->
  multiaddr.tuples table a = Ok ts ->
  components table (buffer a) = Ok (combine ps (map snd ts))
  /\ length ps = length ts.
Proof.
  intros Hvalid Hp Ht.
  destruct (valid_components table a Hvalid) as [cs Hcs].
  destruct (views_of_components table a cs Hcs) as (_ & Hprotos & Htuples & _).
  rewrite Hprotos in Hp. rewrite Htuples in Ht.
  injection Hp as <-. injection Ht as <-.
  rewrite Hcs, map_map. cbn [snd]. rewrite !length_map. split; [|reflexivity].
  f_equal. clear. induction cs as [|[p v] cs IH]; [reflexivity |].
  cbn [map combine fst snd]. now rewrite <- IH.
Qed.

Hypothesis Hwf : registry_wf table.

(** The string and its segments for an address of two components with
    values. *)
Lemma toString_two (a : Multiaddr) p1 v1 p2 v2 d1 d2 :
  components table (buffer a) = Ok [(p1, v1); (p2, v2)] ->
  hasValue p1 = true -> hasValue p2 = true ->
  toDisplay p1 v1 = Some d1 -> toDisplay p2 v2 = Some d2 ->
  slashFree d1 = true -> slashFree d2 = true ->
  multiaddr.toString table a
  = Ok (concat [slash :: name p1 ++ slash :: d1; slash :: name p2 ++ slash :: d2])
  /\ JsString.split slash
       (concat [slash :: name p1 ++ slash :: d1; slash :: name p2 ++ slash :: d2])
     = [[]; name p1; d1; name p2; d2].
Proof.
  intros Hcs Hv1 Hv2 Hd1 Hd2 Hs1 Hs2.
  destruct (views_of_components table a _ Hcs) as (_ & _ & _ & Hstring).
  split.
  - rewrite Hstring. cbn [mapM fst snd]. unfold codec.renderTuple.
    now rewrite Hv1, Hv2, Hd1, Hd2.
  - apply components_fit in Hcs.
    inversion Hcs as [|? ? [Hin1 _] Hcs']; subst.
    inversion Hcs' as [|? ? [Hin2 _] _]; subst. cbn [fst] in *.
    apply thin_waist_facts.split_two_components; trivial.
    + exact (wf_name_segment table Hwf p1 Hin1).
    + exact (wf_name_segment table Hwf p2 Hin2).
Qed.

(** [nodeAddress] on a thin-waist address of two components with values. *)
Lemma nodeAddress_two (a : Multiaddr) p1 v1 p2 v2 d1 d2 :
  components table (buffer a) = Ok [(p1, v1); (p2, v2)] ->
  thinShape [p1; p2] = true ->
  hasValue p1 = true -> hasValue p2 = true ->
  toDisplay p1 v1 = Some d1 -> toDisplay p2 v2 = Some d2 ->
  slashFree d1 = true -> slashFree d2 = true ->
  multiaddr.nodeAddress table a
  = Ok {| na_family := if (code p1 =? 41)%N then str "IPv6" else str "IPv4";
          na_address := Some d1;
          na_port := Some d2 |}.
Proof.
  intros Hcs Hthin Hv1 Hv2 Hd1 Hd2 Hs1 Hs2.
  destruct (toString_two a p1 v1 p2 v2 d1 d2 Hcs Hv1 Hv2 Hd1 Hd2 Hs1 Hs2)
    as [Hstr Hsplit].
  destruct (views_of_components table a _ Hcs) as (Hcodes & Hprotos & _ & _).
  unfold multiaddr.nodeAddress.
  rewrite (thin_waist_facts.isThinWaistAddress_protos table a _ Hprotos).
  cbn [map fst] in *. rewrite Hthin, Hcodes, Hstr. cbn [bind negb].
  rewrite Hsplit. cbn [drop lookup list_lookup].
  f_equal. f_equal.
  destruct (code p1 =? 41)%N eqn:E.
  - apply N.eqb_eq in E. rewrite E. now rewrite bool_decide_eq_true_2.
  - apply N.eqb_neq in E. rewrite bool_decide_eq_false_2; [reflexivity | congruence].
Qed.

End WithRegistry.
End view_facts.

(** ** The constructor *)

(** X1: the constructor throws its own error, "addr must be a string,
    Buffer, or another Multiaddr", exactly for the truthy arguments that
    are none of the three; a string, a Buffer or a Multiaddr never gets
    this error, whatever the codec says about it. *)
Theorem new_rejects (table : list Protocol) (v : JsValue) :
  multiaddr.new table v = Err BadArgument
  <-> falsy v = false
      /\ match v with
         | JString _ | JBuffer _ | JMultiaddr _ => False
         | _ => True
         end.
Proof.
  assert (forall s, (let* buf := codec.fromString table s in Ok {| buffer := buf |})
                    <> Err BadArgument) as Hstr.
  { intros s H. destruct (codec.fromString table s) as [b|e] eqn:E; [discriminate |].
    apply address_facts.fromString_error in E. cbn [bind] in H.
    injection H as ->. intuition discriminate. }
  assert (forall b, (let* buf := codec.fromBuffer table b in Ok {| buffer := buf |})
                    <> Err BadArgument) as Hbuf.
  { intros b H. unfold codec.fromBuffer in H.
    destruct (codec.walk table _ _ b); discriminate. }
  unfold multiaddr.new.
  destruct v as [| | [|] | z | | [|c s] | b | m |]; cbn [falsy negb];
    try (split; [intros H; exfalso; revert H; (apply Hstr || apply Hbuf)
                | intros [H1 H2]; (discriminate || contradiction)]);
    try (split; [split; [reflexivity | exact I] | reflexivity]).
  destruct (z =? 0)%Z eqn:E.
  - split; [intros H; exfalso; revert H; apply Hstr | intros [H1 H2]; discriminate].
  - split; [split; [reflexivity | exact I] | reflexivity].
Qed.

(** X2: what the constructor has built it accepts again, as a Multiaddr
    ("validate + copy buffer") and as a Buffer, and the copy holds the same
    bytes. *)
Theorem new_copies (table : list Protocol) (v : JsValue) (a : Multiaddr) :
  registry_wf table ->
  multiaddr.new table v = Ok a ->
  multiaddr.new table (JMultiaddr a) = Ok a
  /\ multiaddr.new table (JBuffer (buffer a)) = Ok a.
Proof.
  intros Hwf Hnew. apply (address_facts.new_valid table Hwf) in Hnew.
  unfold valid in Hnew. unfold multiaddr.new. cbn [falsy].
  rewrite Hnew. cbn [bind]. now destruct a.
Qed.

Lemma new_copies_witness :
  multiaddr.new registry.table
    (JMultiaddr {| buffer := hex [0x04; 0x7f; 0x00; 0x00; 0x01; 0x06; 0x0f; 0xa1]%N |})
  = Ok {| buffer := hex [0x04; 0x7f; 0x00; 0x00; 0x01; 0x06; 0x0f; 0xa1]%N |}
  /\ multiaddr.new registry.table
       (JBuffer (hex [0x04; 0x7f; 0x00; 0x00; 0x01; 0x06; 0x0f; 0xa1]%N))
     = Ok {| buffer := hex [0x04; 0x7f; 0x00; 0x00; 0x01; 0x06; 0x0f; 0xa1]%N |}.
Proof.
  apply (new_copies registry.table (JString (str "/ip4/127.0.0.1/tcp/4001"))
           {| buffer := hex [0x04; 0x7f; 0x00; 0x00; 0x01; 0x06; 0x0f; 0xa1]%N |}).
  - exact registry_facts.table_wf.
  - vm_compute. reflexivity.
Defined.

(** ** The protocol views *)

(** X3: on a valid address [protos()], [protoCodes()], [protoNames()] and
    [tuples()] all return, and they list the same components in the same
    order: the codes are the codes of the descriptors and of the tuples,
    the names are the names of the descriptors, and every descriptor is
    the registry's entry for its code. *)
Theorem views_agree (table : list Protocol) (a : Multiaddr) :
  valid table a ->
  exists ps ts,
    multiaddr.protos table a = Ok ps
    /\ multiaddr.tuples table a = Ok ts
    /\ multiaddr.protoCodes table a = Ok (map code ps)
    /\ multiaddr.protoNames table a = Ok (map name ps)
    /\ map fst ts = map code ps
    /\ Forall (fun p => In p table /\ byCode table (code p) = Ok p) ps.
Proof.
  intros Hvalid.
  destruct (address_facts.valid_components table a Hvalid) as [cs Hcs].
  destruct (address_facts.views_of_components table a cs Hcs)
    as (Hcodes & Hprotos & Htuples & _).
  exists (map fst cs), (map (fun c => (code (fst c), snd c)) cs).
  rewrite !map_map. cbn [fst].
  split; [exact Hprotos |]. split; [exact Htuples |].
  split; [exact Hcodes |]. split; [|split; [reflexivity |]].
  - unfold multiaddr.protoNames. rewrite Hprotos. cbn [bind]. now rewrite map_map.
  - apply address_facts.components_resolved in Hcs.
    apply List.Forall_map. eapply Forall_impl; [exact Hcs |].
    intros [p v] Hres. cbn [fst] in *. unfold resolved in Hres. split.
    + now apply find_some in Hres.
    + unfold byCode. now rewrite Hres.
Qed.

Lemma views_agree_witness :
  exists ps ts,
    multiaddr.protos registry.table
      {| buffer := hex [0x04; 0x7f; 0x00; 0x00; 0x01; 0x06; 0x0f; 0xa1]%N |} = Ok ps
    /\ multiaddr.tuples registry.table
         {| buffer := hex [0x04; 0x7f; 0x00; 0x00; 0x01; 0x06; 0x0f; 0xa1]%N |} = Ok ts
    /\ multiaddr.protoCodes registry.table
         {| buffer := hex [0x04; 0x7f; 0x00; 0x00; 0x01; 0x06; 0x0f; 0xa1]%N |}
       = Ok (map code ps)
    /\ multiaddr.protoNames registry.table
         {| buffer := hex [0x04; 0x7f; 0x00; 0x00; 0x01; 0x06; 0x0f; 0xa1]%N |}
       = Ok (map name ps)
    /\ map fst ts = map code ps
    /\ Forall (fun p => In p registry.table
                        /\ byCode registry.table (code p) = Ok p) ps.
Proof.
  apply (views_agree registry.table
           {| buffer := hex [0x04; 0x7f; 0x00; 0x00; 0x01; 0x06; 0x0f; 0xa1]%N |}).
  vm_compute. reflexivity.
Defined.

(** X4: [protoCodes()] never returns more codes than the buffer has
    bytes: every turn of its loop moves [i] forward by at least the byte
    of the code. *)
Theorem protoCodes_bound (table : list Protocol) (a : Multiaddr) (codes : list N) :
  multiaddr.protoCodes table a = Ok codes ->
  (length codes <= length (buffer a))%nat.
Proof.
  intros H. unfold multiaddr.protoCodes, multiaddr.protoCodes_with in H.
  apply view_facts.protoCodes_loop_length in H. lia.
Qed.

Lemma protoCodes_bound_witness :
  (length [4%N; 6%N]
   <= length (buffer {| buffer := hex [0x04; 0x7f; 0x00; 0x00; 0x01; 0x06; 0x0f; 0xa1]%N |}))%nat.
Proof.
  apply (protoCodes_bound registry.table
           {| buffer := hex [0x04; 0x7f; 0x00; 0x00; 0x01; 0x06; 0x0f; 0xa1]%N |}).
  vm_compute. reflexivity.
Defined.

(** X5: the loop of [protoCodes()] ends by itself within [buf.length]
    turns: allowing it any larger number of turns gives the same result,
    on every buffer and with every registry. *)
Theorem protoCodes_turns (table : list Protocol) (a : Multiaddr) (n : nat) :
  (length (buffer a) <= n)%nat ->
  multiaddr.protoCodes_loop (byCode table) n (buffer a) 0
  = multiaddr.protoCodes table a.
Proof.
  intros Hn. unfold multiaddr.protoCodes, multiaddr.protoCodes_with.
  apply address_facts.protoCodes_loop_fuel; lia.
Qed.

Lemma protoCodes_turns_witness :
  multiaddr.protoCodes_loop (byCode registry.table) 100
    (buffer {| buffer := hex [0x04; 0x7f; 0x00; 0x00; 0x01; 0x06; 0x0f; 0xa1]%N |}) 0
  = multiaddr.protoCodes registry.table
      {| buffer := hex [0x04; 0x7f; 0x00; 0x00; 0x01; 0x06; 0x0f; 0xa1]%N |}.
Proof.
  apply (protoCodes_turns registry.table
           {| buffer := hex [0x04; 0x7f; 0x00; 0x00; 0x01; 0x06; 0x0f; 0xa1]%N |} 100).
  vm_compute. lia.
Defined.

(** ** [toOptions], [nodeAddress] and [fromNodeAddress] *)

(** The second segment of the string of an address, [parsed[1]] in
    [toOptions], is the name of its first protocol. *)
Lemma first_segment (table : list Protocol) (a : Multiaddr)
    (cs : list (Protocol * bytes)) (s : jsstring) :
  registry_wf table ->
  components table (buffer a) = Ok cs ->
  multiaddr.toString table a = Ok s ->
  JsString.split slash s !! 1%nat = head (map (fun c => name (fst c)) cs).
Proof.
  intros Hwf Hcs Hs.
  destruct (address_facts.views_of_components table a cs Hcs) as (_ & _ & _ & Hstring).
  rewrite Hstring in Hs. apply bind_Ok in Hs as (parts & Hparts & [= <-]).
  pose proof (address_facts.components_fit table _ _ _ Hcs) as Hfit.
  destruct cs as [|[p v] cs].
  - injection Hparts as <-. reflexivity.
  - cbn [mapM fst snd] in Hparts.
    apply bind_Ok in Hparts as (x & Hx & Hparts).
    apply bind_Ok in Hparts as (tl & Htl & [= <-]).
    apply view_facts.render_headed in Htl.
    inversion Hfit as [|? ? [Hin _] _]; subst. cbn [fst] in Hin.
    pose proof (wf_name_segment table Hwf p Hin) as Hname.
    cbn [map head fst concat].
    assert (exists rest, x ++ concat tl = slash :: name p ++ rest /\ headed rest)
      as (rest & -> & Hrest).
    { unfold codec.renderTuple in Hx. destruct (hasValue p).
      - apply bind_Ok in Hx as (d & _ & [= <-]).
        exists (slash :: d ++ concat tl). split; [|reflexivity].
        cbn [app]. now rewrite <- app_assoc.
      - injection Hx as <-. now exists (concat tl). }
    cbn [JsString.split]. rewrite Ascii.eqb_refl.
    now rewrite parse_facts.split_headed.
Qed.

(** X6: [toOptions()] returns on every valid address that has a string
    form, and its [family] is 'ipv4' exactly when the first protocol is
    named 'ip4'; it is 'ipv6' for every other address, the empty one and
    those that start with a protocol that is no IP at all included. *)
Theorem toOptions_family (table : list Protocol) (a : Multiaddr)
    (s : jsstring) (names : list jsstring) :
  registry_wf table -> valid table a ->
  multiaddr.toString table a = Ok s ->
  multiaddr.protoNames table a = Ok names ->
  exists o,
    multiaddr.toOptions table a = Ok o
    /\ opt_family o = (if bool_decide (head names = Some (str "ip4"))
                       then str "ipv4" else str "ipv6").
Proof.
  intros Hwf Hvalid Hs Hnames.
  destruct (address_facts.valid_components table a Hvalid) as [cs Hcs].
  pose proof (first_segment table a cs s Hwf Hcs Hs) as Hseg.
  destruct (address_facts.views_of_components table a cs Hcs) as (_ & Hprotos & _).
  unfold multiaddr.protoNames in Hnames. rewrite Hprotos in Hnames.
  injection Hnames as <-. rewrite map_map.
  unfold multiaddr.toOptions. rewrite Hs. cbn [bind].
  eexists. split; [reflexivity |]. cbn [opt_family]. now rewrite Hseg.
Qed.

Lemma toOptions_family_witness :
  exists o,
    multiaddr.toOptions registry.table
      {| buffer := hex [0x36; 0x03; 0x61; 0x2e; 0x62; 0x06; 0x00; 0x50]%N |} = Ok o
    /\ opt_family o = (if bool_decide (head [str "dns4"; str "tcp"] = Some (str "ip4"))
                       then str "ipv4" else str "ipv6").
Proof.
  apply (toOptions_family registry.table
           {| buffer := hex [0x36; 0x03; 0x61; 0x2e; 0x62; 0x06; 0x00; 0x50]%N |}
           (str "/dns4/a.b/tcp/80") [str "dns4"; str "tcp"]).
  - exact registry_facts.table_wf.
  - vm_compute. reflexivity.
  - vm_compute. reflexivity.
  - vm_compute. reflexivity.
Defined.

(** X7: on a valid address of two components with values, [toOptions()]
    returns the two displayed values as [host] and [port] and the name of
    the second protocol as [transport]; when the address is thin-waist,
    [nodeAddress()] returns the same two values as [address] and [port].
    The family is read off the name of the first protocol by
    [toOptions()], off its code by [nodeAddress()]. *)
Theorem toOptions_nodeAddress (table : list Protocol) (a : Multiaddr)
    (p1 p2 : Protocol) (c1 c2 : N) (v1 v2 : bytes) (d1 d2 : jsstring) :
  registry_wf table -> valid table a ->
  multiaddr.protos table a = Ok [p1; p2] ->
  multiaddr.tuples table a = Ok [(c1, v1); (c2, v2)] ->
  hasValue p1 = true -> hasValue p2 = true ->
  toDisplay p1 v1 = Some d1 -> toDisplay p2 v2 = Some d2 ->
  slashFree d1 = true -> slashFree d2 = true ->
  multiaddr.toOptions table a
  = Ok {| opt_family := if bool_decide (name p1 = str "ip4")
                        then str "ipv4" else str "ipv6";
          opt_host := Some d1;
          opt_transport := Some (name p2);
          opt_port := Some d2 |}
  /\ (multiaddr.isThinWaistAddress table a None = Ok true ->
      multiaddr.nodeAddress table a
      = Ok {| na_family := if (code p1 =? 41)%N then str "IPv6" else str "IPv4";
              na_address := Some d1;
              na_port := Some d2 |}).
Proof.
  intros Hwf Hvalid Hprotos Htuples Hv1 Hv2 Hd1 Hd2 Hs1 Hs2.
  destruct (view_facts.components_of_views table a _ _ Hvalid Hprotos Htuples)
    as [Hcs _].
  cbn [map snd combine] in Hcs.
  destruct (view_facts.toString_two table Hwf a p1 v1 p2 v2 d1 d2
              Hcs Hv1 Hv2 Hd1 Hd2 Hs1 Hs2) as [Hstr Hsplit].
  split.
  - unfold multiaddr.toOptions. rewrite Hstr. cbn [bind]. rewrite Hsplit.
    cbn [lookup list_lookup]. f_equal. f_equal.
    destruct (decide (name p1 = str "ip4")) as [E|E].
    + rewrite !bool_decide_eq_true_2; congruence.
    + rewrite !bool_decide_eq_false_2; congruence.
  - intros Hthin.
    rewrite (thin_waist_facts.isThinWaistAddress_protos table a _ Hprotos) in Hthin.
    injection Hthin as Hthin.
    exact (view_facts.nodeAddress_two table Hwf a p1 v1 p2 v2 d1 d2
             Hcs Hthin Hv1 Hv2 Hd1 Hd2 Hs1 Hs2).
Qed.

Lemma toOptions_nodeAddress_witness :
  multiaddr.toOptions registry.table
    {| buffer := hex [0x04; 0x7f; 0x00; 0x00; 0x01; 0x11; 0x0f; 0xa1]%N |}
  = Ok {| opt_family := if bool_decide (name registry.ip4 = str "ip4")
                        then str "ipv4" else str "ipv6";
          opt_host := Some (str "127.0.0.1");
          opt_transport := Some (name registry.udp);
          opt_port := Some (str "4001") |}
  /\ (multiaddr.isThinWaistAddress registry.table
        {| buffer := hex [0x04; 0x7f; 0x00; 0x00; 0x01; 0x11; 0x0f; 0xa1]%N |} None
      = Ok true ->
      multiaddr.nodeAddress registry.table
        {| buffer := hex [0x04; 0x7f; 0x00; 0x00; 0x01; 0x11; 0x0f; 0xa1]%N |}
      = Ok {| na_family := if (code registry.ip4 =? 41)%N
                           then str "IPv6" else str "IPv4";
              na_address := Some (str "127.0.0.1");
              na_port := Some (str "4001") |}).
Proof.
  apply (toOptions_nodeAddress registry.table
           {| buffer := hex [0x04; 0x7f; 0x00; 0x00; 0x01; 0x11; 0x0f; 0xa1]%N |}
           registry.ip4 registry.udp 4%N 17%N
           (hex [0x7f; 0x00; 0x00; 0x01]%N) (hex [0x0f; 0xa1]%N)
           (str "127.0.0.1") (str "4001")).
  - exact registry_facts.table_wf.
  - vm_compute. reflexivity.
  - reflexivity.
  - vm_compute. reflexivity.
  - reflexivity.
  - reflexivity.
  - vm_compute. reflexivity.
  - vm_compute. reflexivity.
  - reflexivity.
  - reflexivity.
Defined.

(** X8: [fromNodeAddress] followed by [nodeAddress()] gives the node
    address back. When the registry has 'ip4' under code 4 (or, for the
    family 'IPv6', 'ip6' under code 41) and the transport under code 6 or
    17, and address and port are canonical texts of their protocols, the
    address built is thin-waist and its node address has the same address
    and port; the family comes back as 'IPv6' or, for every other input
    family, as 'IPv4'. *)
Theorem nodeAddress_fromNodeAddress (table : list Protocol)
    (n : NodeAddress) (transport : jsstring)
    (pI pT : Protocol) (dI dP : jsstring) :
  registry_wf table ->
  In pI table -> In pT table ->
  name pI = (if bool_decide (na_family n = str "IPv6") then str "ip6" else str "ip4") ->
  code pI = (if bool_decide (na_family n = str "IPv6") then 41%N else 4%N) ->
  name pT = transport -> transport <> [] ->
  code pT = 6%N \/ code pT = 17%N ->
  hasValue pI = true -> path pI = false ->
  hasValue pT = true -> path pT = false ->
  na_address n = Some dI -> na_port n = Some dP ->
  slashFree dI = true -> slashFree dP = true ->
  canonicalValue pI dI -> canonicalValue pT dP ->
  exists a,
    multiaddr.fromNodeAddress table (Some n) transport = Ok a
    /\ multiaddr.isThinWaistAddress table a None = Ok true
    /\ multiaddr.nodeAddress table a
       = Ok {| na_family := if bool_decide (na_family n = str "IPv6")
                            then str "IPv6" else str "IPv4";
               na_address := Some dI;
               na_port := Some dP |}.
Proof.
  intros Hwf HinI HinT HnameI HcodeI HnameT Hne HcodeT HvI HpI HvT HpT
         Haddr Hport HsI HsP [vI [HbI HdI]] [vP [HbP HdP]].
  set (a := {| buffer := encodeAll [(pI, vI); (pT, vP)] |}).
  assert (Forall (component table) [(pI, vI); (pT, vP)]) as Hcomp.
  { repeat constructor; cbn [fst snd]; trivial.
    - now apply (wf_fixed table Hwf pI dI vI).
    - now apply (wf_fixed table Hwf pT dP vP). }
  assert (components table (buffer a) = Ok [(pI, vI); (pT, vP)]) as Hcs.
  { unfold components. cbn [buffer a].
    rewrite (codec_facts.walk_encodeAll table Hwf) by exact Hcomp. reflexivity. }
  assert (thinShape [pI; pT] = true) as Hthin.
  { cbn [thinShape]. rewrite HcodeI.
    destruct HcodeT as [-> | ->]; now case_bool_decide. }
  exists a. split; [|split].
  - subst transport. unfold multiaddr.fromNodeAddress.
    destruct (name pT) as [|c t] eqn:Et; [congruence |]. rewrite <- Et.
    rewrite Haddr, Hport, <- HnameI. cbn [default from_option id JsString.join].
    rewrite composition_facts.new_string.
    rewrite (parse_facts.fromString_scalar table Hwf pI dI) by (simpl; trivial).
    rewrite HbI. cbn [orThrow bind].
    pose proof (parse_facts.fromString_scalar table Hwf pT dP []
                  HinT HvT HpT HsP I) as Hlast.
    rewrite app_nil_r in Hlast. rewrite Hlast, HbP.
    cbn [orThrow bind codec.fromString]. reflexivity.
  - destruct (address_facts.views_of_components table a _ Hcs) as (_ & Hprotos & _).
    rewrite (thin_waist_facts.isThinWaistAddress_protos table a _ Hprotos).
    cbn [map fst]. now rewrite Hthin.
  - rewrite (view_facts.nodeAddress_two table Hwf a pI vI pT vP dI dP)
      by assumption.
    rewrite HcodeI. now case_bool_decide.
Qed.

Lemma nodeAddress_fromNodeAddress_witness :
  exists a,
    multiaddr.fromNodeAddress registry.table
      (Some {| na_family := str "IPv4";
               na_address := Some (str "192.168.0.1");
               na_port := Some (str "1234") |}) (str "tcp") = Ok a
    /\ multiaddr.isThinWaistAddress registry.table a None = Ok true
    /\ multiaddr.nodeAddress registry.table a
       = Ok {| na_family := if bool_decide (str "IPv4" = str "IPv6")
                            then str "IPv6" else str "IPv4";
               na_address := Some (str "192.168.0.1");
               na_port := Some (str "1234") |}.
Proof.
  apply (nodeAddress_fromNodeAddress registry.table
           {| na_family := str "IPv4";
              na_address := Some (str "192.168.0.1");
              na_port := Some (str "1234") |} (str "tcp")
           registry.ip4 registry.tcp (str "192.168.0.1") (str "1234")).
  - exact registry_facts.table_wf.
  - left. reflexivity.
  - right. left. reflexivity.
  - vm_compute. reflexivity.
  - vm_compute. reflexivity.
  - reflexivity.
  - discriminate.
  - left. reflexivity.
  - reflexivity.
  - reflexivity.
  - reflexivity.
  - reflexivity.
  - reflexivity.
  - reflexivity.
  - reflexivity.
  - reflexivity.
  - exists (hex [0xc0; 0xa8; 0x00; 0x01]%N). vm_compute. split; reflexivity.
  - exists (hex [0x04; 0xd2]%N). vm_compute. split; reflexivity.
Defined.

(** ** [encapsulate] and [decapsulate] *)

Module capsule_facts.
Import parse_facts composition_facts.

Section WithRegistry.
Variable table : list Protocol.
Hypothesis Hwf : registry_wf table.

(** Canonical strings without path-like component are closed under
    concatenation. *)
Lemma canonical_app_scalar (sA sB : jsstring) :
  canonical false table sA -> canonical false table sB ->
  canonical false table (sA ++ sB).
Proof.
  induction 1 as [| p s Hin Hv Hs IH | p d s Hin Hv Hp Hd Hc Hs IH
                 | p d Hpaths Hin Hv Hp Hc]; intros HB.
  - exact HB.
  - cbn [app]. rewrite <- app_assoc. apply canonical_flag; auto.
  - cbn [app]. rewrite <- !app_assoc. cbn [app]. rewrite <- app_assoc.
    apply canonical_scalar; auto.
  - discriminate.
Qed.

(** The address built from a canonical string, and its string. *)
Lemma new_canonical (s : jsstring) (a : Multiaddr) :
  canonical true table s -> multiaddr.new table (JString s) = Ok a ->
  codec.fromString table s = Ok (buffer a)
  /\ multiaddr.toString table a = Ok s
  /\ valid table a.
Proof.
  intros Hs Ha. apply new_string_buffer in Ha.
  destruct (canonical_address table Hwf s _ Hs Ha) as (Hstr & Hval & _).
  auto.
Qed.

(** The empty address: no bytes, the empty string. *)
Lemma empty_address :
  multiaddr.new table (JMultiaddr {| buffer := [] |}) = Ok {| buffer := [] |}
  /\ multiaddr.toString table {| buffer := [] |} = Ok []
  /\ multiaddr.new table (JString []) = Ok {| buffer := [] |}.
Proof. repeat split. Qed.

End WithRegistry.
End capsule_facts.

(** X9: the empty address is neutral for [encapsulate] on both sides:
    for every canonical string, also one with a path-like component, the
    address that the constructor builds from it is returned when the
    empty address is encapsulated in it and when it is encapsulated in
    the empty address. *)
Theorem encapsulate_empty (table : list Protocol) (s : jsstring) :
  registry_wf table ->
  canonical true table s ->
  exists A,
    multiaddr.new table (JString s) = Ok A
    /\ multiaddr.encapsulate table A {| buffer := [] |} = Ok A
    /\ multiaddr.encapsulate table {| buffer := [] |} A = Ok A.
Proof.
  intros Hwf Hcan.
  destruct (transform_facts.canonical_round_trip table s Hwf Hcan) as (A & Hnew & Hs).
  exists A. split; [exact Hnew |].
  pose proof (address_facts.new_valid table Hwf _ _ Hnew) as Hvalid.
  unfold valid in Hvalid. split.
  - unfold multiaddr.encapsulate.
    destruct (capsule_facts.empty_address table) as (-> & He & _).
    cbn [bind]. rewrite Hs, He. cbn [bind]. now rewrite app_nil_r.
  - unfold multiaddr.encapsulate, multiaddr.new at 1. cbn [falsy].
    rewrite Hvalid. cbn [bind].
    destruct (capsule_facts.empty_address table) as (_ & -> & _). cbn [bind].
    replace {| buffer := buffer A |} with A by now destruct A.
    rewrite Hs. cbn [bind app]. exact Hnew.
Qed.

Lemma encapsulate_empty_witness :
  exists A,
    multiaddr.new registry.table (JString (str "/ip4/127.0.0.1/unix/a/b")) = Ok A
    /\ multiaddr.encapsulate registry.table A {| buffer := [] |} = Ok A
    /\ multiaddr.encapsulate registry.table {| buffer := [] |} A = Ok A.
Proof.
  apply (encapsulate_empty registry.table (str "/ip4/127.0.0.1/unix/a/b")).
  - exact registry_facts.table_wf.
  - apply transform_facts.grammar_canonical.
    refine (grammar_scalar registry.ip4 _ _ eq_refl
              (text_ip4 127 0 0 1 _ _ _ _)
              (grammar_path registry.unix (str "a/b") eq_refl
                 (text_unix _))); lia.
Defined.

(** X10: [encapsulate] is associative on addresses built from canonical
    strings of which the first two have no path-like component: both
    groupings return the address whose bytes are the three byte
    sequences in a row. *)
Theorem encapsulate_assoc (table : list Protocol) (A B C : Multiaddr)
    (sA sB sC : jsstring) :
  registry_wf table ->
  canonical false table sA -> multiaddr.new table (JString sA) = Ok A ->
  canonical false table sB -> multiaddr.new table (JString sB) = Ok B ->
  canonical true table sC -> multiaddr.new table (JString sC) = Ok C ->
  (let* AB := multiaddr.encapsulate table A B in multiaddr.encapsulate table AB C)
  = Ok {| buffer := buffer A ++ buffer B ++ buffer C |}
  /\ (let* BC := multiaddr.encapsulate table B C in multiaddr.encapsulate table A BC)
     = Ok {| buffer := buffer A ++ buffer B ++ buffer C |}.
Proof.
  intros Hwf HsA HA HsB HB HsC HC.
  apply composition_facts.new_string_buffer in HA, HB, HC.
  pose proof (composition_facts.canonical_weaken table sB HsB) as HsB'.
  pose proof (parse_facts.fromString_app table Hwf sA sB _ _ HsA
                (parse_facts.canonical_headed table true sB HsB') HA HB) as HAB.
  pose proof (parse_facts.fromString_app table Hwf sB sC _ _ HsB
                (parse_facts.canonical_headed table true sC HsC) HB HC) as HBC.
  split.
  - destruct (composition_facts.encapsulate_canonical table Hwf A B sA sB
                HsA HA HsB' HB) as (_ & _ & -> & _).
    cbn [bind].
    destruct (composition_facts.encapsulate_canonical table Hwf
                {| buffer := buffer A ++ buffer B |} C (sA ++ sB) sC
                (capsule_facts.canonical_app_scalar table sA sB HsA HsB) HAB HsC HC)
      as (_ & _ & -> & _).
    cbn [buffer]. now rewrite <- app_assoc.
  - destruct (composition_facts.encapsulate_canonical table Hwf B C sB sC
                HsB HB HsC HC) as (_ & _ & -> & _).
    cbn [bind].
    destruct (composition_facts.encapsulate_canonical table Hwf
                A {| buffer := buffer B ++ buffer C |} sA (sB ++ sC)
                HsA HA (composition_facts.canonical_app table sB sC HsB HsC) HBC)
      as (_ & _ & -> & _).
    reflexivity.
Qed.

Lemma encapsulate_assoc_witness :
  (let* AB := multiaddr.encapsulate registry.table
                {| buffer := hex [0x04; 0x08; 0x08; 0x08; 0x08]%N |}
                {| buffer := hex [0x06; 0x04; 0x38]%N |} in
   multiaddr.encapsulate registry.table AB {| buffer := hex [0xe0; 0x03]%N |})
  = Ok {| buffer := hex [0x04; 0x08; 0x08; 0x08; 0x08]%N
                    ++ hex [0x06; 0x04; 0x38]%N ++ hex [0xe0; 0x03]%N |}
  /\ (let* BC := multiaddr.encapsulate registry.table
                   {| buffer := hex [0x06; 0x04; 0x38]%N |}
                   {| buffer := hex [0xe0; 0x03]%N |} in
      multiaddr.encapsulate registry.table
        {| buffer := hex [0x04; 0x08; 0x08; 0x08; 0x08]%N |} BC)
     = Ok {| buffer := hex [0x04; 0x08; 0x08; 0x08; 0x08]%N
                       ++ hex [0x06; 0x04; 0x38]%N ++ hex [0xe0; 0x03]%N |}.
Proof.
  apply (encapsulate_assoc registry.table
           {| buffer := hex [0x04; 0x08; 0x08; 0x08; 0x08]%N |}
           {| buffer := hex [0x06; 0x04; 0x38]%N |}
           {| buffer := hex [0xe0; 0x03]%N |}
           (str "/ip4/8.8.8.8") (str "/tcp/1080") (str "/http")).
  - exact registry_facts.table_wf.
  - apply (canonical_scalar false registry.table registry.ip4 (str "8.8.8.8") []).
    + left. reflexivity.
    + reflexivity.
    + reflexivity.
    + reflexivity.
    + exists (hex [0x08; 0x08; 0x08; 0x08]%N). vm_compute. split; reflexivity.
    + constructor.
  - vm_compute. reflexivity.
  - apply (canonical_scalar false registry.table registry.tcp (str "1080") []).
    + right. left. reflexivity.
    + reflexivity.
    + reflexivity.
    + reflexivity.
    + exists (hex [0x04; 0x38]%N). vm_compute. split; reflexivity.
    + constructor.
  - vm_compute. reflexivity.
  - apply (canonical_flag true registry.table registry.http []).
    + do 6 right. left. reflexivity.
    + reflexivity.
    + constructor.
  - vm_compute. reflexivity.
Defined.

(** X11: decapsulating an address from itself leaves the empty address,
    whenever the address has a string form. *)
Theorem decapsulate_self (table : list Protocol) (A : Multiaddr) (s : jsstring) :
  multiaddr.toString table A = Ok s ->
  multiaddr.decapsulate table A A = Ok {| buffer := [] |}.
Proof.
  intros Hs. unfold multiaddr.decapsulate. rewrite Hs. cbn [bind].
  pose proof (JsString_facts.lastIndexOf_app [] s) as Hlast.
  cbn [app length] in Hlast. rewrite Hlast. reflexivity.
Qed.

Lemma decapsulate_self_witness :
  multiaddr.decapsulate registry.table
    {| buffer := hex [0x04; 0x7f; 0x00; 0x00; 0x01; 0x06; 0x0f; 0xa1]%N |}
    {| buffer := hex [0x04; 0x7f; 0x00; 0x00; 0x01; 0x06; 0x0f; 0xa1]%N |}
  = Ok {| buffer := [] |}.
Proof.
  apply (decapsulate_self registry.table
           {| buffer := hex [0x04; 0x7f; 0x00; 0x00; 0x01; 0x06; 0x0f; 0xa1]%N |}
           (str "/ip4/127.0.0.1/tcp/4001")).
  vm_compute. reflexivity.
Defined.

(** X12: decapsulating the empty address never throws 'does not contain
    subaddress': the empty string is found at the end of every string,
    nothing is cut off, and the result is the constructor's answer to the
    address's own string. *)
Theorem decapsulate_empty (table : list Protocol) (A : Multiaddr) (s : jsstring) :
  multiaddr.toString table A = Ok s ->
  multiaddr.decapsulate table A {| buffer := [] |}
  = multiaddr.new table (JString s).
Proof.
  intros Hs. unfold multiaddr.decapsulate.
  destruct (capsule_facts.empty_address table) as (_ & -> & _).
  rewrite Hs. cbn [bind].
  pose proof (JsString_facts.lastIndexOf_app s []) as Hlast.
  rewrite app_nil_r in Hlast. rewrite Hlast.
  replace (Z.of_nat (length s) <? 0)%Z with false by (symmetry; apply Z.ltb_ge; lia).
  unfold JsString.slice0. rewrite Nat2Z.id. now rewrite firstn_all.
Qed.

Lemma decapsulate_empty_witness :
  multiaddr.decapsulate registry.table
    {| buffer := hex [0x04; 0x7f; 0x00; 0x00; 0x01; 0x06; 0x0f; 0xa1]%N |}
    {| buffer := [] |}
  = multiaddr.new registry.table (JString (str "/ip4/127.0.0.1/tcp/4001")).
Proof.
  apply (decapsulate_empty registry.table
           {| buffer := hex [0x04; 0x7f; 0x00; 0x00; 0x01; 0x06; 0x0f; 0xa1]%N |}
           (str "/ip4/127.0.0.1/tcp/4001")).
  vm_compute. reflexivity.
Defined.

(** X13: what [decapsulate] takes off, [encapsulate] puts back. For an
    address built from a canonical string that ends with the canonical
    string of [B], the part before it without path-like component,
    decapsulating [B] and encapsulating [B] again returns the address. *)
Theorem encapsulate_decapsulate (table : list Protocol) (A B : Multiaddr)
    (pre sB : jsstring) :
  registry_wf table ->
  canonical false table pre -> canonical true table sB ->
  multiaddr.new table (JString (pre ++ sB)) = Ok A ->
  multiaddr.new table (JString sB) = Ok B ->
  (let* P := multiaddr.decapsulate table A B in multiaddr.encapsulate table P B)
  = Ok A.
Proof.
  intros Hwf Hpre HsB HA HB.
  pose proof (composition_facts.canonical_app table pre sB Hpre HsB) as HsA.
  destruct (capsule_facts.new_canonical table Hwf _ _ HsA HA) as (HbA & HstrA & _).
  destruct (capsule_facts.new_canonical table Hwf _ _ HsB HB) as (HbB & HstrB & _).
  destruct (parse_facts.canonical_components table Hwf false pre Hpre)
    as (cs & _ & _ & HbP & _).
  pose proof (parse_facts.fromString_app table Hwf pre sB _ _ Hpre
                (parse_facts.canonical_headed table true sB HsB) HbP HbB) as Happ.
  unfold multiaddr.decapsulate. rewrite HstrB, HstrA. cbn [bind].
  rewrite JsString_facts.lastIndexOf_app.
  replace (Z.of_nat (length pre) <? 0)%Z with false
    by (symmetry; apply Z.ltb_ge; lia).
  unfold JsString.slice0. rewrite Nat2Z.id, take_app_length.
  rewrite composition_facts.new_string, HbP. cbn [bind].
  destruct (composition_facts.encapsulate_canonical table Hwf
              {| buffer := encodeAll cs |} B pre sB Hpre HbP HsB HbB)
    as (_ & _ & -> & _).
  cbn [buffer]. rewrite HbA in Happ. injection Happ as <-. now destruct A.
Qed.

Lemma encapsulate_decapsulate_witness :
  (let* P := multiaddr.decapsulate registry.table
               {| buffer := hex [0x04; 0x08; 0x08; 0x08; 0x08; 0x06; 0x04; 0x38]%N |}
               {| buffer := hex [0x06; 0x04; 0x38]%N |} in
   multiaddr.encapsulate registry.table P {| buffer := hex [0x06; 0x04; 0x38]%N |})
  = Ok {| buffer := hex [0x04; 0x08; 0x08; 0x08; 0x08; 0x06; 0x04; 0x38]%N |}.
Proof.
  apply (encapsulate_decapsulate registry.table
           {| buffer := hex [0x04; 0x08; 0x08; 0x08; 0x08; 0x06; 0x04; 0x38]%N |}
           {| buffer := hex [0x06; 0x04; 0x38]%N |}
           (str "/ip4/8.8.8.8") (str "/tcp/1080")).
  - exact registry_facts.table_wf.
  - apply (canonical_scalar false registry.table registry.ip4 (str "8.8.8.8") []).
    + left. reflexivity.
    + reflexivity.
    + reflexivity.
    + reflexivity.
    + exists (hex [0x08; 0x08; 0x08; 0x08]%N). vm_compute. split; reflexivity.
    + constructor.
  - apply (canonical_scalar true registry.table registry.tcp (str "1080") []).
    + right. left. reflexivity.
    + reflexivity.
    + reflexivity.
    + reflexivity.
    + exists (hex [0x04; 0x38]%N). vm_compute. split; reflexivity.
    + constructor.
  - vm_compute. reflexivity.
  - vm_compute. reflexivity.
Defined.

(** ** [protoCodes] on bytes that no address has *)

(** X14: [protoCodes()] does not check that the last value is complete.
    On the code of a fixed-width protocol followed by fewer bytes than
    its width, the loop steps past the end and returns the code, while
    [tuples()] and the constructor reject the same bytes. *)
Theorem protoCodes_truncated (table : list Protocol) (p : Protocol)
    (bits : N) (v : bytes) :
  registry_wf table -> In p table ->
  size p = Fixed bits -> (length v < N.to_nat (bits / 8))%nat ->
  multiaddr.protoCodes table {| buffer := varint.encode (code p) ++ v |}
  = Ok [code p]
  /\ multiaddr.tuples table {| buffer := varint.encode (code p) ++ v |}
     = Err InvalidAddress
  /\ multiaddr.new table (JBuffer (varint.encode (code p) ++ v))
     = Err InvalidAddress.
Proof.
  intros Hwf Hin Hsize Hlen.
  pose proof (varint_facts.decode_encode (code p) v) as Hdec.
  pose proof (varint_facts.encode_nonempty (code p)) as Hne.
  set (buf := varint.encode (code p) ++ v) in *.
  assert (length buf = (length (varint.encode (code p)) + length v)%nat) as Hbuf
    by apply length_app.
  assert (codec.readTuple table buf = Err InvalidAddress) as Hread.
  { unfold codec.readTuple. rewrite Hdec. cbn [orThrow bind].
    rewrite (find_unique code table p (wf_codes _ Hwf) Hin). cbn [orThrow bind].
    unfold codec.sizeForAddr. rewrite Hsize. cbn [bind].
    unfold buf. rewrite drop_app_length.
    replace (_ <=? _)%nat with false by (symmetry; apply Nat.leb_gt; lia).
    reflexivity. }
  assert (forall A (f : Protocol -> bytes -> Result A),
             codec.walk table f (length buf) buf = Err InvalidAddress) as Hwalk.
  { intros A f. destruct buf as [|b buf'] eqn:E.
    - apply app_eq_nil in E as [? _]. congruence.
    - cbn [length codec.walk]. now rewrite Hread. }
  split; [|split].
  - unfold multiaddr.protoCodes, multiaddr.protoCodes_with. cbn [buffer].
    destruct (length buf) as [|n] eqn:En.
    { destruct (varint.encode (code p)); [congruence | simpl in Hbuf; lia]. }
    cbn [multiaddr.protoCodes_loop]. rewrite En.
    replace (0 <? S n)%nat with true by reflexivity.
    rewrite Hdec. cbn [orThrow bind].
    rewrite (codec_facts.byCode_code table Hwf p Hin). cbn [bind].
    unfold codec.sizeForAddr. rewrite Hsize. cbn [bind].
    assert (forall m i, (S n <= i)%nat ->
              multiaddr.protoCodes_loop (byCode table) m buf i = Ok []) as Hend.
    { intros m i Hi. destruct m; cbn [multiaddr.protoCodes_loop]; rewrite En;
        replace (i <? S n)%nat with false by (symmetry; apply Nat.ltb_ge; lia);
        reflexivity. }
    rewrite Hend by lia. reflexivity.
  - unfold multiaddr.tuples, codec.bufferToTuples. cbn [buffer]. apply Hwalk.
  - unfold multiaddr.new. cbn [falsy]. unfold codec.fromBuffer.
    now rewrite Hwalk.
Qed.

Lemma protoCodes_truncated_witness :
  multiaddr.protoCodes registry.table
    {| buffer := varint.encode (code registry.ip4) ++ hex [0x7f; 0x00]%N |}
  = Ok [code registry.ip4]
  /\ multiaddr.tuples registry.table
       {| buffer := varint.encode (code registry.ip4) ++ hex [0x7f; 0x00]%N |}
     = Err InvalidAddress
  /\ multiaddr.new registry.table
       (JBuffer (varint.encode (code registry.ip4) ++ hex [0x7f; 0x00]%N))
     = Err InvalidAddress.
Proof.
  apply (protoCodes_truncated registry.table registry.ip4 32 (hex [0x7f; 0x00]%N)).
  - exact registry_facts.table_wf.
  - left. reflexivity.
  - reflexivity.
  - vm_compute. lia.
Defined.

(** ** [isMultiaddr] *)

(** X15: [Multiaddr.isMultiaddr] raises a [TypeError] exactly on
    [undefined] and [null]. Otherwise it answers [true] exactly when the
    name of the constructor of its argument is ['Multiaddr'], whatever
    the argument is and has, or when that name is missing or empty and
    both [fromStupidString] and [protos] are truthy. So it is [true] of a
    Multiaddr, and [false] of every string, also of one that the
    constructor accepts. *)
Theorem isMultiaddr_spec :
  (forall addr, multiaddr.isMultiaddr addr = None <-> addr = None)
  /\ (forall o,
        multiaddr.isMultiaddr (Some o) = Some true
        <-> multiaddr.constructorName o = multiaddr.Name (str "Multiaddr")
            \/ ((multiaddr.constructorName o = multiaddr.NoName
                  \/ multiaddr.constructorName o = multiaddr.Name [])
                 /\ multiaddr.hasFromStupidString o = true
                 /\ multiaddr.hasProtos o = true))
  /\ multiaddr.isMultiaddr (Some multiaddr.shapeOfMultiaddr) = Some true
  /\ multiaddr.isMultiaddr (Some multiaddr.shapeOfString) = Some false.
Proof.
  split; [|split; [|split]]; try reflexivity.
  - intros [o|]; [|tauto]. split; [|discriminate].
    unfold multiaddr.isMultiaddr.
    destruct (multiaddr.constructorName o) as [|[|c n]|]; discriminate.
  - intros [cn f p]. unfold multiaddr.isMultiaddr.
    cbn [multiaddr.constructorName multiaddr.hasFromStupidString multiaddr.hasProtos].
    destruct cn as [|[|c n]|].
    + split.
      * intros [= H]. apply andb_prop in H as [-> ->]. tauto.
      * intros [H | (_ & -> & ->)]; [discriminate | reflexivity].
    + split.
      * intros [= H]. apply andb_prop in H as [-> ->]. tauto.
      * intros [H | (_ & -> & ->)]; [discriminate | reflexivity].
    + unfold jsstring_eqb. split.
      * intros [= H]. apply bool_decide_eq_true in H. left. now rewrite H.
      * intros [H | ([H | H] & _)]; try discriminate.
        f_equal. apply bool_decide_eq_true_2. congruence.
    + split; [discriminate |].
      intros [H | ([H | H] & _)]; discriminate.
Qed.

(** ** [protos()] on the heap *)

Module heap_facts.
Import objects objects_facts.

Section WithRegistry.
Variable codes : gmap N nat.

(** One round of copies allocates one new record per code, all at
    different addresses, and nothing else. *)
Lemma mapExtend_alloc (cs : list N) :
  forall h ls h1,
    mapExtend codes h cs = Ok (ls, h1) ->
    NoDup ls
    /\ length ls = length cs
    /\ (forall l, l ∈ ls -> l ∉ dom h)
    /\ dom h1 = dom h ∪ list_to_set ls.
Proof.
  induction cs as [|c cs IH]; intros h ls h1 H.
  - injection H as <- <-. split; [constructor |]. split; [reflexivity |].
    split; [intros l Hl; inversion Hl | set_solver].
  - cbn [mapExtend] in H. unfold protocols, extend, read in H.
    destruct (codes !! c) as [r|]; [|discriminate]. cbn [orThrow bind] in H.
    destruct (h !! r) as [o|]; [|discriminate]. cbn [orThrow bind] in H.
    set (l' := fresh (dom h)) in *.
    pose proof (is_fresh (dom h)) as Hfresh. fold l' in Hfresh.
    destruct (mapExtend codes (<[l' := o]> h) cs) as [[ls0 h0]|] eqn:E; [|discriminate].
    cbn [bind] in H. injection H as <- <-.
    destruct (IH _ _ _ E) as (Hnodup & Hlen & Hnew & Hdom).
    rewrite dom_insert_L in Hdom.
    split; [|split; [|split]].
    + constructor; [|exact Hnodup].
      intros Hin. apply Hnew in Hin. rewrite dom_insert_L in Hin. set_solver.
    + cbn [length]. now rewrite Hlen.
    + intros l Hl. apply elem_of_cons in Hl as [-> | Hl]; [exact Hfresh |].
      apply Hnew in Hl. rewrite dom_insert_L in Hl. set_solver.
    + rewrite Hdom. set_solver.
Qed.

Variable table : list Protocol.

(** When index and heap hold what the table holds, [protocols(code)]
    reads the record that [byCode] returns. *)
Lemma read_byCode (h : gmap nat Protocol) :
  registered codes h ->
  (forall c, recordOf codes h c = find (fun p => (code p =? c)%N) table) ->
  forall c, (let* l := protocols codes c in read h l) = byCode table c.
Proof.
  intros Hreg Hrel c. specialize (Hrel c).
  unfold protocols, read, byCode, recordOf in *.
  destruct (codes !! c) as [l|] eqn:Hc; cbn [orThrow bind].
  - destruct (Hreg c l Hc) as [o Ho]. rewrite Ho in *. now rewrite <- Hrel.
  - now rewrite <- Hrel.
Qed.

(** The copies hold the records that [byCode] returns, and copying
    fails where [byCode] fails. *)
Lemma mapExtend_byCode (cs : list N) :
  forall h,
    registered codes h ->
    (forall c, recordOf codes h c = find (fun p => (code p =? c)%N) table) ->
    match mapM (byCode table) cs with
    | Ok ps =>
        exists ls h1,
          mapExtend codes h cs = Ok (ls, h1)
          /\ map (fun l => h1 !! l) ls = map Some ps
    | Err e => mapExtend codes h cs = Err e
    end.
Proof.
  induction cs as [|c cs IH]; intros h Hreg Hrel.
  - cbn [mapM mapExtend]. now exists [], h.
  - cbn [mapM mapExtend].
    pose proof (read_byCode h Hreg Hrel c) as Hread.
    unfold protocols, extend, read in *.
    destruct (codes !! c) as [r|] eqn:Hc; cbn [orThrow bind] in *.
    + destruct (Hreg c r Hc) as [o Ho]. rewrite Ho in *. cbn [orThrow bind] in *.
      rewrite <- Hread. cbn [bind].
      set (l' := fresh (dom h)).
      assert (h !! l' = None) as Hfresh by (apply not_elem_of_dom, is_fresh).
      assert (registered codes (<[l' := o]> h)) as Hreg'.
      { intros c0 l0 Hc0. destruct (decide (l' = l0)) as [<- | Hne].
        - rewrite lookup_insert_eq. eauto.
        - rewrite lookup_insert_ne by exact Hne. now apply (Hreg c0). }
      assert (forall c0, recordOf codes (<[l' := o]> h) c0
                         = find (fun p => (code p =? c0)%N) table) as Hrel'.
      { intros c0. rewrite <- Hrel. unfold recordOf.
        destruct (codes !! c0) as [r0|] eqn:Hc0; [|reflexivity].
        apply lookup_insert_ne. intros <-.
        destruct (Hreg c0 l' Hc0) as [x Hx]. congruence. }
      specialize (IH _ Hreg' Hrel').
      destruct (mapM (byCode table) cs) as [ps|e]; cbn [bind].
      * destruct IH as (ls & h1 & Hext & Hcontents).
        exists (l' :: ls), h1. rewrite Hext. cbn [bind]. split; [reflexivity |].
        cbn [map]. rewrite Hcontents. f_equal.
        destruct (mapExtend_spec codes cs _ _ _ Hreg' Hext) as (_ & Hkeep & _).
        rewrite Hkeep by (rewrite lookup_insert_eq; eauto).
        apply lookup_insert_eq.
      * now rewrite IH.
    + now rewrite <- Hread.
Qed.

End WithRegistry.
End heap_facts.

(** X16: the records that [protos()] returns are pairwise different
    objects, one for every protocol code of the address, also when a code
    occurs twice; the call allocates these records and nothing else. *)
Theorem protos_distinct (codes : gmap N nat) (h h1 : gmap nat Protocol)
    (a : Multiaddr) (ls : list nat) :
  objects.protos codes h a = Ok (ls, h1) ->
  NoDup ls
  /\ (forall l, l ∈ ls -> l ∉ dom h)
  /\ dom h1 = dom h ∪ list_to_set ls
  /\ exists cs,
       multiaddr.protoCodes_with
         (fun c => let* l := objects.protocols codes c in objects.read h l) a = Ok cs
       /\ length ls = length cs.
Proof.
  intros H. unfold objects.protos in H. apply bind_Ok in H as (cs & Hcs & Hext).
  destruct (heap_facts.mapExtend_alloc codes cs h ls h1 Hext)
    as (Hnodup & Hlen & Hnew & Hdom).
  split; [exact Hnodup |]. split; [exact Hnew |]. split; [exact Hdom |].
  now exists cs.
Qed.

Lemma protos_distinct_witness :
  let a := {| buffer := hex [0x06; 0x0f; 0xa1; 0x06; 0x00; 0x50]%N |} in
  let ls := [7; 8]%nat in
  let h1 := <[8%nat := registry.tcp]> (<[7%nat := registry.tcp]> registry.records) in
  NoDup ls
  /\ (forall l, l ∈ ls -> l ∉ dom registry.records)
  /\ dom h1 = dom registry.records ∪ list_to_set ls
  /\ exists cs,
       multiaddr.protoCodes_with
         (fun c => let* l := objects.protocols registry.codes c in
                   objects.read registry.records l) a = Ok cs
       /\ length ls = length cs.
Proof.
  apply (protos_distinct registry.codes registry.records).
  reflexivity.
Defined.

(** X17: the heap and the contents agree. When the registry's index and
    records hold the rows of the table, [protos()] on the heap succeeds
    exactly when [protos()] on the contents does, with the same error
    otherwise, and the records it allocates hold, in order, the
    descriptors that [byCode] returns for the codes of the address. *)
Theorem protos_contents (codes : gmap N nat) (h : gmap nat Protocol)
    (table : list Protocol) (a : Multiaddr) :
  objects.registered codes h ->
  (forall c, recordOf codes h c = find (fun p => (code p =? c)%N) table) ->
  match multiaddr.protos table a with
  | Ok ps =>
      exists ls h1,
        objects.protos codes h a = Ok (ls, h1)
        /\ map (fun l => h1 !! l) ls = map Some ps
  | Err e => objects.protos codes h a = Err e
  end.
Proof.
  intros Hreg Hrel. unfold multiaddr.protos, objects.protos.
  unfold multiaddr.protoCodes, multiaddr.protoCodes_with.
  rewrite (objects_facts.protoCodes_loop_ext
             (fun c => let* l := objects.protocols codes c in objects.read h l)
             (byCode table))
    by (intros c; apply (heap_facts.read_byCode codes table h Hreg Hrel)).
  destruct (multiaddr.protoCodes_loop (byCode table) _ _ _) as [cs|e];
    cbn [bind]; [|reflexivity].
  apply (heap_facts.mapExtend_byCode codes table cs h Hreg Hrel).
Qed.

Lemma protos_contents_witness :
  match multiaddr.protos registry.table
          {| buffer := hex [0x04; 0x7f; 0x00; 0x00; 0x01; 0x06; 0x0f; 0xa1]%N |} with
  | Ok ps =>
      exists ls h1,
        objects.protos registry.codes registry.records
          {| buffer := hex [0x04; 0x7f; 0x00; 0x00; 0x01; 0x06; 0x0f; 0xa1]%N |}
        = Ok (ls, h1)
        /\ map (fun l => h1 !! l) ls = map Some ps
  | Err e =>
      objects.protos registry.codes registry.records
        {| buffer := hex [0x04; 0x7f; 0x00; 0x00; 0x01; 0x06; 0x0f; 0xa1]%N |}
      = Err e
  end.
Proof.
  apply (protos_contents registry.codes registry.records registry.table).
  - intros c r H. apply elem_of_list_to_map_2 in H.
    vm_compute imap in H.
    repeat (apply elem_of_cons in H as [[= -> ->] | H]; [eexists; reflexivity |]).
    inversion H.
  - intros c.
    destruct (decide (c ∈ [4; 6; 17; 41; 54; 400; 480]%N)) as [Hin | Hout].
    + repeat (apply elem_of_cons in Hin as [-> | Hin]; [reflexivity |]).
      inversion Hin.
    + unfold recordOf, registry.codes.
      rewrite (not_elem_of_list_to_map_1 (M := gmap N)); [|exact Hout].
      repeat (apply not_elem_of_cons in Hout as [? Hout]).
      cbn [find registry.table code registry.ip4 registry.tcp registry.udp
             registry.ip6 registry.dns4 registry.unix registry.http].
      repeat (rewrite (proj2 (N.eqb_neq _ c)) by congruence).
      reflexivity.
Defined.

(** ** [inspect] *)

Module inspect_facts.

(** The pair of hexadecimal digits that [toString('hex')] writes for a
    byte, as [toHex] has it. *)
Lemma toHex_cons (b : Byte.byte) (buf : bytes) :
  exists c1 c2,
    multiaddr.toHex (b :: buf) = c1 :: c2 :: multiaddr.toHex buf
    /\ (48 <= N_of_ascii c1)%N /\ (48 <= N_of_ascii c2)%N
    /\ forall b' buf' c1' c2',
         multiaddr.toHex (b' :: buf') = c1' :: c2' :: multiaddr.toHex buf' ->
         c1 = c1' -> c2 = c2' -> b = b'.
Proof.
  unfold multiaddr.toHex. cbn [flat_map app].
  eexists _, _. split; [reflexivity |].
  split; [destruct b; vm_compute; discriminate |].
  split; [destruct b; vm_compute; discriminate |].
  intros b' buf' c1' c2' [= <- <-] H1 H2.
  apply (f_equal N_of_ascii) in H1, H2.
  pose proof (to_N_lt_256 b) as Hb. pose proof (to_N_lt_256 b') as Hb'.
  assert (forall n, (n < 16)%N ->
            N_of_ascii (ascii_of_N (if (n <? 10)%N then 48 + n else 87 + n))
            = (if (n <? 10)%N then 48 + n else 87 + n)%N) as Hdigit.
  { intros n Hn. apply N_ascii_embedding. destruct (n <? 10)%N; lia. }
  assert (forall x, (x < 256)%N -> (x / 16 < 16)%N) as Hdiv
    by (intros x Hx; apply N.Div0.div_lt_upper_bound; lia).
  assert (forall x, (x mod 16 < 16)%N) as Hmod
    by (intros x; apply N.mod_lt; lia).
  rewrite !Hdigit in H1, H2 by auto.
  assert (Byte.to_N b / 16 = Byte.to_N b' / 16)%N as E1.
  { destruct (Byte.to_N b / 16 <? 10)%N eqn:Ea;
      destruct (Byte.to_N b' / 16 <? 10)%N eqn:Eb;
      try apply N.ltb_lt in Ea; try apply N.ltb_ge in Ea;
      try apply N.ltb_lt in Eb; try apply N.ltb_ge in Eb; lia. }
  assert (Byte.to_N b mod 16 = Byte.to_N b' mod 16)%N as E2.
  { destruct (Byte.to_N b mod 16 <? 10)%N eqn:Ea;
      destruct (Byte.to_N b' mod 16 <? 10)%N eqn:Eb;
      try apply N.ltb_lt in Ea; try apply N.ltb_ge in Ea;
      try apply N.ltb_lt in Eb; try apply N.ltb_ge in Eb; lia. }
  rewrite <- (byte_of_N_of_to_N b), <- (byte_of_N_of_to_N b'). f_equal.
  rewrite (N.div_mod (Byte.to_N b) 16), (N.div_mod (Byte.to_N b') 16) by lia.
  now rewrite E1, E2.
Qed.

(** The hexadecimal text of a buffer, followed by a blank, determines the
    buffer: no digit is a blank. *)
Lemma toHex_delimited (b1 : bytes) :
  forall b2 r1 r2,
    multiaddr.toHex b1 ++ " "%char :: r1 = multiaddr.toHex b2 ++ " "%char :: r2 ->
    b1 = b2.
Proof.
  induction b1 as [|x b1 IH]; intros [|y b2] r1 r2 H.
  - reflexivity.
  - exfalso. destruct (toHex_cons y b2) as (c1 & c2 & E & H1 & _).
    rewrite E in H. cbn [multiaddr.toHex flat_map app] in H.
    injection H as H _. subst c1. vm_compute in H1. now apply H1.
  - exfalso. destruct (toHex_cons x b1) as (c1 & c2 & E & H1 & _).
    rewrite E in H. cbn [multiaddr.toHex flat_map app] in H.
    injection H as H _. subst c1. vm_compute in H1. now apply H1.
  - destruct (toHex_cons x b1) as (c1 & c2 & E & _ & _ & Hinj).
    destruct (toHex_cons y b2) as (d1 & d2 & E' & _).
    rewrite E, E' in H. cbn [app] in H. injection H as Hc1 Hc2 H.
    f_equal.
    + exact (Hinj y b2 d1 d2 E' Hc1 Hc2).
    + exact (IH b2 r1 r2 H).
Qed.

End inspect_facts.

(** X18: the text of [inspect()] identifies the address: two addresses
    with the same text have the same bytes. The text is returned
    whenever the address has a string form. *)
Theorem inspect_injective (table : list Protocol) (a b : Multiaddr) (r : jsstring) :
  multiaddr.inspect table a = Ok r ->
  multiaddr.inspect table b = Ok r ->
  multiaddr.equals a b = true.
Proof.
  intros Ha Hb. unfold multiaddr.inspect in *.
  apply bind_Ok in Ha as (sa & _ & [= <-]).
  apply bind_Ok in Hb as (sb & _ & [= Hb]).
  apply inspect_facts.toHex_delimited in Hb.
  unfold multiaddr.equals. now apply bool_decide_eq_true_2.
Qed.

Lemma inspect_injective_witness :
  multiaddr.equals
    {| buffer := hex [0x04; 0x7f; 0x00; 0x00; 0x01; 0x06; 0x0f; 0xa1]%N |}
    {| buffer := hex [0x04; 0x7f; 0x00; 0x00; 0x01; 0x06; 0x0f; 0xa1]%N |} = true.
Proof.
  apply (inspect_injective registry.table
           {| buffer := hex [0x04; 0x7f; 0x00; 0x00; 0x01; 0x06; 0x0f; 0xa1]%N |}
           {| buffer := hex [0x04; 0x7f; 0x00; 0x00; 0x01; 0x06; 0x0f; 0xa1]%N |}
           (str "<Multiaddr 047f000001060fa1 - /ip4/127.0.0.1/tcp/4001>")).
  - vm_compute. reflexivity.
  - vm_compute. reflexivity.
Defined.
